(** * PdfViewerScreen: the lasso text-selection engine and its session state

    A shallow embedding of [src/screens/PdfViewerScreen.tsx].

    - JavaScript numbers that carry geometry are IEEE-754 binary64 values and
      are modelled by Rocq's primitive [float] (the same format, rounding to
      nearest even, one NaN). What is proved about all numbers is derived
      from the specification of the primitive operations over [SpecFloat].
    - Page numbers are JavaScript numbers that hold integers (the PDF
      component reports integers, [parseInt] yields an integer or NaN); they
      are modelled by [PageNumber].
    - Strings are ASCII strings.
    - A React handler reads the state of the render it was created in (its
      snapshot) and queues updates; a handler is a function from the snapshot
      to the next state, its [set...] calls applied in program order.
    - [performOCR] is asynchronous: it is a call that runs up to its first
      [await], followed by one resumption per settled promise.
    - Alerts and console output change no state and are left out. *)

From Stdlib Require Import ZArith List Bool String Ascii Lia Floats Sorted Setoid.
From Stdlib Require Import DecimalString DecimalZ.
Import ListNotations.

Local Open Scope bool_scope.
Local Open Scope list_scope.

(** ** The JavaScript primitives the screen relies on *)

Module JS.

(** [isNaN(x)] on a number. *)
Definition isNaN (x : float) : bool := PrimFloat.is_nan x.

(** ToBoolean on a number: [0], [-0] and [NaN] are falsy. *)
Definition truthy (x : float) : bool := negb (PrimFloat.is_nan x || PrimFloat.is_zero x).

(** [a || d] where [a] is a number or [undefined] and [d] a number. *)
Definition num_or (a : option float) (d : float) : float :=
  match a with
  | Some v => if truthy v then v else d
  | None => d
  end.

(** [a >= b] on numbers (false as soon as one side is NaN). *)
Definition geb (a b : float) : bool := (b <=? a)%float.

Definition is_neg_zero (x : float) : bool :=
  match PrimFloat.classify x with NZero => true | _ => false end.

Definition is_pos_zero (x : float) : bool :=
  match PrimFloat.classify x with PZero => true | _ => false end.

(** [Math.min(...l)], ECMA-262 21.3.2.25: NaN as soon as one argument is
    NaN, [-0] below [+0], [+Infinity] on no argument. *)
Fixpoint min_from (lowest : float) (l : list float) : float :=
  match l with
  | [] => lowest
  | n :: rest =>
      if PrimFloat.is_nan n then PrimFloat.nan
      else if is_neg_zero n && is_pos_zero lowest then min_from n rest
      else if (n <? lowest)%float then min_from n rest
      else min_from lowest rest
  end.

Definition Math_min (l : list float) : float := min_from PrimFloat.infinity l.

(** [Math.max(...l)], ECMA-262 21.3.2.24. *)
Fixpoint max_from (highest : float) (l : list float) : float :=
  match l with
  | [] => highest
  | n :: rest =>
      if PrimFloat.is_nan n then PrimFloat.nan
      else if is_pos_zero n && is_neg_zero highest then max_from n rest
      else if (highest <? n)%float then max_from n rest
      else max_from highest rest
  end.

Definition Math_max (l : list float) : float := max_from PrimFloat.neg_infinity l.

(** [arr.forEach((element, index) => ...)] threading the variables the
    callback mutates. *)
Fixpoint forEach_from {A T : Type} (f : A -> nat -> T -> T) (i : nat) (l : list A) (acc : T) : T :=
  match l with
  | [] => acc
  | a :: rest => forEach_from f (S i) rest (f a i acc)
  end.

Definition forEach {A T : Type} (f : A -> nat -> T -> T) (l : list A) (acc : T) : T :=
  forEach_from f 0 l acc.


(** *** Strings: [trim], [split(/[\s,]+/)], [join] *)

(** [\s] on ASCII input: TAB, LF, VT, FF, CR and space. *)
Definition is_space (c : ascii) : bool :=
  let n := nat_of_ascii c in
  Nat.eqb n 32 || (Nat.leb 9 n && Nat.leb n 13).

(** The character class [[\s,]]. *)
Definition is_separator (c : ascii) : bool :=
  is_space c || Ascii.eqb c ","%char.

Fixpoint trimStart (s : string) : string :=
  match s with
  | EmptyString => EmptyString
  | String c r => if is_space c then trimStart r else s
  end.

Fixpoint trimEnd (s : string) : string :=
  match s with
  | EmptyString => EmptyString
  | String c r =>
      match trimEnd r with
      | EmptyString => if is_space c then EmptyString else String c EmptyString
      | r' => String c r'
      end
  end.

Definition trim (s : string) : string := trimEnd (trimStart s).

(** [s.split(/[\s,]+/)]: the pieces between maximal runs of separators; a
    leading or trailing run leaves an empty piece, and the empty string
    splits into one empty piece. [cur] is the piece being read. *)
Fixpoint split_from (cur : string) (in_run : bool) (s : string) : list string :=
  match s with
  | EmptyString => [cur]
  | String c r =>
      if is_separator c then
        if in_run then split_from cur true r
        else cur :: split_from EmptyString true r
      else split_from (cur ++ String c EmptyString)%string false r
  end.

Definition split_separators (s : string) : list string :=
  split_from EmptyString false s.

(** [l.join(sep)]. *)
Definition join (sep : string) (l : list string) : string := String.concat sep l.

(** *** Numeric literals: [parseFloat] and [parseInt(_, 10)] *)

Definition is_digit (c : ascii) : bool :=
  let n := nat_of_ascii c in Nat.leb 48 n && Nat.leb n 57.

Definition digit_value (c : ascii) : Z := Z.of_nat (nat_of_ascii c - 48).

(** The longest prefix of decimal digits, as digit values, and what follows. *)
Fixpoint span_digits (s : string) : list Z * string :=
  match s with
  | EmptyString => ([], EmptyString)
  | String c r =>
      if is_digit c then let '(ds, rest) := span_digits r in (digit_value c :: ds, rest)
      else ([], s)
  end.

Definition digits_value (ds : list Z) : Z :=
  fold_left (fun acc d => 10 * acc + d)%Z ds 0%Z.

(** An optional sign: [true] for [-]. *)
Definition read_sign (s : string) : bool * string :=
  match s with
  | String "+"%char r => (false, r)
  | String "-"%char r => (true, r)
  | _ => (false, s)
  end.

(** The value of an ExponentPart at the head of [s]; [0] when there is none
    (an [e] that no digit follows is not part of the literal). *)
Definition read_exponent (s : string) : Z :=
  match s with
  | String c r =>
      if Ascii.eqb c "e"%char || Ascii.eqb c "E"%char then
        let '(neg, r') := read_sign r in
        let '(ds, _) := span_digits r' in
        match ds with
        | [] => 0%Z
        | _ => if neg then (- digits_value ds)%Z else digits_value ds
        end
      else 0%Z
  | EmptyString => 0%Z
  end.

(** The mathematical value of a StrDecimalLiteral: [±Infinity] or
    [± m * 10 ^ e10]. *)
Inductive numeral : Type :=
| Num_infinity (neg : bool)
| Num_decimal (neg : bool) (m : Z) (e10 : Z).

(** The longest prefix of [s] that is a StrDecimalLiteral (ECMA-262 7.1.4.1),
    if there is one. *)
Definition StrDecimalLiteral_prefix (s : string) : option numeral :=
  let '(neg, s1) := read_sign s in
  if String.prefix "Infinity" s1 then Some (Num_infinity neg)
  else
    let '(ip, s2) := span_digits s1 in
    let '(fp, s3) :=
      match s2 with
      | String "."%char r =>
          let '(fp, r') := span_digits r in
          match ip, fp with
          | [], [] => ([], s2)
          | _, _ => (fp, r')
          end
      | _ => ([], s2)
      end in
    match ip, fp with
    | [], [] => None
    | _, _ =>
        Some (Num_decimal neg (digits_value (ip ++ fp))
                (read_exponent s3 - Z.of_nat (List.length fp))%Z)
    end.

(** The Number value of a numeral: the binary64 nearest to it, ties to even. *)
Definition numeral_to_float (n : numeral) : float :=
  match n with
  | Num_infinity neg => if neg then PrimFloat.neg_infinity else PrimFloat.infinity
  | Num_decimal neg (Zpos p) e10 =>
      SF2Prim
        (if (0 <=? e10)%Z
         then binary_round prec emax neg (p * Z.to_pos (10 ^ e10))%positive 0
         else SFdiv prec emax (S754_finite neg p 0)
                (S754_finite false (Z.to_pos (10 ^ (- e10))) 0))
  | Num_decimal neg _ _ => if neg then PrimFloat.neg_zero else PrimFloat.zero
  end.

(** [parseFloat(s)], ECMA-262 19.2.4. *)
Definition parseFloat (s : string) : float :=
  match StrDecimalLiteral_prefix (trimStart s) with
  | Some n => numeral_to_float n
  | None => PrimFloat.nan
  end.

(** [parseInt(s, 10)], ECMA-262 19.2.5, up to its last step: the signed
    integer the leading digits of [s] denote, which [parseInt] returns as a
    Number; [None] stands for NaN. *)
Definition parseInt10 (s : string) : option Z :=
  let '(neg, s1) := read_sign (trimStart s) in
  let '(ds, _) := span_digits s1 in
  match ds with
  | [] => None
  | _ => Some (if neg then (- digits_value ds)%Z else digits_value ds)
  end.

(** [n.toString()] for an integer [n]. *)
Definition int_toString (n : Z) : string :=
  DecimalString.NilEmpty.string_of_int (Z.to_int n).

(** *** Integers as Numbers

    A JavaScript number is a binary64: the integers up to [2^53 - 1] in
    absolute value are all numbers, and [Number::toString] writes each of
    them digit by digit; a larger integer [v] stands for the number nearest
    to it, which is written with the fewest digits that still denote it. *)

Definition MAX_SAFE_INTEGER : Z := 9007199254740991.

(** [Number.isSafeInteger(n)] on an integer. *)
Definition isSafeInteger (n : Z) : bool := (Z.abs n <=? MAX_SAFE_INTEGER)%Z.

(** The Number value of an integer: round to nearest, ties to even. *)
Definition Number_of_integer (v : Z) : spec_float :=
  SpecFloat.binary_normalize prec emax v 0 false.

(** The integer a Number is, if it is finite ([integer_of_Number] is only
    applied to the Number value of an integer). *)
Definition integer_of_Number (x : spec_float) : option Z :=
  match x with
  | S754_zero _ => Some 0%Z
  | S754_finite s m e => Some (cond_Zopp s (Z.shiftl (Zpos m) e))
  | S754_infinity _ => None
  | S754_nan => None
  end.

(** The Number value of the integer [c] is the integer [x]. *)
Definition rounds_to (x c : Z) : bool :=
  match integer_of_Number (Number_of_integer c) with
  | Some y => (y =? x)%Z
  | None => false
  end.

(** ECMA-262 6.1.6.1.20, step 5, for a positive integer Number [x] of
    [digits] decimal digits: the integer [s * 10^(n-k)] with the least
    number [k] of significant digits whose Number value is [x], the one
    nearest to [x] if there are two. Seventeen digits always suffice. *)
Fixpoint shortest_decimal (fuel : nat) (k : Z) (digits x : Z) : Z :=
  match fuel with
  | O => x
  | S fuel' =>
      if (digits <=? k)%Z then x
      else
        let unit := (10 ^ (digits - k))%Z in
        let below := (x / unit * unit)%Z in
        let above := (below + unit)%Z in
        match rounds_to x below, rounds_to x above with
        | true, true => if (x - below <=? above - x)%Z then below else above
        | true, false => below
        | false, true => above
        | false, false => shortest_decimal fuel' (k + 1) digits x
        end
  end.

(** The digits of [s]: a decimal without its trailing zeros. *)
Fixpoint strip_zeros (s : string) : string :=
  match s with
  | EmptyString => EmptyString
  | String c r =>
      match strip_zeros r with
      | EmptyString => if Ascii.eqb c "0" then EmptyString else String c EmptyString
      | r' => String c r'
      end
  end.

(** Steps 6 to 13 for a positive integer Number: up to 21 digits are
    written out, with zeros after the significant ones; beyond that the
    exponent notation [d.ddde+n] is used. *)
Definition positive_integer_toString (x : Z) : string :=
  let digits := Z.of_nat (String.length (int_toString x)) in
  let c := shortest_decimal 17 1 digits x in
  let all := int_toString c in
  let n := Z.of_nat (String.length all) in
  if (n <=? 21)%Z then all
  else
    match strip_zeros all with
    | String d EmptyString => (String d EmptyString ++ "e+" ++ int_toString (n - 1))%string
    | String d r => (String d ("." ++ r) ++ "e+" ++ int_toString (n - 1))%string
    | EmptyString => all
    end.

(** [x.toString()] where [x] is the Number value of the integer [n]. *)
Definition integer_Number_toString (n : Z) : string :=
  if isSafeInteger n then int_toString n
  else
    match integer_of_Number (Number_of_integer (Z.abs n)) with
    | Some x => ((if (n <? 0)%Z then "-" else "") ++ positive_integer_toString x)%string
    | None => if (n <? 0)%Z then "-Infinity" else "Infinity"
    end.

End JS.

(** ** Data model *)

(** A page number: an integer, or the NaN that [parseInt] returns on a
    string with no leading digits. *)
Inductive PageNumber : Type :=
| PageNaN
| Page (n : Z).

(** [a === b] on page numbers: NaN differs from everything, itself
    included. *)
Definition page_eq (a b : PageNumber) : bool :=
  match a, b with
  | Page x, Page y => Z.eqb x y
  | _, _ => false
  end.

(** [a !== b]. *)
Definition page_neq (a b : PageNumber) : bool := negb (page_eq a b).

(** [arr.includes(p)], which compares with SameValueZero: NaN is found. *)
Definition includes (l : list PageNumber) (p : PageNumber) : bool :=
  existsb (fun q => match q, p with
                    | PageNaN, PageNaN => true
                    | _, _ => page_eq q p
                    end) l.

Module Point.
Record t : Type := mk { x : float; y : float }.
End Point.

(** The object [mapCoordinates] returns. *)
Module Rect.
Record t : Type := mk { x : float; y : float; width : float; height : float }.
End Rect.

(** An OCR frame as the screen reads it ([element.frame as any]): every field
    it looks at may be missing. *)
Module Frame.
Record t : Type := mk {
  left : option float; top : option float;
  width : option float; height : option float;
  x : option float; y : option float;
  right : option float; bottom : option float }.
End Frame.

Module TextElement.
Record t : Type := mk { text : string; frame : option Frame.t }.
End TextElement.

(** A missing [elements] or [lines] array is the empty list: the screen only
    reaches them through [?.forEach] and [?.[i]]. *)
Module TextLine.
Record t : Type := mk { text : string; frame : option Frame.t; elements : list TextElement.t }.
End TextLine.

Module TextBlock.
Record t : Type := mk { text : string; frame : option Frame.t; lines : list TextLine.t }.
End TextBlock.

Module TextRecognitionResult.
Record t : Type := mk { text : string; blocks : list TextBlock.t }.
End TextRecognitionResult.

Module IntersectingElement.
Record t : Type := mk { blockIndex : nat; lineIndex : nat; elementIndex : nat }.
End IntersectingElement.

Module DrawPath.
Record t : Type := mk { path : string; page : PageNumber }.
End DrawPath.

Module Layout.
Record t : Type := mk { width : float; height : float; x : float; y : float }.
End Layout.

Module ImageSize.
Record t : Type := mk { width : float; height : float }.
End ImageSize.

(** ** Path geometry parser *)

Definition is_command (part : string) : bool :=
  String.eqb part "M" || String.eqb part "L".

(** The [for] loop of [parseSvgPath] over [parts], from index [i] on: a
    command with two following parts consumes them ([i += 2]) and yields a
    point unless a coordinate is NaN; anything else is stepped over. *)
Fixpoint parse_parts (parts : list string) : list Point.t :=
  match parts with
  | [] => []
  | part :: rest =>
      if is_command part then
        match rest with
        | sx :: sy :: rest' =>
            let x := JS.parseFloat sx in
            let y := JS.parseFloat sy in
            if negb (JS.isNaN x) && negb (JS.isNaN y)
            then Point.mk x y :: parse_parts rest'
            else parse_parts rest'
        | _ => parse_parts rest
        end
      else parse_parts rest
  end.

Definition parseSvgPath (pathString : string) : list Point.t :=
  parse_parts (JS.split_separators (JS.trim pathString)).

(** ** Coordinate mapper *)

Definition mapCoordinates (viewLayout : Layout.t) (imageSize : ImageSize.t)
    (x y width height : float) : Rect.t :=
  let scaleX := (Layout.width viewLayout / ImageSize.width imageSize)%float in
  let scaleY := (Layout.height viewLayout / ImageSize.height imageSize)%float in
  {| Rect.x := (x * scaleX)%float;
     Rect.y := (y * scaleY)%float;
     Rect.width := (width * scaleX)%float;
     Rect.height := (height * scaleY)%float |}.

(** ** Overlap selection engine *)

Definition calculateOverlapArea (wordPoints pathPoints : list Point.t) : float :=
  let pathMinX := JS.Math_min (map Point.x pathPoints) in
  let pathMaxX := JS.Math_max (map Point.x pathPoints) in
  let pathMinY := JS.Math_min (map Point.y pathPoints) in
  let pathMaxY := JS.Math_max (map Point.y pathPoints) in
  let wordMinX := JS.Math_min (map Point.x wordPoints) in
  let wordMaxX := JS.Math_max (map Point.x wordPoints) in
  let wordMinY := JS.Math_min (map Point.y wordPoints) in
  let wordMaxY := JS.Math_max (map Point.y wordPoints) in
  let overlapMinX := JS.Math_max [pathMinX; wordMinX] in
  let overlapMaxX := JS.Math_min [pathMaxX; wordMaxX] in
  let overlapMinY := JS.Math_max [pathMinY; wordMinY] in
  let overlapMaxY := JS.Math_min [pathMaxY; wordMaxY] in
  if (overlapMaxX <? overlapMinX)%float || (overlapMaxY <? overlapMinY)%float then 0%float
  else
    let overlapWidth := (overlapMaxX - overlapMinX)%float in
    let overlapHeight := (overlapMaxY - overlapMinY)%float in
    let overlapArea := (overlapWidth * overlapHeight)%float in
    let wordWidth := (wordMaxX - wordMinX)%float in
    let wordHeight := (wordMaxY - wordMinY)%float in
    let wordArea := (wordWidth * wordHeight)%float in
    (overlapArea / wordArea * 100)%float.

Definition OVERLAP_THRESHOLD : float := 40%float.

(** The frame normalization written inline in [findIntersectingBlocks] (and
    again where the highlights are drawn):
    [x = frame.left || frame.x || 0], [y = frame.top || frame.y || 0],
    [width = frame.width || (frame.right ? frame.right - x : 0)],
    [height = frame.height || (frame.bottom ? frame.bottom - y : 0)]. *)
Definition normalizeFrame (frame : Frame.t) : Rect.t :=
  let x := JS.num_or (Frame.left frame) (JS.num_or (Frame.x frame) 0%float) in
  let y := JS.num_or (Frame.top frame) (JS.num_or (Frame.y frame) 0%float) in
  let width :=
    JS.num_or (Frame.width frame)
      (match Frame.right frame with
       | Some v => if JS.truthy v then (v - x)%float else 0%float
       | None => 0%float
       end) in
  let height :=
    JS.num_or (Frame.height frame)
      (match Frame.bottom frame with
       | Some v => if JS.truthy v then (v - y)%float else 0%float
       | None => 0%float
       end) in
  {| Rect.x := x; Rect.y := y; Rect.width := width; Rect.height := height |}.

(** The four corner points of a mapped rectangle, in the order the engine
    lists them. *)
Definition wordPoints_of (mappedCoords : Rect.t) : list Point.t :=
  [ Point.mk (Rect.x mappedCoords) (Rect.y mappedCoords);
    Point.mk (Rect.x mappedCoords + Rect.width mappedCoords)%float (Rect.y mappedCoords);
    Point.mk (Rect.x mappedCoords) (Rect.y mappedCoords + Rect.height mappedCoords)%float;
    Point.mk (Rect.x mappedCoords + Rect.width mappedCoords)%float
             (Rect.y mappedCoords + Rect.height mappedCoords)%float ].

(** The overlap percentage the engine computes for one frame. *)
Definition overlapPercentage (viewLayout : Layout.t) (imageSize : ImageSize.t)
    (pathPoints : list Point.t) (frame : Frame.t) : float :=
  let r := normalizeFrame frame in
  let mappedCoords :=
    mapCoordinates viewLayout imageSize (Rect.x r) (Rect.y r) (Rect.width r) (Rect.height r) in
  calculateOverlapArea (wordPoints_of mappedCoords) pathPoints.

(** The body of the innermost [forEach] callback: [elements.push] when the
    word has a frame and overlaps enough. *)
Definition visit_element (viewLayout : Layout.t) (imageSize : ImageSize.t)
    (pathPoints : list Point.t) (blockIndex lineIndex : nat)
    (element : TextElement.t) (elementIndex : nat)
    (elements : list IntersectingElement.t) : list IntersectingElement.t :=
  match TextElement.frame element with
  | Some frame =>
      if JS.geb (overlapPercentage viewLayout imageSize pathPoints frame) OVERLAP_THRESHOLD
      then elements ++ [IntersectingElement.mk blockIndex lineIndex elementIndex]
      else elements
  | None => elements
  end.

(** The three nested [forEach] loops over blocks, lines and elements. *)
Definition collect_elements (viewLayout : Layout.t) (imageSize : ImageSize.t)
    (pathPoints : list Point.t) (ocrResult : TextRecognitionResult.t)
    : list IntersectingElement.t :=
  JS.forEach (fun block blockIndex =>
    JS.forEach (fun line lineIndex =>
      JS.forEach (visit_element viewLayout imageSize pathPoints blockIndex lineIndex)
        (TextLine.elements line))
      (TextBlock.lines block))
    (TextRecognitionResult.blocks ocrResult) [].

(** [ocrResult.blocks[b].lines?.[l].elements?.[e].text || ""]. The indices
    the engine looks up are the ones it has just collected, so they exist
    ([collect_elements_in_range]); the default is never used for them. *)
Definition element_at (ocrResult : TextRecognitionResult.t) (e : IntersectingElement.t)
    : option TextElement.t :=
  match nth_error (TextRecognitionResult.blocks ocrResult) (IntersectingElement.blockIndex e) with
  | Some block =>
      match nth_error (TextBlock.lines block) (IntersectingElement.lineIndex e) with
      | Some line => nth_error (TextLine.elements line) (IntersectingElement.elementIndex e)
      | None => None
      end
  | None => None
  end.

Definition text_at (ocrResult : TextRecognitionResult.t) (e : IntersectingElement.t) : string :=
  match element_at ocrResult e with
  | Some element => TextElement.text element
  | None => EmptyString
  end.

(** ** Selection session state

    One field per [useState] cell of the screen. *)
Record State : Type := mkState {
  currentPage : PageNumber;
  initialPage : PageNumber;
  totalPages : Z;
  isProcessing : bool;
  ocrComplete : bool;
  isDrawingEnabled : bool;
  isDrawing : bool;
  currentPath : string;
  paths : list DrawPath.t;
  ocrResult : option TextRecognitionResult.t;
  selectedText : option string;
  intersectingElements : list IntersectingElement.t;
  analyzedPages : list PageNumber;
  pageImageUri : option string;
  viewLayout : Layout.t;
  imageSize : ImageSize.t }.

(** The [set...] functions: each replaces one cell of the pending state. *)
Definition setCurrentPage (v : PageNumber) (p : State) : State :=
  {| currentPage := v; initialPage := initialPage p; totalPages := totalPages p;
     isProcessing := isProcessing p; ocrComplete := ocrComplete p;
     isDrawingEnabled := isDrawingEnabled p; isDrawing := isDrawing p;
     currentPath := currentPath p; paths := paths p; ocrResult := ocrResult p;
     selectedText := selectedText p; intersectingElements := intersectingElements p;
     analyzedPages := analyzedPages p; pageImageUri := pageImageUri p;
     viewLayout := viewLayout p; imageSize := imageSize p |}.

Definition setInitialPage (v : PageNumber) (p : State) : State :=
  {| currentPage := currentPage p; initialPage := v; totalPages := totalPages p;
     isProcessing := isProcessing p; ocrComplete := ocrComplete p;
     isDrawingEnabled := isDrawingEnabled p; isDrawing := isDrawing p;
     currentPath := currentPath p; paths := paths p; ocrResult := ocrResult p;
     selectedText := selectedText p; intersectingElements := intersectingElements p;
     analyzedPages := analyzedPages p; pageImageUri := pageImageUri p;
     viewLayout := viewLayout p; imageSize := imageSize p |}.

Definition setTotalPages (v : Z) (p : State) : State :=
  {| currentPage := currentPage p; initialPage := initialPage p; totalPages := v;
     isProcessing := isProcessing p; ocrComplete := ocrComplete p;
     isDrawingEnabled := isDrawingEnabled p; isDrawing := isDrawing p;
     currentPath := currentPath p; paths := paths p; ocrResult := ocrResult p;
     selectedText := selectedText p; intersectingElements := intersectingElements p;
     analyzedPages := analyzedPages p; pageImageUri := pageImageUri p;
     viewLayout := viewLayout p; imageSize := imageSize p |}.

Definition setIsProcessing (v : bool) (p : State) : State :=
  {| currentPage := currentPage p; initialPage := initialPage p;
     totalPages := totalPages p; isProcessing := v; ocrComplete := ocrComplete p;
     isDrawingEnabled := isDrawingEnabled p; isDrawing := isDrawing p;
     currentPath := currentPath p; paths := paths p; ocrResult := ocrResult p;
     selectedText := selectedText p; intersectingElements := intersectingElements p;
     analyzedPages := analyzedPages p; pageImageUri := pageImageUri p;
     viewLayout := viewLayout p; imageSize := imageSize p |}.

Definition setOcrComplete (v : bool) (p : State) : State :=
  {| currentPage := currentPage p; initialPage := initialPage p;
     totalPages := totalPages p; isProcessing := isProcessing p; ocrComplete := v;
     isDrawingEnabled := isDrawingEnabled p; isDrawing := isDrawing p;
     currentPath := currentPath p; paths := paths p; ocrResult := ocrResult p;
     selectedText := selectedText p; intersectingElements := intersectingElements p;
     analyzedPages := analyzedPages p; pageImageUri := pageImageUri p;
     viewLayout := viewLayout p; imageSize := imageSize p |}.

Definition setIsDrawingEnabled (v : bool) (p : State) : State :=
  {| currentPage := currentPage p; initialPage := initialPage p;
     totalPages := totalPages p; isProcessing := isProcessing p;
     ocrComplete := ocrComplete p; isDrawingEnabled := v; isDrawing := isDrawing p;
     currentPath := currentPath p; paths := paths p; ocrResult := ocrResult p;
     selectedText := selectedText p; intersectingElements := intersectingElements p;
     analyzedPages := analyzedPages p; pageImageUri := pageImageUri p;
     viewLayout := viewLayout p; imageSize := imageSize p |}.

Definition setIsDrawing (v : bool) (p : State) : State :=
  {| currentPage := currentPage p; initialPage := initialPage p;
     totalPages := totalPages p; isProcessing := isProcessing p;
     ocrComplete := ocrComplete p; isDrawingEnabled := isDrawingEnabled p; isDrawing := v;
     currentPath := currentPath p; paths := paths p; ocrResult := ocrResult p;
     selectedText := selectedText p; intersectingElements := intersectingElements p;
     analyzedPages := analyzedPages p; pageImageUri := pageImageUri p;
     viewLayout := viewLayout p; imageSize := imageSize p |}.

Definition setCurrentPath (v : string) (p : State) : State :=
  {| currentPage := currentPage p; initialPage := initialPage p;
     totalPages := totalPages p; isProcessing := isProcessing p;
     ocrComplete := ocrComplete p; isDrawingEnabled := isDrawingEnabled p;
     isDrawing := isDrawing p; currentPath := v; paths := paths p;
     ocrResult := ocrResult p; selectedText := selectedText p;
     intersectingElements := intersectingElements p; analyzedPages := analyzedPages p;
     pageImageUri := pageImageUri p; viewLayout := viewLayout p;
     imageSize := imageSize p |}.

Definition setPaths (v : list DrawPath.t) (p : State) : State :=
  {| currentPage := currentPage p; initialPage := initialPage p;
     totalPages := totalPages p; isProcessing := isProcessing p;
     ocrComplete := ocrComplete p; isDrawingEnabled := isDrawingEnabled p;
     isDrawing := isDrawing p; currentPath := currentPath p; paths := v;
     ocrResult := ocrResult p; selectedText := selectedText p;
     intersectingElements := intersectingElements p; analyzedPages := analyzedPages p;
     pageImageUri := pageImageUri p; viewLayout := viewLayout p;
     imageSize := imageSize p |}.

Definition setOcrResult (v : option TextRecognitionResult.t) (p : State) : State :=
  {| currentPage := currentPage p; initialPage := initialPage p;
     totalPages := totalPages p; isProcessing := isProcessing p;
     ocrComplete := ocrComplete p; isDrawingEnabled := isDrawingEnabled p;
     isDrawing := isDrawing p; currentPath := currentPath p; paths := paths p;
     ocrResult := v; selectedText := selectedText p;
     intersectingElements := intersectingElements p; analyzedPages := analyzedPages p;
     pageImageUri := pageImageUri p; viewLayout := viewLayout p;
     imageSize := imageSize p |}.

Definition setSelectedText (v : option string) (p : State) : State :=
  {| currentPage := currentPage p; initialPage := initialPage p;
     totalPages := totalPages p; isProcessing := isProcessing p;
     ocrComplete := ocrComplete p; isDrawingEnabled := isDrawingEnabled p;
     isDrawing := isDrawing p; currentPath := currentPath p; paths := paths p;
     ocrResult := ocrResult p; selectedText := v;
     intersectingElements := intersectingElements p; analyzedPages := analyzedPages p;
     pageImageUri := pageImageUri p; viewLayout := viewLayout p;
     imageSize := imageSize p |}.

Definition setIntersectingElements (v : list IntersectingElement.t) (p : State) : State :=
  {| currentPage := currentPage p; initialPage := initialPage p;
     totalPages := totalPages p; isProcessing := isProcessing p;
     ocrComplete := ocrComplete p; isDrawingEnabled := isDrawingEnabled p;
     isDrawing := isDrawing p; currentPath := currentPath p; paths := paths p;
     ocrResult := ocrResult p; selectedText := selectedText p; intersectingElements := v;
     analyzedPages := analyzedPages p; pageImageUri := pageImageUri p;
     viewLayout := viewLayout p; imageSize := imageSize p |}.

Definition setAnalyzedPages (v : list PageNumber) (p : State) : State :=
  {| currentPage := currentPage p; initialPage := initialPage p;
     totalPages := totalPages p; isProcessing := isProcessing p;
     ocrComplete := ocrComplete p; isDrawingEnabled := isDrawingEnabled p;
     isDrawing := isDrawing p; currentPath := currentPath p; paths := paths p;
     ocrResult := ocrResult p; selectedText := selectedText p;
     intersectingElements := intersectingElements p; analyzedPages := v;
     pageImageUri := pageImageUri p; viewLayout := viewLayout p;
     imageSize := imageSize p |}.

Definition setPageImageUri (v : option string) (p : State) : State :=
  {| currentPage := currentPage p; initialPage := initialPage p;
     totalPages := totalPages p; isProcessing := isProcessing p;
     ocrComplete := ocrComplete p; isDrawingEnabled := isDrawingEnabled p;
     isDrawing := isDrawing p; currentPath := currentPath p; paths := paths p;
     ocrResult := ocrResult p; selectedText := selectedText p;
     intersectingElements := intersectingElements p; analyzedPages := analyzedPages p;
     pageImageUri := v; viewLayout := viewLayout p; imageSize := imageSize p |}.

Definition setViewLayout (v : Layout.t) (p : State) : State :=
  {| currentPage := currentPage p; initialPage := initialPage p;
     totalPages := totalPages p; isProcessing := isProcessing p;
     ocrComplete := ocrComplete p; isDrawingEnabled := isDrawingEnabled p;
     isDrawing := isDrawing p; currentPath := currentPath p; paths := paths p;
     ocrResult := ocrResult p; selectedText := selectedText p;
     intersectingElements := intersectingElements p; analyzedPages := analyzedPages p;
     pageImageUri := pageImageUri p; viewLayout := v; imageSize := imageSize p |}.

Definition setImageSize (v : ImageSize.t) (p : State) : State :=
  {| currentPage := currentPage p; initialPage := initialPage p;
     totalPages := totalPages p; isProcessing := isProcessing p;
     ocrComplete := ocrComplete p; isDrawingEnabled := isDrawingEnabled p;
     isDrawing := isDrawing p; currentPath := currentPath p; paths := paths p;
     ocrResult := ocrResult p; selectedText := selectedText p;
     intersectingElements := intersectingElements p; analyzedPages := analyzedPages p;
     pageImageUri := pageImageUri p; viewLayout := viewLayout p; imageSize := v |}.

(** ** findIntersectingBlocks

    [s] is the render the callback closes over (it reads [ocrResult] and,
    through [mapCoordinates], [viewLayout] and [imageSize] from it); [p] is
    the pending state its [set...] calls update. *)
Definition findIntersectingBlocks (s : State) (pathString : string) (p : State) : State :=
  match ocrResult s with
  | None => p
  | Some ocr =>
      let pathPoints := parseSvgPath pathString in
      if Nat.ltb (List.length pathPoints) 2 then p
      else
        let elements := collect_elements (viewLayout s) (imageSize s) pathPoints ocr in
        let p := setIntersectingElements elements p in
        if Nat.ltb 0 (List.length elements) then
          let selectedTexts :=
            filter (fun text => Nat.ltb 0 (String.length text))
                   (map (text_at ocr) elements) in
          if Nat.ltb 0 (List.length selectedTexts)
          then setSelectedText (Some (JS.join " " selectedTexts)) p
          else p
        else p
  end.

(** ** Persistence: the key-value store behind AsyncStorage *)

Definition LAST_VIEWED_PAGE_KEY : string := "LAST_VIEWED_PAGE".
Definition PDF_FILE_PATH_KEY : string := "PDF_FILE_PATH".

Definition Storage : Type := string -> option string.

Definition getItem (key : string) (st : Storage) : option string := st key.

Definition setItem (key value : string) (st : Storage) : Storage :=
  fun k => if String.eqb k key then Some value else st k.

(** [page.toString()]. A page [Page n] is the Number value of [n]: [n]
    itself up to [2^53 - 1] in absolute value, the nearest binary64 (or an
    infinity) beyond. *)
Definition page_toString (page : PageNumber) : string :=
  match page with
  | Page n => JS.integer_Number_toString n
  | PageNaN => "NaN"
  end.

(** [parseInt(s, 10)] as a page number: the Number value of the integer
    read. Where that is an infinity, the page is the least integer of that
    sign whose Number value is the infinity. *)
Definition page_parseInt (s : string) : PageNumber :=
  match JS.parseInt10 s with
  | Some v =>
      if JS.isSafeInteger v then Page v
      else
        match JS.integer_of_Number (JS.Number_of_integer v) with
        | Some n => Page n
        | None => Page (if (v <? 0)%Z then - 2 ^ 1024 else 2 ^ 1024)
        end
  | None => PageNaN
  end.

(** The store once both [setItem] calls of [saveCurrentPageState] have
    resolved, in program order. A write that rejects (it is caught and
    logged) or that has not settled yet is not modelled: what is proved of
    the store below is proved of a completed save. *)
Definition saveCurrentPageState (page : PageNumber) (filePath : string) (st : Storage) : Storage :=
  setItem PDF_FILE_PATH_KEY filePath (setItem LAST_VIEWED_PAGE_KEY (page_toString page) st).

(** [loadLastViewedPage] for the document [pdfPath]:
    [savedPdfPath === pdfPath && lastViewedPage] guards the restoration. *)
Definition loadLastViewedPage (pdfPath : string) (st : Storage) (p : State) : State :=
  let savedPdfPath := getItem PDF_FILE_PATH_KEY st in
  let lastViewedPage := getItem LAST_VIEWED_PAGE_KEY st in
  match savedPdfPath, lastViewedPage with
  | Some saved, Some last =>
      if String.eqb saved pdfPath && Nat.ltb 0 (String.length last) then
        let page := page_parseInt last in
        setInitialPage page (setCurrentPage page p)
      else p
  | _, _ => p
  end.

(** ** Page analysis controller

    [performOCR] is an [async] function. Up to its first [await] it runs
    inside the handler that calls it; afterwards it is resumed once per
    settled promise. A suspended call is a [Cycle]. *)

Inductive Stage : Type :=
| Settling      (* awaiting the one-second timer *)
| Capturing     (* awaiting [captureRef] *)
| Measuring     (* awaiting [Image.getSize] *)
| Recognizing.  (* awaiting [TextRecognition.recognize] *)

Record Cycle : Type := mkCycle {
  cy_closure : State;   (* the render the call closed over *)
  cy_stage : Stage;
  cy_uri : string }.    (* [fullImageUri], once captured *)

(** How the awaited promise settled. *)
Inductive Outcome : Type :=
| TimerFired
| Captured (fullImageUri : string)
| CaptureFailed
| Measured (width height : float)
| MeasureFailed
| Recognized (result : option TextRecognitionResult.t)
| RecognizeFailed.

(** The [finally] block. *)
Definition performOCR_finally (p : State) : State :=
  setOcrComplete true (setIsProcessing false p).

(** The call itself, up to the first [await]: the two entry guards, the
    reset, and the check of [pdfViewRef.current] (a missing view throws, which
    runs [catch] and [finally] at once). Returns the pending state and the
    suspended call, if one was started. *)
Definition performOCR (pdfViewRef : bool) (s : State) (p : State) : State * option Cycle :=
  if includes (analyzedPages s) (currentPage s) && negb (isDrawingEnabled s) then (p, None)
  else if isProcessing s then (p, None)
  else
    let p := setIsProcessing true p in
    let p := setOcrResult None p in
    let p := setSelectedText None p in
    let p := setOcrComplete false p in
    let p := setIntersectingElements [] p in
    if negb pdfViewRef then (performOCR_finally p, None)
    else (p, Some (mkCycle s Settling EmptyString)).

(** [arr[arr.length - 1]]. *)
Definition last_item {A : Type} (l : list A) : option A :=
  nth_error l (List.length l - 1).

(** The rest of [performOCR], one [await] at a time. An outcome that is not
    the one the call is waiting for is ignored. *)
Definition resume (c : Cycle) (o : Outcome) (p : State) : State * option Cycle :=
  let s := cy_closure c in
  match cy_stage c, o with
  | Settling, TimerFired => (p, Some (mkCycle s Capturing (cy_uri c)))
  | Capturing, Captured fullImageUri =>
      (setPageImageUri (Some fullImageUri) p, Some (mkCycle s Measuring fullImageUri))
  | Capturing, CaptureFailed => (performOCR_finally p, None)
  | Measuring, Measured width height =>
      (setImageSize (ImageSize.mk width height) p, Some (mkCycle s Recognizing (cy_uri c)))
  | Measuring, MeasureFailed => (performOCR_finally p, None)
  | Recognizing, Recognized (Some result) =>
      let p := setOcrResult (Some result) p in
      let p := setAnalyzedPages (analyzedPages p ++ [currentPage s]) p in
      let pathsOnCurrentPage :=
        filter (fun path => page_eq (DrawPath.page path) (currentPage s)) (paths s) in
      let p :=
        match last_item pathsOnCurrentPage with
        | Some path => findIntersectingBlocks s (DrawPath.path path) p
        | None => p
        end in
      (performOCR_finally p, None)
  | Recognizing, Recognized None => (performOCR_finally p, None)
  | Recognizing, RecognizeFailed => (performOCR_finally p, None)
  | _, _ => (p, Some c)
  end.

(** The effect that starts an analysis when the page needs one. *)
Definition analysisEffect (pdfViewRef : bool) (s : State) : State * option Cycle :=
  if isDrawingEnabled s && negb (includes (analyzedPages s) (currentPage s))
     && negb (isProcessing s) && (0 <? totalPages s)%Z
  then performOCR pdfViewRef s s
  else (s, None).

(** ** Gesture and button handlers *)

Definition handleLayoutChange (width height x y : float) (s : State) : State :=
  setViewLayout (Layout.mk width height x y) s.

Definition toggleDrawingMode (pdfViewRef : bool) (s : State) : State * option Cycle :=
  let newDrawingEnabled := negb (isDrawingEnabled s) in
  let p := setIsDrawingEnabled newDrawingEnabled s in
  if negb newDrawingEnabled then
    let p := setIsDrawing false p in
    (setCurrentPath EmptyString p, None)
  else if newDrawingEnabled && negb (isProcessing s) then
    let p := setOcrResult None p in
    let p := setSelectedText None p in
    let p := setOcrComplete false p in
    let p := setIntersectingElements [] p in
    let p := setAnalyzedPages
               (filter (fun page => page_neq page (currentPage s)) (analyzedPages p)) p in
    performOCR pdfViewRef s p
  else (p, None).

Definition handleTouchEnd (s : State) : State :=
  if negb (isDrawingEnabled s) || negb (isDrawing s) then s
  else
    let p := setIsDrawing false s in
    let p :=
      if Nat.ltb 0 (String.length (currentPath s)) then
        let newPath := DrawPath.mk (currentPath s) (currentPage s) in
        let p :=
          setPaths
            (filter (fun path => page_neq (DrawPath.page path) (currentPage s)) (paths p)
               ++ [newPath]) p in
        match ocrComplete s, ocrResult s with
        | true, Some _ => findIntersectingBlocks s (currentPath s) p
        | _, _ => p
        end
      else p in
    setCurrentPath EmptyString p.

Definition handleTextSelection (text : string) (s : State) : State :=
  setSelectedText (Some text) s.

Definition clearAll (s : State) : State :=
  let p := setOcrResult None s in
  let p := setSelectedText None p in
  let p := setOcrComplete false p in
  let p := setPageImageUri None p in
  let p := setPaths [] p in
  let p := setCurrentPath EmptyString p in
  let p := setIntersectingElements [] p in
  setAnalyzedPages (filter (fun page => page_neq page (currentPage s)) (analyzedPages p)) p.

Definition clearCurrentDrawing (s : State) : State :=
  let p :=
    setPaths (filter (fun path => page_neq (DrawPath.page path) (currentPage s)) (paths s)) s in
  let p := setCurrentPath EmptyString p in
  let p := setIntersectingElements [] p in
  setSelectedText None p.

Definition handleCloseTextPanel (s : State) : State :=
  let p := setSelectedText None s in
  let p := setPaths [] p in
  setIntersectingElements [] p.

(** The state part of [handlePageChange]; the store is written by
    [saveCurrentPageState]. *)
Definition handlePageChange (page : PageNumber) (noOfPages : Z) (s : State) : State :=
  let p := setCurrentPage page s in
  if negb (totalPages s =? noOfPages)%Z then setTotalPages noOfPages p else p.

Section Session.

(** [Number::toString] (ECMA-262 6.1.6.1.20), which formats the touch
    coordinates inside the template literals of [handleTouchStart] and
    [handleTouchMove]. *)
Variable numberToString : float -> string.

(** The route parameter: the document being opened. *)
Variable pdfPath : string.

Definition handleTouchStart (locationX locationY : float) (s : State) : State :=
  if negb (isDrawingEnabled s) then s
  else
    let p := setIsDrawing true s in
    setCurrentPath
      ("M " ++ numberToString locationX ++ " " ++ numberToString locationY)%string p.

Definition handleTouchMove (locationX locationY : float) (s : State) : State :=
  if negb (isDrawingEnabled s) || negb (isDrawing s) then s
  else
    setCurrentPath
      (currentPath s ++ " L " ++ numberToString locationX ++ " "
         ++ numberToString locationY)%string s.

(** *** The screen as a transition system

    [World] adds to the React state what lives outside it: the store, the
    suspended [performOCR] calls, and whether [pdfViewRef.current] is set.
    Every event is handled against the latest render. *)
Record World : Type := mkWorld {
  state : State;
  storage : Storage;
  cycles : list Cycle;
  pdfViewRef : bool }.

Inductive Event : Type :=
| LayoutChange (width height x y : float)
| ViewAttached (attached : bool)
| ToggleDrawingMode
| TouchStart (locationX locationY : float)
| TouchMove (locationX locationY : float)
| TouchEnd
| TextSelection (text : string)
| ClearAll
| ClearCurrentDrawing
| CloseTextPanel
| PageChange (page : PageNumber) (noOfPages : Z)
| LoadLastViewedPage   (* both reads of the store and the restoration, at once *)
| AnalysisEffect       (* the effect may run after any render *)
| Settle (i : nat) (o : Outcome).   (* the promise cycle [i] awaits settles *)

Definition option_list {A : Type} (o : option A) : list A :=
  match o with Some a => [a] | None => [] end.

Definition with_state (w : World) (p : State) : World :=
  mkWorld p (storage w) (cycles w) (pdfViewRef w).

(** A handler that may have called [performOCR]. *)
Definition with_call (w : World) (r : State * option Cycle) : World :=
  mkWorld (fst r) (storage w) (cycles w ++ option_list (snd r)) (pdfViewRef w).

Definition handle (e : Event) (w : World) : World :=
  let s := state w in
  match e with
  | LayoutChange width height x y => with_state w (handleLayoutChange width height x y s)
  | ViewAttached attached => mkWorld s (storage w) (cycles w) attached
  | ToggleDrawingMode => with_call w (toggleDrawingMode (pdfViewRef w) s)
  | TouchStart locationX locationY => with_state w (handleTouchStart locationX locationY s)
  | TouchMove locationX locationY => with_state w (handleTouchMove locationX locationY s)
  | TouchEnd => with_state w (handleTouchEnd s)
  | TextSelection text => with_state w (handleTextSelection text s)
  | ClearAll => with_state w (clearAll s)
  | ClearCurrentDrawing => with_state w (clearCurrentDrawing s)
  | CloseTextPanel => with_state w (handleCloseTextPanel s)
  | PageChange page noOfPages =>
      mkWorld (handlePageChange page noOfPages s)
              (saveCurrentPageState page pdfPath (storage w))
              (cycles w) (pdfViewRef w)
  | LoadLastViewedPage => with_state w (loadLastViewedPage pdfPath (storage w) s)
  | AnalysisEffect => with_call w (analysisEffect (pdfViewRef w) s)
  | Settle i o =>
      match nth_error (cycles w) i with
      | Some c =>
          let r := resume c o s in
          mkWorld (fst r) (storage w)
                  (firstn i (cycles w) ++ option_list (snd r) ++ skipn (S i) (cycles w))
                  (pdfViewRef w)
      | None => w
      end
  end.

Definition run (es : list Event) (w : World) : World :=
  fold_left (fun w e => handle e w) es w.

(** The screen as first rendered, over a given store and window size. *)
Definition initialState (windowWidth windowHeight : float) : State :=
  {| currentPage := Page 1; initialPage := Page 1; totalPages := 0;
     isProcessing := false; ocrComplete := false;
     isDrawingEnabled := false; isDrawing := false;
     currentPath := EmptyString; paths := [];
     ocrResult := None; selectedText := None; intersectingElements := [];
     analyzedPages := []; pageImageUri := None;
     viewLayout := Layout.mk windowWidth windowHeight 0 0;
     imageSize := ImageSize.mk 0 0 |}.

Definition initialWorld (windowWidth windowHeight : float) (st : Storage) : World :=
  mkWorld (initialState windowWidth windowHeight) st [] false.

Definition reachable (w : World) : Prop :=
  exists windowWidth windowHeight st es,
    w = run es (initialWorld windowWidth windowHeight st).

End Session.

(** ** The specification's vocabulary

    The definitions below follow the words of the specification; the
    properties relate them to the code above. *)

(** A list with the index of each item, counting from [i]. *)
Fixpoint indexed_from {A : Type} (i : nat) (l : list A) : list (nat * A) :=
  match l with
  | [] => []
  | a :: rest => (i, a) :: indexed_from (S i) rest
  end.

(** Every word of a recognition result with its (block, line, element)
    position, in reading order: block, then line, then element. *)
Definition positions (ocr : TextRecognitionResult.t)
    : list (IntersectingElement.t * TextElement.t) :=
  flat_map (fun ib =>
    flat_map (fun il =>
      map (fun ie => (IntersectingElement.mk (fst ib) (fst il) (fst ie), snd ie))
          (indexed_from 0 (TextLine.elements (snd il))))
      (indexed_from 0 (TextBlock.lines (snd ib))))
    (indexed_from 0 (TextRecognitionResult.blocks ocr)).

(** Ascending (blockIndex, lineIndex, elementIndex) order. *)
Definition position_lt (a b : IntersectingElement.t) : Prop :=
  IntersectingElement.blockIndex a < IntersectingElement.blockIndex b
  \/ (IntersectingElement.blockIndex a = IntersectingElement.blockIndex b
      /\ (IntersectingElement.lineIndex a < IntersectingElement.lineIndex b
          \/ (IntersectingElement.lineIndex a = IntersectingElement.lineIndex b
              /\ IntersectingElement.elementIndex a < IntersectingElement.elementIndex b))).

(** An axis-aligned box. *)
Module Box.
Record t : Type := mk { minX : float; maxX : float; minY : float; maxY : float }.
End Box.

(** The bounding box of a list of points: min and max over all of them. *)
Definition boundingBox (points : list Point.t) : Box.t :=
  {| Box.minX := JS.Math_min (map Point.x points);
     Box.maxX := JS.Math_max (map Point.x points);
     Box.minY := JS.Math_min (map Point.y points);
     Box.maxY := JS.Math_max (map Point.y points) |}.

(** The axis-aligned intersection of the lasso's box and a word's box. *)
Definition box_intersection (lasso word : Box.t) : Box.t :=
  {| Box.minX := JS.Math_max [Box.minX lasso; Box.minX word];
     Box.maxX := JS.Math_min [Box.maxX lasso; Box.maxX word];
     Box.minY := JS.Math_max [Box.minY lasso; Box.minY word];
     Box.maxY := JS.Math_min [Box.maxY lasso; Box.maxY word] |}.

(** The two boxes do not intersect: on some axis the intersection ends
    before it starts. *)
Definition box_disjoint (lasso word : Box.t) : bool :=
  let i := box_intersection lasso word in
  (Box.maxX i <? Box.minX i)%float || (Box.maxY i <? Box.minY i)%float.

Definition box_area (b : Box.t) : float :=
  ((Box.maxX b - Box.minX b) * (Box.maxY b - Box.minY b))%float.

(** [(intersectionArea / wordArea) * 100], and [0] for disjoint boxes. *)
Definition overlap_percent (lasso word : Box.t) : float :=
  if box_disjoint lasso word then 0%float
  else (box_area (box_intersection lasso word) / box_area word * 100)%float.

(** The word's frame mapped to view space. *)
Definition mapped_frame (viewLayout : Layout.t) (imageSize : ImageSize.t)
    (frame : Frame.t) : Rect.t :=
  let r := normalizeFrame frame in
  mapCoordinates viewLayout imageSize (Rect.x r) (Rect.y r) (Rect.width r) (Rect.height r).

(** The selection rule for one word against a lasso. *)
Definition selects (viewLayout : Layout.t) (imageSize : ImageSize.t)
    (pathPoints : list Point.t) (element : TextElement.t) : bool :=
  match TextElement.frame element with
  | Some frame =>
      JS.geb (overlap_percent (boundingBox pathPoints)
                (boundingBox (wordPoints_of (mapped_frame viewLayout imageSize frame))))
             40%float
  | None => false
  end.

(** The two encodings of a rectangle. *)
Definition frame_ltwh (left top width height : float) : Frame.t :=
  Frame.mk (Some left) (Some top) (Some width) (Some height) None None None None.

Definition frame_ltrb (left top right bottom : float) : Frame.t :=
  Frame.mk (Some left) (Some top) None None None None (Some right) (Some bottom).

(** A number that is neither NaN nor infinite. *)
Definition finite (x : float) : Prop := PrimFloat.is_finite x = true.

(** The lasso paths drawn on page [q], as the overlay filters them
    ([path.page === currentPage]). *)
Definition paths_on (q : PageNumber) (l : list DrawPath.t) : list DrawPath.t :=
  filter (fun path => page_eq (DrawPath.page path) q) l.

Definition at_most_one_per_page (l : list DrawPath.t) : Prop :=
  forall q, List.length (paths_on q l) <= 1.

(** The suspended analysis cycles and the busy flag go together: one cycle
    while [isProcessing], none otherwise. *)
Definition one_cycle_invariant (w : World) : Prop :=
  List.length (cycles w) = if isProcessing (state w) then 1 else 0.

(** ** A worked page

    The specification's end-to-end scenario: one block, one line, the words
    "Hello" at [{x:0, y:0, w:100, h:20}] and "World" at
    [{x:200, y:0, w:100, h:20}], on a view of the size of the image. *)

Definition example_ocr : TextRecognitionResult.t :=
  TextRecognitionResult.mk "Hello World"
    [TextBlock.mk "Hello World" None
       [TextLine.mk "Hello World" None
          [TextElement.mk "Hello" (Some (frame_ltwh 0 0 100 20));
           TextElement.mk "World" (Some (frame_ltwh 200 0 100 20))]]].

Definition example_state : State :=
  setOcrComplete true
    (setImageSize (ImageSize.mk 400 800)
       (setOcrResult (Some example_ocr) (initialState 400 800))).

(** The same page with a third word whose frame has no width. *)
Definition degenerate_ocr : TextRecognitionResult.t :=
  TextRecognitionResult.mk "Hello World |"
    [TextBlock.mk "Hello World |" None
       [TextLine.mk "Hello World |" None
          [TextElement.mk "Hello" (Some (frame_ltwh 0 0 100 20));
           TextElement.mk "World" (Some (frame_ltwh 200 0 100 20));
           TextElement.mk "|" (Some (frame_ltwh 150 0 0 20))]]].

Definition degenerate_state : State := setOcrResult (Some degenerate_ocr) example_state.

(** [Number::toString] where it is simple: exact on NaN, the infinities, the
    zeros and the integers below [10^21], which are the only coordinates the
    worked session uses; a fraction is cut off. *)
Definition integer_coordinate_toString (x : float) : string :=
  match Prim2SF x with
  | S754_zero _ => "0"
  | S754_finite s m e =>
      ((if s then "-" else "") ++ JS.int_toString (Z.shiftl (Zpos m) e))%string
  | S754_infinity s => if s then "-Infinity" else "Infinity"
  | S754_nan => "NaN"
  end.

(** A worked session on the example page: the view is attached, the PDF
    reports page 1 of 3, lasso mode is switched on, the analysis runs to its
    end, and a stroke is drawn from (0, 0) to (100, 20). *)
Definition example_events : list Event :=
  [ ViewAttached true;
    PageChange (Page 1) 3;
    ToggleDrawingMode;
    Settle 0 TimerFired;
    Settle 0 (Captured "page-1.jpg");
    Settle 0 (Measured 400 800);
    Settle 0 (Recognized (Some example_ocr));
    TouchStart 0 0;
    TouchMove 100 20;
    TouchEnd ].

Definition example_world : World :=
  run integer_coordinate_toString "/a.pdf" example_events
    (initialWorld 400 800 (fun _ => None)).

(** The same session stopped while the recognizer is still running. *)
Definition busy_world : World :=
  run integer_coordinate_toString "/a.pdf" (firstn 6 example_events)
    (initialWorld 400 800 (fun _ => None)).

(** The worked page with lasso mode switched on. *)
Definition example_state_lasso : State := setIsDrawingEnabled true example_state.

(** The worked session after its first two events (view attached, page 1
    of 3 reported), and after lasso mode has then been switched on. *)
Definition attached_world : World :=
  run integer_coordinate_toString "/a.pdf" (firstn 2 example_events)
    (initialWorld 400 800 (fun _ => None)).

Definition started_world : World :=
  handle integer_coordinate_toString "/a.pdf" ToggleDrawingMode attached_world.

(** ** Strokes and the point-in-polygon helper *)

(** A non-empty string without whitespace or comma: what [Number::toString]
    produces, and what [split(/[\s,]+/)] gives back as one piece. *)
Fixpoint separator_free (t : string) : bool :=
  match t with
  | EmptyString => true
  | String c r => negb (JS.is_separator c) && separator_free r
  end.

Definition is_token (t : string) : bool :=
  Nat.ltb 0 (String.length t) && separator_free t.

(** The pieces of the path string of a stroke that starts at [start] and
    moves through [moves]: [M x y] followed by one [L x y] per move. *)
Definition stroke_tokens (numberToString : float -> string)
    (start : float * float) (moves : list (float * float)) : list string :=
  ["M"%string; numberToString (fst start); numberToString (snd start)]
  ++ flat_map (fun m => ["L"%string; numberToString (fst m); numberToString (snd m)]) moves.

(** The touch events of that stroke, delivered one render after the other:
    [handleTouchStart], then one [handleTouchMove] per move. *)
Definition draw_stroke (numberToString : float -> string)
    (start : float * float) (moves : list (float * float)) (s : State) : State :=
  fold_left (fun s m => handleTouchMove numberToString (fst m) (snd m) s) moves
            (handleTouchStart numberToString (fst start) (snd start) s).

(** The loop of [isPointInPath] from index [i] on: [prev] is
    [pathPoints[j]], the head of [pts] is [pathPoints[i]]; an edge that
    crosses the horizontal ray from [point] flips [inside]. *)
Fixpoint ray_crossings (point prev : Point.t) (pts : list Point.t) (inside : bool) : bool :=
  match pts with
  | [] => inside
  | cur :: rest =>
      let xi := Point.x cur in
      let yi := Point.y cur in
      let xj := Point.x prev in
      let yj := Point.y prev in
      let intersect :=
        xorb (Point.y point <? yi)%float (Point.y point <? yj)%float
        && (Point.x point <? (xj - xi) * (Point.y point - yi) / (yj - yi) + xi)%float in
      ray_crossings point cur rest (if intersect then negb inside else inside)
  end.

(** [isPointInPath] of the earlier revision of the screen
    ([src/unnamed/part_002]), whose [parseSvgPath] is the one above: ray
    casting against the polygon of the parsed points. *)
Definition isPointInPath (point : Point.t) (pathString : string) : bool :=
  let pathPoints := parseSvgPath pathString in
  if Nat.ltb (List.length pathPoints) 3 then false
  else
    match last_item pathPoints with
    | Some prev => ray_crossings point prev pathPoints false
    | None => false
    end.

(** ** What the render shows *)

(** The highlight rectangles drawn over the page: under
    [ocrResult && ocrComplete && imageSize.width > 0], one entry per stored
    position, [None] where the callback returns [null] because the position
    has no element or the element no frame. Both overlays (lasso mode on
    and off) draw this list. *)
Definition highlights (s : State) : list (option Rect.t) :=
  match ocrResult s with
  | Some ocr =>
      if ocrComplete s && (0 <? ImageSize.width (imageSize s))%float then
        map (fun elem =>
               match element_at ocr elem with
               | Some element =>
                   match TextElement.frame element with
                   | Some frame => Some (mapped_frame (viewLayout s) (imageSize s) frame)
                   | None => None
                   end
               | None => None
               end)
            (intersectingElements s)
      else []
  | None => []
  end.

(** The outcomes that make the awaited step of a cycle throw, or return no
    result: [catch] and [finally] run and the cycle is over. *)
Definition fails (stage : Stage) (o : Outcome) : bool :=
  match stage, o with
  | Capturing, CaptureFailed => true
  | Measuring, MeasureFailed => true
  | Recognizing, RecognizeFailed => true
  | Recognizing, Recognized None => true
  | _, _ => false
  end.

(** ** PdfUploadScreen: saving the picked document

    [handleSelectedPdf] ([src/unnamed/part_001]) is an [async] function
    around three calls of the file-system module; what it does next depends
    on how each awaited promise settles. The calls it makes, in order, are
    its trace. *)

Module DocumentPickerResponse.
Record t : Type := mk { uri : option string; name : option string }.
End DocumentPickerResponse.

Inductive Call : Type :=
| RNFS_exists (filepath : string)
| RNFS_mkdir (filepath : string)
| RNFS_copyFile (filepath destPath : string)
| navigate_PdfViewer (pdfPath : string)
| console_error (message : string)
| Alert_alert (title message : string).

(** How the awaited promises settle: [RNFS.exists] resolves to a boolean
    or rejects ([None]); [RNFS.mkdir] and [RNFS.copyFile] resolve ([true])
    or reject. *)
Record Replies : Type := mkReplies {
  exists_reply : option bool;
  mkdir_reply : bool;
  copyFile_reply : bool }.

(** [`${appFolderPath}/${document.name}`]; a [null] name is written
    ["null"]. *)
Definition destPath (DocumentDirectoryPath : string) (document : DocumentPickerResponse.t)
    : string :=
  ((DocumentDirectoryPath ++ "/pdfs") ++ "/"
   ++ match DocumentPickerResponse.name document with
      | Some name => name
      | None => "null"
      end)%string.

(** The [catch] block. *)
Definition handleSelectedPdf_catch : list Call :=
  [console_error "Error saving PDF:"; Alert_alert "Error" "Failed to save PDF document"].

Definition handleSelectedPdf (DocumentDirectoryPath : string)
    (document : DocumentPickerResponse.t) (r : Replies) : list Call :=
  let appFolderPath := (DocumentDirectoryPath ++ "/pdfs")%string in
  RNFS_exists appFolderPath ::
  match exists_reply r with
  | None => handleSelectedPdf_catch
  | Some exists_ =>
      let made := if negb exists_ then [RNFS_mkdir appFolderPath] else [] in
      if negb exists_ && negb (mkdir_reply r) then made ++ handleSelectedPdf_catch
      else
        match DocumentPickerResponse.uri document with
        | Some (String c u) =>
            let uri := String c u in
            made ++ RNFS_copyFile uri (destPath DocumentDirectoryPath document) ::
            (if copyFile_reply r
             then [navigate_PdfViewer (destPath DocumentDirectoryPath document)]
             else handleSelectedPdf_catch)
        | _ => made ++ handleSelectedPdf_catch   (* [!document.uri]: throw *)
        end
  end.

(** * Properties *)

(** ** The engine's traversal *)

Lemma indexed_from_In {A : Type} (l : list A) : forall i j a,
  In (j, a) (indexed_from i l) <-> i <= j /\ nth_error l (j - i) = Some a.
Proof.
  induction l as [|b l IH]; intros i j a; simpl.
  - split; [tauto|]. intros [_ H]. destruct (j - i); discriminate.
  - rewrite IH. split.
    + intros [H | [Hle H]].
      * inversion H; subst. split; [lia|]. now rewrite Nat.sub_diag.
      * split; [lia|]. replace (j - i) with (S (j - S i)) by lia. exact H.
    + intros [Hle H]. destruct (j - i) as [|k] eqn:E.
      * left. simpl in H. inversion H. f_equal. lia.
      * right. split; [lia|]. simpl in H. now replace (j - S i) with k by lia.
Qed.

Lemma forEach_elements vl sz pts b l (els : list TextElement.t) : forall i acc,
  JS.forEach_from (visit_element vl sz pts b l) i els acc
  = acc ++ map fst (filter (fun pe => selects vl sz pts (snd pe))
                      (map (fun ie => (IntersectingElement.mk b l (fst ie), snd ie))
                           (indexed_from i els))).
Proof.
  induction els as [|el els IH]; intros i acc; simpl.
  - now rewrite app_nil_r.
  - rewrite IH. unfold visit_element, selects at 2, overlapPercentage, mapped_frame.
    destruct (TextElement.frame el) as [f|]; [|reflexivity].
    unfold calculateOverlapArea, overlap_percent, box_disjoint, box_intersection,
      box_area, boundingBox, OVERLAP_THRESHOLD; cbn [Box.minX Box.maxX Box.minY Box.maxY].
    match goal with |- context [JS.geb ?v _] => destruct (JS.geb v 40%float) end.
    + simpl. now rewrite <- app_assoc.
    + reflexivity.
Qed.

Lemma forEach_lines vl sz pts b (lines : list TextLine.t) : forall i acc,
  JS.forEach_from
    (fun line lineIndex =>
       JS.forEach (visit_element vl sz pts b lineIndex) (TextLine.elements line))
    i lines acc
  = acc ++ map fst (filter (fun pe => selects vl sz pts (snd pe))
                      (flat_map (fun il =>
                         map (fun ie => (IntersectingElement.mk b (fst il) (fst ie), snd ie))
                             (indexed_from 0 (TextLine.elements (snd il))))
                         (indexed_from i lines))).
Proof.
  induction lines as [|line lines IH]; intros i acc; simpl.
  - now rewrite app_nil_r.
  - rewrite IH. unfold JS.forEach. rewrite forEach_elements.
    now rewrite filter_app, map_app, app_assoc.
Qed.

Lemma forEach_blocks vl sz pts (blocks : list TextBlock.t) : forall i acc,
  JS.forEach_from
    (fun block blockIndex =>
       JS.forEach (fun line lineIndex =>
         JS.forEach (visit_element vl sz pts blockIndex lineIndex) (TextLine.elements line))
         (TextBlock.lines block))
    i blocks acc
  = acc ++ map fst (filter (fun pe => selects vl sz pts (snd pe))
                      (flat_map (fun ib =>
                         flat_map (fun il =>
                           map (fun ie =>
                                  (IntersectingElement.mk (fst ib) (fst il) (fst ie), snd ie))
                               (indexed_from 0 (TextLine.elements (snd il))))
                           (indexed_from 0 (TextBlock.lines (snd ib))))
                         (indexed_from i blocks))).
Proof.
  induction blocks as [|block blocks IH]; intros i acc; simpl.
  - now rewrite app_nil_r.
  - rewrite IH. unfold JS.forEach at 1. rewrite forEach_lines.
    now rewrite filter_app, map_app, app_assoc.
Qed.

(** The nested loops collect exactly the selected words, in reading order. *)
Lemma collect_elements_positions vl sz pts ocr :
  collect_elements vl sz pts ocr
  = map fst (filter (fun pe => selects vl sz pts (snd pe)) (positions ocr)).
Proof.
  unfold collect_elements, JS.forEach at 1. now rewrite forEach_blocks.
Qed.

(** A position is listed with the word that sits there. *)
Lemma positions_In ocr pos element :
  In (pos, element) (positions ocr) <-> element_at ocr pos = Some element.
Proof.
  unfold positions, element_at. destruct pos as [b l e]; simpl. split.
  - intros H. apply in_flat_map in H. destruct H as [[b' block] [Hb H]].
    apply in_flat_map in H. destruct H as [[l' line] [Hl H]].
    apply in_map_iff in H. destruct H as [[e' el] [Heq He]].
    simpl in Heq. inversion Heq; subst.
    apply indexed_from_In in Hb, Hl, He. simpl in Hl, He.
    rewrite Nat.sub_0_r in Hb, Hl, He.
    destruct Hb as [_ ->]. destruct Hl as [_ ->]. now destruct He.
  - intros H.
    destruct (nth_error (TextRecognitionResult.blocks ocr) b) as [block|] eqn:Hb;
      [|discriminate].
    destruct (nth_error (TextBlock.lines block) l) as [line|] eqn:Hl; [|discriminate].
    apply in_flat_map. exists (b, block). split.
    { apply indexed_from_In. rewrite Nat.sub_0_r. split; [lia|assumption]. }
    apply in_flat_map. exists (l, line). split.
    { apply indexed_from_In. rewrite Nat.sub_0_r. split; [lia|assumption]. }
    apply in_map_iff. exists (e, element). split; [reflexivity|].
    apply indexed_from_In. rewrite Nat.sub_0_r. split; [lia|assumption].
Qed.

(** Membership in the collected list: the word exists and meets the rule. *)
Lemma collect_elements_In vl sz pts ocr pos :
  In pos (collect_elements vl sz pts ocr)
  <-> exists element, element_at ocr pos = Some element /\ selects vl sz pts element = true.
Proof.
  rewrite collect_elements_positions, in_map_iff. split.
  - intros [[pos' el] [Heq H]]. simpl in Heq. subst pos'.
    apply filter_In in H. destruct H as [H Hs]. exists el. split; [|exact Hs].
    now apply positions_In.
  - intros [el [H Hs]]. exists (pos, el). split; [reflexivity|].
    apply filter_In. split; [|exact Hs]. now apply positions_In.
Qed.

(** Every collected position exists in the recognition result. *)
Lemma collect_elements_in_range vl sz pts ocr pos :
  In pos (collect_elements vl sz pts ocr) -> element_at ocr pos <> None.
Proof.
  intros H. apply collect_elements_In in H. destruct H as [el [H _]]. congruence.
Qed.

(** *** Reading order *)

Lemma StronglySorted_app {A : Type} (R : A -> A -> Prop) (l1 l2 : list A) :
  StronglySorted R l1 -> StronglySorted R l2 ->
  (forall a b, In a l1 -> In b l2 -> R a b) ->
  StronglySorted R (l1 ++ l2).
Proof.
  induction l1 as [|a l1 IH]; intros H1 H2 H; simpl; [assumption|].
  inversion H1; subst. constructor.
  - apply IH; auto. intros; apply H; simpl; auto.
  - apply Forall_app. split; [assumption|].
    apply Forall_forall. intros b Hb. apply H; simpl; auto.
Qed.

Lemma StronglySorted_map_filter {A B : Type} (R : B -> B -> Prop) (f : A -> B)
    (keep : A -> bool) (l : list A) :
  StronglySorted R (map f l) -> StronglySorted R (map f (filter keep l)).
Proof.
  induction l as [|a l IH]; simpl; intros H; [constructor|].
  inversion H; subst. destruct (keep a); simpl; [|auto].
  constructor; [auto|].
  rewrite Forall_forall in *. intros b Hb. apply in_map_iff in Hb.
  destruct Hb as [a' [<- Ha']]. apply filter_In in Ha'. destruct Ha' as [Ha' _].
  match goal with Hall : forall x, In x (map f l) -> _ |- _ => apply Hall end.
  now apply in_map.
Qed.

Lemma elements_sorted b l (els : list TextElement.t) : forall i,
  StronglySorted position_lt
    (map fst (map (fun ie : nat * TextElement.t =>
                     (IntersectingElement.mk b l (fst ie), snd ie))
                  (indexed_from i els))).
Proof.
  induction els as [|el els IH]; intros i; simpl; constructor; [apply IH|].
  apply Forall_forall. intros pos H. rewrite map_map in H. apply in_map_iff in H.
  destruct H as [[j el'] [<- Hj]]. apply indexed_from_In in Hj.
  unfold position_lt; simpl. right. split; [reflexivity|]. right. split; [reflexivity|lia].
Qed.

Lemma lines_sorted b (lines : list TextLine.t) : forall i,
  StronglySorted position_lt
    (map fst (flat_map (fun il : nat * TextLine.t =>
                map (fun ie : nat * TextElement.t =>
                       (IntersectingElement.mk b (fst il) (fst ie), snd ie))
                    (indexed_from 0 (TextLine.elements (snd il))))
                (indexed_from i lines))).
Proof.
  induction lines as [|line lines IH]; intros i; simpl; [constructor|].
  rewrite map_app. apply StronglySorted_app; [apply elements_sorted|apply IH|].
  intros p q Hp Hq.
  rewrite map_map in Hp. apply in_map_iff in Hp. destruct Hp as [[e el] [<- _]].
  apply in_map_iff in Hq. destruct Hq as [[q' el'] [<- Hq]].
  apply in_flat_map in Hq. destruct Hq as [[l' line'] [Hl Hq]].
  apply in_map_iff in Hq. destruct Hq as [[e' el''] [Heq _]].
  inversion Heq; subst. apply indexed_from_In in Hl.
  unfold position_lt; simpl. right. split; [reflexivity|]. left. lia.
Qed.

Lemma blocks_sorted (blocks : list TextBlock.t) : forall i,
  StronglySorted position_lt
    (map fst (flat_map (fun ib : nat * TextBlock.t =>
                flat_map (fun il : nat * TextLine.t =>
                  map (fun ie : nat * TextElement.t =>
                         (IntersectingElement.mk (fst ib) (fst il) (fst ie), snd ie))
                      (indexed_from 0 (TextLine.elements (snd il))))
                  (indexed_from 0 (TextBlock.lines (snd ib))))
                (indexed_from i blocks))).
Proof.
  induction blocks as [|block blocks IH]; intros i; simpl; [constructor|].
  rewrite map_app. apply StronglySorted_app; [apply lines_sorted|apply IH|].
  intros p q Hp Hq.
  apply in_map_iff in Hp. destruct Hp as [[p' el] [<- Hp]].
  apply in_flat_map in Hp. destruct Hp as [[l line] [_ Hp]].
  apply in_map_iff in Hp. destruct Hp as [[e el0] [Heq _]]. inversion Heq; subst.
  apply in_map_iff in Hq. destruct Hq as [[q' el'] [<- Hq]].
  apply in_flat_map in Hq. destruct Hq as [[b' block'] [Hb Hq]].
  apply in_flat_map in Hq. destruct Hq as [[l' line'] [_ Hq]].
  apply in_map_iff in Hq. destruct Hq as [[e' el''] [Heq' _]].
  inversion Heq'; subst. apply indexed_from_In in Hb.
  unfold position_lt; simpl. left. lia.
Qed.

Lemma collect_elements_sorted vl sz pts ocr :
  StronglySorted position_lt (collect_elements vl sz pts ocr).
Proof.
  rewrite collect_elements_positions. apply StronglySorted_map_filter.
  apply blocks_sorted.
Qed.

(** ** Binary64 facts

    What the engine's arithmetic needs, derived from the specification of
    the primitive floats ([FloatAxioms]) over [SpecFloat]. *)

Section Binary64.

Local Open Scope float_scope.

(** *** Order *)
Ltac sf_cases :=
  repeat match goal with
  | s : bool |- _ => destruct s
  end; cbn; try reflexivity; try discriminate; try congruence.

Ltac cmp_specs :=
  repeat match goal with
  | |- context [Z.compare ?a ?b] => destruct (Z.compare_spec a b)
  | H : context [Z.compare ?a ?b] |- _ => destruct (Z.compare_spec a b)
  | |- context [Pos.compare_cont Eq ?a ?b] => change (Pos.compare_cont Eq a b) with (Pos.compare a b); destruct (Pos.compare_spec a b)
  | H : context [Pos.compare_cont Eq ?a ?b] |- _ => change (Pos.compare_cont Eq a b) with (Pos.compare a b) in H; destruct (Pos.compare_spec a b)
  end; cbn in *; try reflexivity; try discriminate; try lia.

Lemma SFltb_trans x y z : SFltb x y = true -> SFltb y z = true -> SFltb x z = true.
Proof.
  unfold SFltb.
  destruct x as [sx|sx| |sx mx ex], y as [sy|sy| |sy my ey], z as [sz|sz| |sz mz ez];
    cbn; try discriminate; sf_cases; intros; cmp_specs.
Qed.

Lemma SFltb_asym x y : SFltb x y = true -> SFltb y x = false.
Proof.
  unfold SFltb.
  destruct x as [sx|sx| |sx mx ex], y as [sy|sy| |sy my ey];
    cbn; try discriminate; sf_cases; intros; cmp_specs.
Qed.

Lemma SFleb_SFltb x y : SFleb x y = true <-> (SFltb y x = false /\ x <> S754_nan /\ y <> S754_nan).
Proof.
  unfold SFltb, SFleb.
  destruct x as [sx|sx| |sx mx ex], y as [sy|sy| |sy my ey];
    cbn; sf_cases; try (split; [intros; repeat split; congruence| intros (?&?&?); congruence]);
    cmp_specs; try (split; [intros; repeat split; congruence| intros (?&?&?); congruence]).
Qed.


Lemma SFcompare_refl x : x <> S754_nan -> SFcompare x x = Some Eq.
Proof.
  destruct x as [s|s| |s m e]; cbn; try congruence; intros _; sf_cases;
    rewrite Z.compare_refl; change (Pos.compare_cont Eq m m) with (Pos.compare m m);
    now rewrite Pos.compare_refl.
Qed.

Lemma is_nan_spec x : is_nan x = true <-> Prim2SF x = S754_nan.
Proof.
  unfold is_nan. rewrite FloatAxioms.eqb_spec. unfold SFeqb. split.
  - destruct (Prim2SF x) eqn:E; try reflexivity;
      rewrite SFcompare_refl by discriminate; discriminate.
  - intros ->. reflexivity.
Qed.

Lemma is_nan_false_spec x : is_nan x = false <-> Prim2SF x <> S754_nan.
Proof.
  rewrite <- is_nan_spec. destruct (is_nan x); split; congruence.
Qed.

Lemma is_zero_spec x : is_zero x = true <-> exists s, Prim2SF x = S754_zero s.
Proof.
  unfold is_zero. rewrite FloatAxioms.eqb_spec. change (Prim2SF zero) with (S754_zero false).
  unfold SFeqb. destruct (Prim2SF x) as [s|s| |s m e]; cbn; split;
    try discriminate; try (intros [? ?]; discriminate); eauto;
    destruct s; discriminate.
Qed.

Lemma falsy_spec x :
  JS.truthy x = false <-> (exists s, Prim2SF x = S754_zero s) \/ Prim2SF x = S754_nan.
Proof.
  unfold JS.truthy. rewrite negb_false_iff, orb_true_iff, is_nan_spec, is_zero_spec. tauto.
Qed.

(** The same order, on the primitive floats. *)
Lemma ltb_trans a b c : (a <? b) = true -> (b <? c) = true -> (a <? c) = true.
Proof. rewrite !ltb_spec. apply SFltb_trans. Qed.

Lemma ltb_asym a b : (a <? b) = true -> (b <? a) = false.
Proof. rewrite !ltb_spec. apply SFltb_asym. Qed.

Lemma ltb_irrefl a : (a <? a) = false.
Proof. destruct (a <? a) eqn:E; [|reflexivity]. pose proof (ltb_asym _ _ E). congruence. Qed.

Lemma SF_total x y : x <> S754_nan -> y <> S754_nan ->
  SFltb x y = true \/ SFeqb x y = true \/ SFltb y x = true.
Proof.
  unfold SFltb, SFeqb.
  destruct x as [sx|sx| |sx mx ex], y as [sy|sy| |sy my ey];
    cbn; try congruence; intros _ _; sf_cases; auto; cmp_specs; auto.
Qed.

Lemma ltb_total a b : is_nan a = false -> is_nan b = false ->
  (a <? b) = true \/ (a =? b) = true \/ (b <? a) = true.
Proof.
  rewrite !is_nan_false_spec, !ltb_spec, FloatAxioms.eqb_spec. apply SF_total.
Qed.

Lemma SFeqb_ltb_l x y z : SFeqb x y = true -> SFltb x z = SFltb y z.
Proof.
  unfold SFltb, SFeqb.
  destruct x as [sx|sx| |sx mx ex], y as [sy|sy| |sy my ey], z as [sz|sz| |sz mz ez];
    cbn; try discriminate; sf_cases; intros; cmp_specs; subst; cmp_specs.
Qed.

Lemma SFeqb_ltb_r x y z : SFeqb x y = true -> SFltb z x = SFltb z y.
Proof.
  unfold SFltb, SFeqb.
  destruct x as [sx|sx| |sx mx ex], y as [sy|sy| |sy my ey], z as [sz|sz| |sz mz ez];
    cbn; try discriminate; sf_cases; intros; cmp_specs; subst; cmp_specs.
Qed.

Lemma eqb_ltb_l a b c : (a =? b) = true -> (a <? c) = (b <? c).
Proof. rewrite FloatAxioms.eqb_spec, !ltb_spec. apply SFeqb_ltb_l. Qed.

Lemma eqb_ltb_r a b c : (a =? b) = true -> (c <? a) = (c <? b).
Proof. rewrite FloatAxioms.eqb_spec, !ltb_spec. apply SFeqb_ltb_r. Qed.

Lemma SFeqb_sym x y : SFeqb x y = true -> SFeqb y x = true.
Proof.
  unfold SFeqb.
  destruct x as [sx|sx| |sx mx ex], y as [sy|sy| |sy my ey];
    cbn; try discriminate; sf_cases; intros; cmp_specs; subst; cmp_specs.
Qed.

Lemma SFeqb_trans x y z : SFeqb x y = true -> SFeqb y z = true -> SFeqb x z = true.
Proof.
  unfold SFeqb.
  destruct x as [sx|sx| |sx mx ex], y as [sy|sy| |sy my ey], z as [sz|sz| |sz mz ez];
    cbn; try discriminate; sf_cases; intros; cmp_specs; subst; cmp_specs.
Qed.

Lemma eqb_sym a b : (a =? b) = true -> (b =? a) = true.
Proof. rewrite !FloatAxioms.eqb_spec. apply SFeqb_sym. Qed.

Lemma eqb_trans a b c : (a =? b) = true -> (b =? c) = true -> (a =? c) = true.
Proof. rewrite !FloatAxioms.eqb_spec. apply SFeqb_trans. Qed.

Lemma eqb_not_nan a b : (a =? b) = true -> is_nan a = false /\ is_nan b = false.
Proof.
  rewrite FloatAxioms.eqb_spec, !is_nan_false_spec. unfold SFeqb.
  destruct (Prim2SF a), (Prim2SF b); cbn; try discriminate; split; discriminate.
Qed.

Lemma ltb_not_nan a b : (a <? b) = true -> is_nan a = false /\ is_nan b = false.
Proof.
  rewrite ltb_spec, !is_nan_false_spec. unfold SFltb.
  destruct (Prim2SF a), (Prim2SF b); cbn; try discriminate; split; discriminate.
Qed.

Lemma eqb_refl a : is_nan a = false -> (a =? a) = true.
Proof. unfold is_nan. now rewrite negb_false_iff. Qed.

Lemma geb_nan a b : is_nan a = true -> JS.geb a b = false.
Proof.
  unfold JS.geb. rewrite is_nan_spec, leb_spec. intros ->. unfold SFleb.
  now destruct (Prim2SF b).
Qed.

Lemma ltb_geb a b : (a <? b) = true -> JS.geb a b = false.
Proof.
  unfold JS.geb. rewrite ltb_spec, leb_spec. intros H.
  destruct (SFleb (Prim2SF b) (Prim2SF a)) eqn:E; [|reflexivity].
  apply SFleb_SFltb in E. destruct E as [E _]. congruence.
Qed.

(** *** Arithmetic on zeros and NaN *)
Lemma SFeqb_finite sx mx ex sy my ey :
  SFeqb (S754_finite sx mx ex) (S754_finite sy my ey) = true ->
  sx = sy /\ mx = my /\ ex = ey.
Proof.
  unfold SFeqb. cbn. sf_cases; intros; cmp_specs; auto.
Qed.

Lemma sub_eqb_falsy a b : (a =? b) = true -> JS.truthy (a - b) = false.
Proof.
  rewrite FloatAxioms.eqb_spec, falsy_spec, sub_spec. unfold SF64sub.
  destruct (Prim2SF a) as [sx|sx| |sx mx ex], (Prim2SF b) as [sy|sy| |sy my ey];
    try (intros H; apply SFeqb_finite in H; destruct H as (-> & -> & ->);
         unfold SFsub; rewrite Z.sub_diag; cbn; eauto);
    unfold SFeqb; cbn; try discriminate; sf_cases; eauto.
Qed.

Lemma sub_nan_l a b : is_nan a = true -> is_nan (a - b) = true.
Proof. rewrite !is_nan_spec, sub_spec. intros ->. reflexivity. Qed.

Lemma sub_nan_r a b : is_nan b = true -> is_nan (a - b) = true.
Proof. rewrite !is_nan_spec, sub_spec. intros ->. now destruct (Prim2SF a). Qed.

Lemma mul_falsy_l a b : JS.truthy a = false -> JS.truthy (a * b) = false.
Proof.
  rewrite !falsy_spec, mul_spec. unfold SF64mul.
  intros [[s ->] | ->]; destruct (Prim2SF b); cbn; eauto.
Qed.

Lemma mul_falsy_r a b : JS.truthy b = false -> JS.truthy (a * b) = false.
Proof.
  rewrite !falsy_spec, mul_spec. unfold SF64mul.
  intros [[s ->] | ->]; destruct (Prim2SF a); cbn; eauto.
Qed.

Lemma div_falsy a b : JS.truthy a = false -> JS.truthy b = false -> is_nan (a / b) = true.
Proof.
  rewrite !falsy_spec, is_nan_spec, div_spec. unfold SF64div.
  intros [[s ->] | ->] [[s' ->] | ->]; reflexivity.
Qed.

Lemma mul_nan_l a b : is_nan a = true -> is_nan (a * b) = true.
Proof. rewrite !is_nan_spec, mul_spec. intros ->. reflexivity. Qed.

Lemma add_zero_r x w : is_zero w = true -> is_nan x = false -> (x + w =? x) = true.
Proof.
  rewrite is_zero_spec, is_nan_false_spec, FloatAxioms.eqb_spec, add_spec.
  unfold SF64add. intros [s ->] H. unfold SFeqb.
  destruct (Prim2SF x) as [sx|sx| |sx mx ex]; try congruence; cbn; sf_cases;
    rewrite Z.compare_refl; change (Pos.compare_cont Eq mx mx) with (Pos.compare mx mx);
    now rewrite Pos.compare_refl.
Qed.

Lemma add_nan_l x w : is_nan x = true -> is_nan (x + w) = true.
Proof. rewrite !is_nan_spec, add_spec. intros ->. reflexivity. Qed.

Lemma nan_falsy x : is_nan x = true -> JS.truthy x = false.
Proof. unfold JS.truthy. now intros ->. Qed.

Lemma ltb_infinity_l x : (infinity <? x) = false.
Proof.
  rewrite ltb_spec. change (Prim2SF infinity) with (S754_infinity false).
  unfold SFltb. now destruct (Prim2SF x) as [s|[|]| |s m e].
Qed.

Lemma ltb_neg_infinity_r x : (x <? neg_infinity) = false.
Proof.
  rewrite ltb_spec. change (Prim2SF neg_infinity) with (S754_infinity true).
  unfold SFltb. now destruct (Prim2SF x) as [[|]|[|]| |[|] m e].
Qed.

(** *** [Math.min] and [Math.max] *)
Lemma min_from_nan l : forall lo,
  Exists (fun n => is_nan n = true) l -> JS.min_from lo l = nan.
Proof.
  induction l as [|n l IH]; intros lo H; [inversion H|]. simpl.
  destruct (is_nan n) eqn:En; [reflexivity|].
  inversion H; subst; [congruence|].
  destruct (JS.is_neg_zero n && JS.is_pos_zero lo); [now apply IH|].
  destruct (n <? lo); now apply IH.
Qed.

Lemma max_from_nan l : forall hi,
  Exists (fun n => is_nan n = true) l -> JS.max_from hi l = nan.
Proof.
  induction l as [|n l IH]; intros hi H; [inversion H|]. simpl.
  destruct (is_nan n) eqn:En; [reflexivity|].
  inversion H; subst; [congruence|].
  destruct (JS.is_pos_zero n && JS.is_neg_zero hi); [now apply IH|].
  destruct (hi <? n); now apply IH.
Qed.

Lemma min_from_sound l : forall lo,
  JS.min_from lo l = lo \/ In (JS.min_from lo l) l
  \/ Exists (fun n => is_nan n = true) l.
Proof.
  induction l as [|n l IH]; intros lo; simpl; [auto|].
  destruct (is_nan n) eqn:En; [right; right; now constructor|].
  assert (Hn : JS.min_from n l = lo \/ (n = JS.min_from n l \/ In (JS.min_from n l) l)
               \/ Exists (fun n => is_nan n = true) (n :: l)).
  { destruct (IH n) as [H | [H | H]]; auto. }
  assert (Hlo : JS.min_from lo l = lo \/ (n = JS.min_from lo l \/ In (JS.min_from lo l) l)
               \/ Exists (fun n => is_nan n = true) (n :: l)).
  { destruct (IH lo) as [H | [H | H]]; auto. }
  destruct (JS.is_neg_zero n && JS.is_pos_zero lo); [exact Hn|].
  destruct (n <? lo); assumption.
Qed.

Lemma max_from_sound l : forall hi,
  JS.max_from hi l = hi \/ In (JS.max_from hi l) l
  \/ Exists (fun n => is_nan n = true) l.
Proof.
  induction l as [|n l IH]; intros hi; simpl; [auto|].
  destruct (is_nan n) eqn:En; [right; right; now constructor|].
  assert (Hn : JS.max_from n l = hi \/ (n = JS.max_from n l \/ In (JS.max_from n l) l)
               \/ Exists (fun n => is_nan n = true) (n :: l)).
  { destruct (IH n) as [H | [H | H]]; auto. }
  assert (Hhi : JS.max_from hi l = hi \/ (n = JS.max_from hi l \/ In (JS.max_from hi l) l)
               \/ Exists (fun n => is_nan n = true) (n :: l)).
  { destruct (IH hi) as [H | [H | H]]; auto. }
  destruct (JS.is_pos_zero n && JS.is_neg_zero hi); [exact Hn|].
  destruct (hi <? n); assumption.
Qed.

Lemma is_neg_zero_is_zero x : JS.is_neg_zero x = true -> is_zero x = true.
Proof.
  unfold JS.is_neg_zero. rewrite classify_spec, is_zero_spec. unfold SF64classify, SFclassify.
  destruct (Prim2SF x) as [[|]|[|]| |[|] m e]; try discriminate; eauto;
    destruct (Z.eqb _ _); discriminate.
Qed.

Lemma is_pos_zero_is_zero x : JS.is_pos_zero x = true -> is_zero x = true.
Proof.
  unfold JS.is_pos_zero. rewrite classify_spec, is_zero_spec. unfold SF64classify, SFclassify.
  destruct (Prim2SF x) as [[|]|[|]| |[|] m e]; try discriminate; eauto;
    destruct (Z.eqb _ _); discriminate.
Qed.

Lemma zeros_eqb x y : is_zero x = true -> is_zero y = true -> (x =? y) = true.
Proof.
  intros Hx Hy. apply eqb_trans with zero; [exact Hx|]. apply eqb_sym. exact Hy.
Qed.

(** [¬ (a < b)] for numbers behaves as [b <= a]. *)
Lemma not_ltb_trans a b c :
  is_nan a = false -> is_nan b = false -> is_nan c = false ->
  (a <? b) = false -> (b <? c) = false -> (a <? c) = false.
Proof.
  intros Ha Hb Hc Hab Hbc. destruct (a <? c) eqn:Hac; [|reflexivity].
  destruct (ltb_total b a Hb Ha) as [H | [H | H]].
  - pose proof (ltb_trans _ _ _ H Hac). congruence.
  - rewrite (eqb_ltb_l _ _ c H) in Hbc. congruence.
  - congruence.
Qed.

Lemma min_from_lower l : forall lo,
  is_nan lo = false -> is_nan (JS.min_from lo l) = false ->
  (lo <? JS.min_from lo l) = false
  /\ Forall (fun n => (n <? JS.min_from lo l) = false) l.
Proof.
  induction l as [|n l IH]; intros lo Hlo Hr; simpl in *.
  - split; [apply ltb_irrefl|constructor].
  - destruct (is_nan n) eqn:En; [discriminate|].
    destruct (JS.is_neg_zero n && JS.is_pos_zero lo) eqn:Ez.
    + apply andb_true_iff in Ez. destruct Ez as [Ez1 Ez2].
      destruct (IH n En Hr) as [H1 H2]. repeat split; auto.
      rewrite (eqb_ltb_l lo n); [exact H1|].
      apply zeros_eqb; [now apply is_pos_zero_is_zero|now apply is_neg_zero_is_zero].
    + destruct (n <? lo) eqn:El.
      * destruct (IH n En Hr) as [H1 H2]. repeat split; auto.
        destruct (lo <? JS.min_from n l) eqn:E; [|reflexivity].
        pose proof (ltb_trans _ _ _ El E). congruence.
      * destruct (IH lo Hlo Hr) as [H1 H2]. repeat split; auto. constructor; [|exact H2].
        now apply not_ltb_trans with lo.
Qed.

Lemma max_from_upper l : forall hi,
  is_nan hi = false -> is_nan (JS.max_from hi l) = false ->
  (JS.max_from hi l <? hi) = false
  /\ Forall (fun n => (JS.max_from hi l <? n) = false) l.
Proof.
  induction l as [|n l IH]; intros hi Hhi Hr; simpl in *.
  - split; [apply ltb_irrefl|constructor].
  - destruct (is_nan n) eqn:En; [discriminate|].
    destruct (JS.is_pos_zero n && JS.is_neg_zero hi) eqn:Ez.
    + apply andb_true_iff in Ez. destruct Ez as [Ez1 Ez2].
      destruct (IH n En Hr) as [H1 H2]. repeat split; auto.
      rewrite (eqb_ltb_r hi n); [exact H1|].
      apply zeros_eqb; [now apply is_neg_zero_is_zero|now apply is_pos_zero_is_zero].
    + destruct (hi <? n) eqn:El.
      * destruct (IH n En Hr) as [H1 H2]. repeat split; auto.
        destruct (JS.max_from n l <? hi) eqn:E; [|reflexivity].
        pose proof (ltb_trans _ _ _ E El). congruence.
      * destruct (IH hi Hhi Hr) as [H1 H2]. repeat split; auto. constructor; [|exact H2].
        now apply not_ltb_trans with hi.
Qed.

Lemma Math_min_all_eqb x l :
  l <> [] -> Forall (fun v => (v =? x) = true) l -> (JS.Math_min l =? x) = true.
Proof.
  intros Hne Hall. unfold JS.Math_min.
  assert (Hnn : ~ Exists (fun n => is_nan n = true) l).
  { intros H. apply Exists_exists in H. destruct H as [n [Hin Hn]].
    rewrite Forall_forall in Hall. apply Hall, eqb_not_nan in Hin. destruct Hin. congruence. }
  destruct (min_from_sound l infinity) as [H | [H | H]]; [| |contradiction].
  - destruct l as [|v l]; [congruence|]. inversion Hall; subst.
    assert (Hr : is_nan (JS.min_from infinity (v :: l)) = false) by now rewrite H.
    destruct (min_from_lower (v :: l) infinity eq_refl Hr) as [_ Hlow].
    inversion Hlow; subst. rewrite H in *.
    match goal with Hv : (v =? x) = true |- _ => destruct (eqb_not_nan _ _ Hv) as [Hv1 _] end.
    destruct (ltb_total v infinity Hv1 eq_refl) as [Hc | [Hc | Hc]].
    + congruence.
    + apply eqb_trans with v; [now apply eqb_sym|assumption].
    + rewrite ltb_infinity_l in Hc. discriminate.
  - rewrite Forall_forall in Hall. now apply Hall.
Qed.

Lemma Math_max_all_eqb x l :
  l <> [] -> Forall (fun v => (v =? x) = true) l -> (JS.Math_max l =? x) = true.
Proof.
  intros Hne Hall. unfold JS.Math_max.
  assert (Hnn : ~ Exists (fun n => is_nan n = true) l).
  { intros H. apply Exists_exists in H. destruct H as [n [Hin Hn]].
    rewrite Forall_forall in Hall. apply Hall, eqb_not_nan in Hin. destruct Hin. congruence. }
  destruct (max_from_sound l neg_infinity) as [H | [H | H]]; [| |contradiction].
  - destruct l as [|v l]; [congruence|]. inversion Hall; subst.
    assert (Hr : is_nan (JS.max_from neg_infinity (v :: l)) = false) by now rewrite H.
    destruct (max_from_upper (v :: l) neg_infinity eq_refl Hr) as [_ Hup].
    inversion Hup; subst. rewrite H in *.
    match goal with Hv : (v =? x) = true |- _ => destruct (eqb_not_nan _ _ Hv) as [Hv1 _] end.
    destruct (ltb_total neg_infinity v eq_refl Hv1) as [Hc | [Hc | Hc]].
    + congruence.
    + apply eqb_trans with v; assumption.
    + rewrite ltb_neg_infinity_r in Hc. discriminate.
  - rewrite Forall_forall in Hall. now apply Hall.
Qed.

(** One axis of a word whose mapped extent [w] on that axis is zero: the
    word's own extent and, when the boxes are not disjoint on this axis, the
    extent of the intersection are both zero or NaN. *)
Lemma degenerate_axis (a w : float) (l : list float) (P Q : float) :
  is_zero w = true -> l <> [] -> Forall (fun v => v = a \/ v = a + w) l ->
  let wm := JS.Math_min l in
  let WM := JS.Math_max l in
  let oMin := JS.Math_max [P; wm] in
  let oMax := JS.Math_min [Q; WM] in
  JS.truthy (WM - wm) = false
  /\ ((oMax <? oMin) = false -> JS.truthy (oMax - oMin) = false).
Proof.
  intros Hw Hne Hl wm WM oMin oMax.
  destruct (is_nan a) eqn:Ha.
  - assert (Hex : Exists (fun n => is_nan n = true) l).
    { destruct l as [|v l]; [congruence|]. constructor.
      inversion Hl; subst.
      match goal with Hv : v = a \/ v = a + w |- _ => destruct Hv as [-> | ->] end;
        [assumption|now apply add_nan_l]. }
    assert (Hwm : wm = nan) by now apply min_from_nan.
    assert (HoMin : oMin = nan).
    { apply max_from_nan. apply Exists_cons_tl. constructor. now rewrite Hwm. }
    split.
    + apply nan_falsy, sub_nan_r. now rewrite Hwm.
    + intros _. apply nan_falsy, sub_nan_r. now rewrite HoMin.
  - assert (Hall : Forall (fun v => (v =? a) = true) l).
    { eapply Forall_impl; [|exact Hl]. intros v [-> | ->];
        [now apply eqb_refl|now apply add_zero_r]. }
    assert (Hwm : (wm =? a) = true) by now apply Math_min_all_eqb.
    assert (HWM : (WM =? a) = true) by now apply Math_max_all_eqb.
    split.
    + apply sub_eqb_falsy. apply eqb_trans with a; [assumption|now apply eqb_sym].
    + intros Hd.
      destruct (is_nan oMax) eqn:EM; [now apply nan_falsy, sub_nan_l|].
      destruct (is_nan oMin) eqn:Em; [now apply nan_falsy, sub_nan_r|].
      destruct (max_from_upper [P; wm] neg_infinity eq_refl Em) as [_ Hup].
      destruct (min_from_lower [Q; WM] infinity eq_refl EM) as [_ Hlow].
      pose proof (Forall_inv (Forall_inv_tail Hup)) as Hup1.
      pose proof (Forall_inv (Forall_inv_tail Hlow)) as Hlow1.
      change (JS.max_from neg_infinity [P; wm]) with oMin in Hup1.
      change (JS.min_from infinity [Q; WM]) with oMax in Hlow1.
      cbv beta in Hup1, Hlow1.
      rewrite (eqb_ltb_r _ _ oMin Hwm) in Hup1.
      rewrite (eqb_ltb_l _ _ oMax HWM) in Hlow1.
      apply sub_eqb_falsy.
      destruct (ltb_total oMax oMin EM Em) as [Hc | [Hc | Hc]]; [congruence|assumption|].
      exfalso.
      destruct (ltb_total a oMin Ha Em) as [Hc' | [Hc' | Hc']].
      * pose proof (ltb_trans _ _ _ Hc' Hc). congruence.
      * rewrite (eqb_ltb_l _ _ oMax Hc') in Hlow1. congruence.
      * congruence.
Qed.

(** For a frame whose mapped width or height is zero the engine computes
    [0] (disjoint boxes) or NaN (a zero or NaN area divided by a zero or NaN
    area). *)
Lemma degenerate_frame_percentage vl sz pts frame :
  is_zero (Rect.width (mapped_frame vl sz frame)) = true
  \/ is_zero (Rect.height (mapped_frame vl sz frame)) = true ->
  overlapPercentage vl sz pts frame = 0
  \/ is_nan (overlapPercentage vl sz pts frame) = true.
Proof.
  intros Hz. unfold overlapPercentage. fold (mapped_frame vl sz frame).
  set (r := mapped_frame vl sz frame) in *.
  unfold calculateOverlapArea, wordPoints_of. cbn [map Point.x Point.y].
  set (xs := [Rect.x r; Rect.x r + Rect.width r; Rect.x r; Rect.x r + Rect.width r]).
  set (ys := [Rect.y r; Rect.y r; Rect.y r + Rect.height r; Rect.y r + Rect.height r]).
  match goal with |- (if ?c then _ else _) = _ \/ _ => destruct c eqn:Hd end;
    [left; reflexivity|right].
  apply orb_false_iff in Hd. destruct Hd as [Hdx Hdy].
  apply mul_nan_l.
  destruct Hz as [Hz | Hz].
  - destruct (degenerate_axis (Rect.x r) (Rect.width r) xs
                (JS.Math_min (map Point.x pts)) (JS.Math_max (map Point.x pts)) Hz)
      as [Hw Ho];
      [discriminate | repeat (apply Forall_cons; [auto|]); apply Forall_nil |].
    apply div_falsy; [apply mul_falsy_l; now apply Ho | now apply mul_falsy_l].
  - destruct (degenerate_axis (Rect.y r) (Rect.height r) ys
                (JS.Math_min (map Point.y pts)) (JS.Math_max (map Point.y pts)) Hz)
      as [Hw Ho];
      [discriminate | repeat (apply Forall_cons; [auto|]); apply Forall_nil |].
    apply div_falsy; [apply mul_falsy_r; now apply Ho | now apply mul_falsy_r].
Qed.

Lemma degenerate_frame_below_threshold vl sz pts frame :
  is_zero (Rect.width (mapped_frame vl sz frame)) = true
  \/ is_zero (Rect.height (mapped_frame vl sz frame)) = true ->
  JS.geb (overlapPercentage vl sz pts frame) OVERLAP_THRESHOLD = false.
Proof.
  intros Hz. destruct (degenerate_frame_percentage vl sz pts frame Hz) as [-> | H].
  - reflexivity.
  - now apply geb_nan.
Qed.

(** *** Exact results *)
Lemma iter_pos_nat {A : Type} (f : A -> A) (p : positive) : forall x,
  iter_pos f p x = Nat.iter (Pos.to_nat p) f x.
Proof.
  induction p as [p IH|p IH|]; intros x; cbn [iter_pos].
  - rewrite !IH, Pos2Nat.inj_xI. rewrite <- Nat.iter_add, <- Nat.iter_succ_r.
    f_equal. lia.
  - rewrite !IH, Pos2Nat.inj_xO. rewrite <- Nat.iter_add. f_equal. lia.
  - reflexivity.
Qed.

Lemma shr_1_double m : 
  shr_1 (Build_shr_record (Zpos (xO m)) false false) = Build_shr_record (Zpos m) false false.
Proof. reflexivity. Qed.

Lemma shr_doubled (n : nat) : forall m,
  Nat.iter n shr_1 (Build_shr_record (Zpos (Nat.iter n xO m)) false false)
  = Build_shr_record (Zpos m) false false.
Proof.
  induction n as [|n IH]; intros m; [reflexivity|].
  rewrite Nat.iter_succ_r. simpl. apply IH.
Qed.

Lemma digits2_pos_doubled (n : nat) m :
  Zpos (digits2_pos (Nat.iter n xO m)) = (Zpos (digits2_pos m) + Z.of_nat n)%Z.
Proof.
  induction n as [|n IH]; [simpl; lia|].
  rewrite Nat.iter_succ. cbn [digits2_pos]. rewrite Pos2Z.inj_succ, IH. lia.
Qed.

(** A product that is exactly representable rounds to itself (or overflows). *)
Lemma binary_round_aux_exact s m e (n : nat) :
  canonical_mantissa prec emax m e = true ->
  binary_round_aux prec emax s (Zpos (Nat.iter n xO m)) (e - Z.of_nat n) loc_Exact
  = if (e <=? emax - prec)%Z then S754_finite s m e else S754_infinity s.
Proof.
  intros Hc. unfold canonical_mantissa in Hc. apply Z.eqb_eq in Hc.
  unfold binary_round_aux.
  assert (H1 : shr_fexp prec emax (Zpos (Nat.iter n xO m)) (e - Z.of_nat n) loc_Exact
               = (Build_shr_record (Zpos m) false false, e)).
  { unfold shr_fexp. cbn [Zdigits2]. rewrite digits2_pos_doubled.
    replace (Zpos (digits2_pos m) + Z.of_nat n + (e - Z.of_nat n))%Z
      with (Zpos (digits2_pos m) + e)%Z by lia.
    rewrite Hc. replace (e - (e - Z.of_nat n))%Z with (Z.of_nat n) by lia.
    unfold shr, shr_record_of_loc. destruct n as [|n]; cbn [Z.of_nat].
    - simpl. f_equal. lia.
    - rewrite iter_pos_nat, SuccNat2Pos.id_succ, shr_doubled. f_equal. lia. }
  rewrite H1. cbn [shr_m loc_of_shr_record round_nearest_even].
  unfold shr_fexp. cbn [Zdigits2]. rewrite Hc, Z.sub_diag. cbn [shr shr_record_of_loc shr_m].
  reflexivity.
Qed.


Lemma SF_one : Prim2SF 1 = S754_finite false 4503599627370496 (-52).
Proof. reflexivity. Qed.

Lemma SF_two : Prim2SF 2 = S754_finite false 4503599627370496 (-51).
Proof. reflexivity. Qed.

Lemma valid_finite x s m e :
  Prim2SF x = S754_finite s m e ->
  canonical_mantissa prec emax m e = true /\ (e <=? emax - prec)%Z = true.
Proof.
  intros H. pose proof (Prim2SF_valid x) as Hv. rewrite H in Hv.
  now apply andb_true_iff in Hv.
Qed.

(** Multiplying by one changes nothing. *)
Lemma mul_one_r y : y * 1 = y.
Proof.
  apply Prim2SF_inj. rewrite mul_spec, SF_one. unfold SF64mul.
  destruct (Prim2SF y) as [s|s| |s m e] eqn:E; cbn [SFmul]; rewrite ?xorb_false_r;
    try reflexivity.
  destruct (valid_finite _ _ _ _ E) as [Hc He].
  rewrite Pos.mul_comm.
  change (4503599627370496 * m)%positive with (Nat.iter 52 xO m).
  replace (e + -52)%Z with (e - Z.of_nat 52)%Z by lia.
  now rewrite binary_round_aux_exact, He.
Qed.

Lemma is_finite_spec x :
  is_finite x = true <->
  (exists s, Prim2SF x = S754_zero s) \/ (exists s m e, Prim2SF x = S754_finite s m e).
Proof.
  unfold is_finite, is_nan, is_infinity.
  rewrite !FloatAxioms.eqb_spec, abs_spec.
  change (Prim2SF infinity) with (S754_infinity false).
  destruct (Prim2SF x) as [s|s| |s m e] eqn:E.
  - split; eauto.
  - split; [destruct s; discriminate|].
    intros [[? ?] | (? & ? & ? & ?)]; discriminate.
  - split; [discriminate|]. intros [[? ?] | (? & ? & ? & ?)]; discriminate.
  - unfold SFeqb. rewrite (SFcompare_refl (S754_finite s m e)) by discriminate.
    split; eauto.
Qed.

Lemma positive_spec x :
  (0 <? x) = true ->
  (exists m e, Prim2SF x = S754_finite false m e) \/ Prim2SF x = S754_infinity false.
Proof.
  rewrite ltb_spec. change (Prim2SF 0) with (S754_zero false). unfold SFltb.
  destruct (Prim2SF x) as [s|[|]| |[|] m e]; cbn; try discriminate; eauto.
Qed.

Lemma div_eucl_exact (m : positive) (k : Z) :
  (0 <= k)%Z -> Z.div_eucl (Z.shiftl (Zpos m) k) (Zpos m) = ((2 ^ k)%Z, 0%Z).
Proof.
  intros Hk. rewrite Z.shiftl_mul_pow2 by assumption.
  pose proof (Z.div_eucl_eq (Zpos m * 2 ^ k) (Zpos m) ltac:(lia)) as Heq.
  pose proof (Z.mod_pos_bound (Zpos m * 2 ^ k) (Zpos m) ltac:(lia)) as Hb.
  unfold Z.modulo in Hb.
  destruct (Z.div_eucl (Zpos m * 2 ^ k) (Zpos m)) as [q r].
  assert (Hr : r = 0%Z).
  { assert (H : (r = Zpos m * (2 ^ k - q))%Z) by lia.
    assert (Hq : (2 ^ k - q = 0)%Z) by nia. rewrite Hq in H. lia. }
  subst r. f_equal. nia.
Qed.

Lemma new_location_zero n : new_location n 0 = loc_Exact.
Proof. unfold new_location. now destruct (Z.even n). Qed.

(** A finite non-zero number divided by itself is one. *)
Lemma div_self_finite x s m e : Prim2SF x = S754_finite s m e -> x / x = 1.
Proof.
  intros E. apply Prim2SF_inj. rewrite div_spec, E, SF_one. unfold SF64div, SFdiv.
  unfold SFdiv_core_binary. cbn [Zdigits2].
  replace (Zpos (digits2_pos m) + e - (Zpos (digits2_pos m) + e))%Z with 0%Z by lia.
  rewrite Z.sub_diag. change (Z.min (fexp prec emax 0) 0) with (-53)%Z.
  change (0 - -53)%Z with 53%Z. cbv iota. rewrite (div_eucl_exact m 53) by lia.
  rewrite xorb_nilpotent, new_location_zero. reflexivity.
Qed.

Lemma canonical_cases m e :
  canonical_mantissa prec emax m e = true ->
  (Zpos (digits2_pos m) = 53 /\ -1074 <= e)%Z
  \/ (Zpos (digits2_pos m) < 53 /\ e = -1074)%Z.
Proof.
  unfold canonical_mantissa, fexp, emin. intros H. apply Z.eqb_eq in H.
  change prec with 53%Z in H. change emax with 1024%Z in H. lia.
Qed.

(** The double of a positive finite number, unless it overflows. *)
Lemma SF_double w m e :
  Prim2SF w = S754_finite false m e ->
  is_finite (2 * w) = true ->
  (Prim2SF (2 * w) = S754_finite false m (e + 1)
   /\ Zpos (digits2_pos m) = 53%Z)
  \/ (Prim2SF (2 * w) = S754_finite false (xO m) e
      /\ (Zpos (digits2_pos m) < 53)%Z).
Proof.
  intros E Hfin. destruct (valid_finite _ _ _ _ E) as [Hc He].
  assert (Hmul : Prim2SF (2 * w)
                 = binary_round_aux prec emax false (Zpos (Nat.iter 52 xO m)) (-51 + e) loc_Exact).
  { rewrite mul_spec, SF_two, E. reflexivity. }
  apply is_finite_spec in Hfin.
  destruct (canonical_cases _ _ Hc) as [[Hd Hlo] | [Hd Hlo]].
  - left. split; [|exact Hd].
    replace (-51 + e)%Z with ((e + 1) - Z.of_nat 52)%Z in Hmul by lia.
    rewrite binary_round_aux_exact in Hmul.
    + destruct (e + 1 <=? emax - prec)%Z; [exact Hmul|].
      rewrite Hmul in Hfin. destruct Hfin as [[? ?] | (? & ? & ? & ?)]; discriminate.
    + unfold canonical_mantissa, fexp, emin. apply Z.eqb_eq.
      change prec with 53%Z. change emax with 1024%Z. lia.
  - right. split; [|exact Hd].
    change (Nat.iter 52 xO m) with (Nat.iter 51 xO (xO m)) in Hmul.
    replace (-51 + e)%Z with (e - Z.of_nat 51)%Z in Hmul by lia.
    rewrite binary_round_aux_exact in Hmul.
    + now rewrite He in Hmul.
    + unfold canonical_mantissa, fexp, emin. apply Z.eqb_eq. cbn [digits2_pos].
      rewrite Pos2Z.inj_succ. change prec with 53%Z. change emax with 1024%Z. lia.
Qed.

(** Twice a positive number, divided by that number, is two. *)
Lemma double_div w :
  (0 <? w) = true -> is_finite (2 * w) = true -> 2 * w / w = 2.
Proof.
  intros Hpos Hfin.
  destruct (positive_spec _ Hpos) as [(m & e & E) | E].
  - apply Prim2SF_inj. rewrite div_spec, SF_two.
    destruct (SF_double _ _ _ E Hfin) as [[E2 Hd] | [E2 Hd]]; rewrite E2, E;
      unfold SF64div, SFdiv, SFdiv_core_binary; cbn [Zdigits2 digits2_pos xorb].
    + replace (Zpos (digits2_pos m) + (e + 1) - (Zpos (digits2_pos m) + e))%Z with 1%Z by lia.
      replace (e + 1 - e)%Z with 1%Z by lia.
      change (Z.min (fexp prec emax 1) 1) with (-52)%Z.
      change (1 - -52)%Z with 53%Z. cbv iota.
      rewrite (div_eucl_exact m 53) by lia. rewrite new_location_zero. reflexivity.
    + rewrite Pos2Z.inj_succ.
      replace (Z.succ (Zpos (digits2_pos m)) + e - (Zpos (digits2_pos m) + e))%Z
        with 1%Z by lia.
      rewrite Z.sub_diag. change (Z.min (fexp prec emax 1) 0) with (-52)%Z.
      change (0 - -52)%Z with 52%Z. cbv iota.
      change (Z.shiftl (Zpos m~0) 52) with (Z.shiftl (Zpos m) 53).
      rewrite (div_eucl_exact m 53) by lia. rewrite new_location_zero. reflexivity.
  - exfalso. apply is_finite_spec in Hfin.
    rewrite mul_spec, SF_two, E in Hfin. cbn in Hfin.
    destruct Hfin as [[? ?] | (? & ? & ? & ?)]; discriminate.
Qed.

Lemma div_self w : (0 <? w) = true -> is_finite w = true -> w / w = 1.
Proof.
  intros Hpos Hfin. destruct (positive_spec _ Hpos) as [(m & e & E) | E].
  - now apply div_self_finite with false m e.
  - apply is_finite_spec in Hfin. rewrite E in Hfin.
    destruct Hfin as [[? ?] | (? & ? & ? & ?)]; discriminate.
Qed.

(** *** Subtraction of finite numbers never yields NaN or [-0] *)

Lemma digits2_pos_bounds m :
  (2 ^ (Zpos (digits2_pos m) - 1) <= Zpos m < 2 ^ Zpos (digits2_pos m))%Z.
Proof.
  induction m as [m IH|m IH|]; cbn [digits2_pos]; [| |simpl; lia];
    rewrite Pos2Z.inj_succ;
    replace (Z.succ (Zpos (digits2_pos m)) - 1)%Z with (Z.succ (Zpos (digits2_pos m) - 1))%Z
      by lia;
    rewrite !Z.pow_succ_r by lia; lia.
Qed.

Lemma shr_1_m r : (0 <= shr_m r)%Z -> shr_m (shr_1 r) = Z.div2 (shr_m r).
Proof.
  destruct r as [m r s]; cbn [shr_m]. intros H.
  destruct m as [|[p|p|]|p]; try reflexivity; lia.
Qed.

Lemma shr_iter_m (n : nat) : forall r,
  (0 <= shr_m r)%Z -> shr_m (Nat.iter n shr_1 r) = (shr_m r / 2 ^ Z.of_nat n)%Z.
Proof.
  induction n as [|n IH]; intros r H.
  - simpl. now rewrite Z.div_1_r.
  - rewrite Nat.iter_succ, shr_1_m.
    + rewrite IH by assumption. rewrite Z.div2_div, Z.div_div by lia.
      f_equal. rewrite Nat2Z.inj_succ, Z.pow_succ_r by lia. lia.
    + rewrite IH by assumption. apply Z.div_pos; lia.
Qed.

Lemma shr_fexp_positive m e :
  (emin <= e)%Z ->
  (0 < shr_m (fst (shr_fexp prec emax (Zpos m) e loc_Exact)))%Z
  /\ (emin <= snd (shr_fexp prec emax (Zpos m) e loc_Exact))%Z.
Proof.
  intros He. unfold shr_fexp, shr. cbn [Zdigits2 shr_record_of_loc].
  pose proof (digits2_pos_bounds m) as Hd.
  destruct (fexp prec emax (Zpos (digits2_pos m) + e) - e)%Z as [|p|p] eqn:En;
    cbn [fst snd shr_m]; try (split; lia).
  assert (Hp : (Zpos p = Zpos (digits2_pos m) - 53)%Z).
  { unfold fexp, SpecFloat.emin in En. change prec with 53%Z in *.
    change emax with 1024%Z in *. unfold SpecFloat.emin in He. lia. }
  split; [|lia].
  rewrite iter_pos_nat, shr_iter_m by (cbn; lia). cbn [shr_m].
  rewrite positive_nat_Z, Hp.
  apply Z.div_str_pos. split; [apply Z.pow_pos_nonneg; lia|].
  eapply Z.le_trans; [|apply Hd]. apply Z.pow_le_mono_r; lia.
Qed.

Lemma round_nearest_even_ge m l : (m <= round_nearest_even m l)%Z.
Proof.
  destruct l as [|[| |]]; cbn; try lia. destruct (Z.even m); lia.
Qed.

Lemma binary_round_aux_nonzero s m e :
  (emin <= e)%Z ->
  (exists m' e', binary_round_aux prec emax s (Zpos m) e loc_Exact = S754_finite s m' e')
  \/ binary_round_aux prec emax s (Zpos m) e loc_Exact = S754_infinity s.
Proof.
  intros He. unfold binary_round_aux.
  destruct (shr_fexp_positive m e He) as [H1 H2].
  destruct (shr_fexp prec emax (Zpos m) e loc_Exact) as [mrs' e'].
  cbn [fst snd] in H1, H2.
  pose proof (round_nearest_even_ge (shr_m mrs') (loc_of_shr_record mrs')) as Hr.
  destruct (round_nearest_even (shr_m mrs') (loc_of_shr_record mrs')) as [|m2|m2]; try lia.
  destruct (shr_fexp_positive m2 e' H2) as [H3 _].
  destruct (shr_fexp prec emax (Zpos m2) e' loc_Exact) as [mrs'' e''].
  cbn [fst] in H3. destruct (shr_m mrs'') as [|m3|m3]; try lia.
  destruct (e'' <=? emax - prec)%Z; eauto.
Qed.

Lemma binary_round_nonzero s m e :
  (emin <= e)%Z ->
  (exists m' e', binary_round prec emax s m e = S754_finite s m' e')
  \/ binary_round prec emax s m e = S754_infinity s.
Proof.
  intros He. unfold binary_round, shl_align.
  set (e1 := fexp prec emax (Zpos (digits2_pos m) + e)).
  assert (H1 : (emin <= e1)%Z) by (unfold e1, fexp; lia).
  destruct (e1 - e)%Z; apply binary_round_aux_nonzero; assumption.
Qed.

Lemma canonical_emin m e : canonical_mantissa prec emax m e = true -> (emin <= e)%Z.
Proof.
  unfold canonical_mantissa, fexp. intros H. apply Z.eqb_eq in H. lia.
Qed.

(** The difference of two finite numbers, the first one not zero, is [+0],
    or a non-zero number: [||] leaves it as it is. *)
Lemma num_or_sub a b :
  is_finite a = true -> is_finite b = true -> JS.truthy a = true ->
  JS.num_or (Some (a - b)) 0 = a - b.
Proof.
  intros Ha Hb Ht. unfold JS.num_or.
  destruct (JS.truthy (a - b)) eqn:Hs; [reflexivity|].
  apply Prim2SF_inj. change (Prim2SF 0) with (S754_zero false).
  apply falsy_spec in Hs. rewrite sub_spec in *. unfold SF64sub in *.
  apply is_finite_spec in Ha, Hb.
  assert (Hna : forall s, Prim2SF a <> S754_zero s).
  { intros s E. assert (JS.truthy a = false) by (apply falsy_spec; eauto). congruence. }
  destruct Ha as [[s E] | (sa & ma & ea & Ea)]; [now apply Hna in E|].
  destruct Hb as [[sb Eb] | (sb & mb & eb & Eb)]; rewrite Ea, Eb in *; cbn [SFsub] in *.
  - destruct Hs as [[? ?] | ?]; discriminate.
  - destruct (valid_finite _ _ _ _ Ea) as [Hca _].
    destruct (valid_finite _ _ _ _ Eb) as [Hcb _].
    apply canonical_emin in Hca, Hcb.
    set (z := (cond_Zopp sa (Zpos (fst (shl_align ma ea (Z.min ea eb))))
               - cond_Zopp sb (Zpos (fst (shl_align mb eb (Z.min ea eb)))))%Z) in *.
    destruct z as [|p|p]; cbn [binary_normalize] in *; [reflexivity| |].
    + destruct (binary_round_nonzero false p (Z.min ea eb) ltac:(lia))
        as [(m' & e' & E) | E]; rewrite E in Hs;
        destruct Hs as [[? ?] | ?]; discriminate.
    + destruct (binary_round_nonzero true p (Z.min ea eb) ltac:(lia))
        as [(m' & e' & E) | E]; rewrite E in Hs;
        destruct Hs as [[? ?] | ?]; discriminate.
Qed.

End Binary64.

(** ** The overlap selection engine *)

Lemma findIntersectingBlocks_elements s p pathString ocr :
  ocrResult s = Some ocr -> 2 <= List.length (parseSvgPath pathString) ->
  intersectingElements (findIntersectingBlocks s pathString p)
  = collect_elements (viewLayout s) (imageSize s) (parseSvgPath pathString) ocr.
Proof.
  intros Hocr Hlen. unfold findIntersectingBlocks. rewrite Hocr.
  destruct (Nat.ltb_spec (List.length (parseSvgPath pathString)) 2) as [H|_]; [lia|].
  cbv zeta.
  destruct (0 <? List.length (collect_elements _ _ _ _))%nat; [|reflexivity].
  now destruct (0 <? List.length (filter _ _))%nat.
Qed.

(** What the engine writes to [selectedText]: the non-empty texts of the
    collected words, joined, when there is at least one. *)
Lemma findIntersectingBlocks_text s p pathString ocr :
  ocrResult s = Some ocr -> 2 <= List.length (parseSvgPath pathString) ->
  let elements := collect_elements (viewLayout s) (imageSize s) (parseSvgPath pathString) ocr in
  let selectedTexts :=
    filter (fun text => Nat.ltb 0 (String.length text)) (map (text_at ocr) elements) in
  selectedText (findIntersectingBlocks s pathString p)
  = match selectedTexts with
    | [] => selectedText p
    | _ => Some (JS.join " " selectedTexts)
    end.
Proof.
  intros Hocr Hlen elements selectedTexts. unfold findIntersectingBlocks. rewrite Hocr.
  destruct (Nat.ltb_spec (List.length (parseSvgPath pathString)) 2) as [H|_]; [lia|].
  cbv zeta. fold elements. fold selectedTexts.
  destruct elements as [|e els] eqn:Ee.
  - reflexivity.
  - cbn [List.length Nat.ltb Nat.leb].
    destruct selectedTexts as [|t ts]; reflexivity.
Qed.

Lemma join_nonempty (sep t : string) (ts : list string) :
  t <> EmptyString -> JS.join sep (t :: ts) <> EmptyString.
Proof.
  intros Ht. unfold JS.join. destruct t as [|c t]; [congruence|].
  destruct ts; simpl; discriminate.
Qed.

Lemma filter_all {A : Type} (f : A -> bool) (l : list A) :
  Forall (fun a => f a = true) l -> filter f l = l.
Proof.
  induction 1 as [|a l Ha _ IH]; simpl; [reflexivity|]. now rewrite Ha, IH.
Qed.

Lemma length_pos_nonempty (t : string) : (0 <? String.length t)%nat = true <-> t <> EmptyString.
Proof.
  destruct t; simpl; split; intros H; try discriminate; try reflexivity.
  now elim H.
Qed.

(** The engine's percentage is the specification's formula on the two
    bounding boxes. *)
Lemma overlapPercentage_overlap_percent vl sz pts frame :
  overlapPercentage vl sz pts frame
  = overlap_percent (boundingBox pts) (boundingBox (wordPoints_of (mapped_frame vl sz frame))).
Proof. reflexivity. Qed.

Lemma selects_frame vl sz pts element frame :
  TextElement.frame element = Some frame ->
  selects vl sz pts element
  = JS.geb (overlap_percent (boundingBox pts)
              (boundingBox (wordPoints_of (mapped_frame vl sz frame)))) 40%float.
Proof. intros H. unfold selects. now rewrite H. Qed.

(** C1. For every word of the recognition result and every lasso of at
    least two points, the engine selects the word if and only if the word
    has a frame and the area of the intersection of the word's mapped
    bounding box with the lasso's bounding box, divided by the word's area
    and multiplied by 100, is at least 40; disjoint boxes give 0; a word at
    exactly 40 is selected and one strictly below 40 is not. *)
Theorem overlap_threshold_selection
    (s p : State) (pathString : string) (ocr : TextRecognitionResult.t)
    (pos : IntersectingElement.t) (element : TextElement.t) :
  ocrResult s = Some ocr ->
  2 <= List.length (parseSvgPath pathString) ->
  element_at ocr pos = Some element ->
  let lasso := boundingBox (parseSvgPath pathString) in
  let word_box frame :=
    boundingBox (wordPoints_of (mapped_frame (viewLayout s) (imageSize s) frame)) in
  let selected := In pos (intersectingElements (findIntersectingBlocks s pathString p)) in
  (selected <->
   exists frame, TextElement.frame element = Some frame
                 /\ JS.geb (overlap_percent lasso (word_box frame)) 40%float = true)
  /\ (forall frame, TextElement.frame element = Some frame ->
        (box_disjoint lasso (word_box frame) = true ->
         overlap_percent lasso (word_box frame) = 0%float)
        /\ (overlap_percent lasso (word_box frame) = 40%float -> selected)
        /\ ((overlap_percent lasso (word_box frame) <? 40)%float = true -> ~ selected)).
Proof.
  intros Hocr Hlen Hel lasso word_box selected.
  assert (Hsel : selected <-> selects (viewLayout s) (imageSize s)
                                (parseSvgPath pathString) element = true).
  { unfold selected. rewrite (findIntersectingBlocks_elements s p pathString ocr Hocr Hlen).
    rewrite collect_elements_In. split.
    - intros [el [H1 H2]]. rewrite Hel in H1. now inversion H1; subst el.
    - intros H. now exists element. }
  split.
  - rewrite Hsel. unfold selects. destruct (TextElement.frame element) as [f|].
    + split; [intros H; now exists f|]. intros [f' [Hf H]]. now inversion Hf; subst f'.
    + split; [discriminate|]. intros [f' [Hf _]]. discriminate.
  - intros frame Hfr. rewrite Hsel, (selects_frame _ _ _ _ _ Hfr).
    fold lasso. fold (word_box frame). split; [|split].
    + intros Hd. unfold overlap_percent. now rewrite Hd.
    + now intros ->.
    + intros Hlt Hs. rewrite (ltb_geb _ _ Hlt) in Hs. discriminate.
Qed.

Lemma overlap_threshold_selection_witness :
  (ocrResult example_state = Some example_ocr
   /\ 2 <= List.length (parseSvgPath "M 0 0 L 40 20")
   /\ element_at example_ocr (IntersectingElement.mk 0 0 0)
      = Some (TextElement.mk "Hello" (Some (frame_ltwh 0 0 100 20))))
  /\ overlap_percent (boundingBox (parseSvgPath "M 0 0 L 40 20"))
       (boundingBox (wordPoints_of
          (mapped_frame (viewLayout example_state) (imageSize example_state)
             (frame_ltwh 0 0 100 20)))) = 40%float
  /\ In (IntersectingElement.mk 0 0 0)
        (intersectingElements
           (findIntersectingBlocks example_state "M 0 0 L 40 20" example_state)).
Proof.
  assert (H1 : ocrResult example_state = Some example_ocr) by reflexivity.
  assert (H2 : 2 <= List.length (parseSvgPath "M 0 0 L 40 20")) by (vm_compute; lia).
  assert (H3 : element_at example_ocr (IntersectingElement.mk 0 0 0)
               = Some (TextElement.mk "Hello" (Some (frame_ltwh 0 0 100 20))))
    by reflexivity.
  assert (H4 : overlap_percent (boundingBox (parseSvgPath "M 0 0 L 40 20"))
                 (boundingBox (wordPoints_of
                    (mapped_frame (viewLayout example_state) (imageSize example_state)
                       (frame_ltwh 0 0 100 20)))) = 40%float)
    by (vm_compute; reflexivity).
  split; [auto|]. split; [exact H4|].
  exact (proj1 (proj2 (proj2
    (overlap_threshold_selection example_state example_state "M 0 0 L 40 20" example_ocr
       (IntersectingElement.mk 0 0 0) (TextElement.mk "Hello" (Some (frame_ltwh 0 0 100 20)))
       H1 H2 H3) (frame_ltwh 0 0 100 20) eq_refl)) H4).
Defined.

(** The gesture enters the selection only through its bounding box. *)
Lemma collect_elements_boundingBox vl sz pts pts' ocr :
  boundingBox pts' = boundingBox pts ->
  collect_elements vl sz pts' ocr = collect_elements vl sz pts ocr.
Proof.
  intros Hbox. rewrite !collect_elements_positions. f_equal. apply filter_ext.
  intros [pos el]. unfold selects. now rewrite Hbox.
Qed.

(** C2. For every recognition result and every lasso of at least two
    points, the selected positions are collected in ascending (block, line,
    element) order, and the selected text joins the selected words' texts
    with a single space in that same order (a word with an empty text adds
    nothing to the string); the order of the gesture's points plays no part:
    any other gesture with the same bounding box gives the same result. *)
Theorem selection_in_reading_order
    (s p : State) (pathString : string) (ocr : TextRecognitionResult.t) :
  ocrResult s = Some ocr ->
  2 <= List.length (parseSvgPath pathString) ->
  let p' := findIntersectingBlocks s pathString p in
  let texts := map (text_at ocr) (intersectingElements p') in
  let shown := filter (fun text => Nat.ltb 0 (String.length text)) texts in
  StronglySorted position_lt (intersectingElements p')
  /\ (shown <> [] -> selectedText p' = Some (JS.join " " shown))
  /\ (shown = [] -> selectedText p' = selectedText p)
  /\ (texts <> [] -> Forall (fun text => text <> EmptyString) texts ->
      selectedText p' = Some (JS.join " " texts))
  /\ (forall otherPath,
        2 <= List.length (parseSvgPath otherPath) ->
        boundingBox (parseSvgPath otherPath) = boundingBox (parseSvgPath pathString) ->
        findIntersectingBlocks s otherPath p = p').
Proof.
  intros Hocr Hlen p' texts shown.
  pose proof (findIntersectingBlocks_elements s p pathString ocr Hocr Hlen) as He.
  pose proof (findIntersectingBlocks_text s p pathString ocr Hocr Hlen) as Ht.
  cbv zeta in Ht. fold p' in He, Ht. rewrite <- He in Ht. fold texts in Ht. fold shown in Ht.
  split; [|split; [|split; [|split]]].
  - rewrite He. apply collect_elements_sorted.
  - intros Hne. rewrite Ht. destruct shown; [congruence|reflexivity].
  - intros Hnil. rewrite Ht. now rewrite Hnil.
  - intros Hne Hall.
    assert (Hshown : shown = texts).
    { apply filter_all. eapply Forall_impl; [|exact Hall].
      intros t. apply length_pos_nonempty. }
    rewrite Ht, Hshown. destruct texts; [congruence|reflexivity].
  - intros otherPath Hlen' Hbox. unfold p', findIntersectingBlocks. rewrite Hocr.
    destruct (Nat.ltb_spec (List.length (parseSvgPath pathString)) 2) as [H|_]; [lia|].
    destruct (Nat.ltb_spec (List.length (parseSvgPath otherPath)) 2) as [H|_]; [lia|].
    cbv zeta. now rewrite (collect_elements_boundingBox _ _ _ _ _ Hbox).
Qed.

Lemma selection_in_reading_order_witness :
  (ocrResult example_state = Some example_ocr
   /\ 2 <= List.length (parseSvgPath "M 300 20 L 150 10 L 0 0"))
  /\ intersectingElements
       (findIntersectingBlocks example_state "M 300 20 L 150 10 L 0 0" example_state)
     = [IntersectingElement.mk 0 0 0; IntersectingElement.mk 0 0 1]
  /\ selectedText
       (findIntersectingBlocks example_state "M 300 20 L 150 10 L 0 0" example_state)
     = Some "Hello World"%string.
Proof.
  assert (H1 : ocrResult example_state = Some example_ocr) by reflexivity.
  assert (H2 : 2 <= List.length (parseSvgPath "M 300 20 L 150 10 L 0 0"))
    by (vm_compute; lia).
  split; [auto|]. split; [vm_compute; reflexivity|].
  refine (eq_trans
    (proj1 (proj2 (selection_in_reading_order example_state example_state
                     "M 300 20 L 150 10 L 0 0" example_ocr H1 H2)) _) _).
  - vm_compute. discriminate.
  - vm_compute. reflexivity.
Defined.

(** The specification's end-to-end scenario: a lasso over
    [{x:0, y:0, w:100, h:20}] selects "Hello" only, one over
    [{x:0, y:0, w:300, h:20}] selects both words. *)
Example end_to_end_hello :
  selectedText (findIntersectingBlocks example_state "M 0 0 L 100 20" example_state)
  = Some "Hello"%string.
Proof. vm_compute. reflexivity. Qed.

Example end_to_end_hello_world :
  selectedText (findIntersectingBlocks example_state "M 0 0 L 300 20" example_state)
  = Some "Hello World"%string.
Proof. vm_compute. reflexivity. Qed.

(** The same scenario driven through the handlers: the stroke of the worked
    session ends with "Hello" selected. *)
Example end_to_end_session :
  selectedText (state example_world) = Some "Hello"%string
  /\ intersectingElements (state example_world) = [IntersectingElement.mk 0 0 0].
Proof. split; vm_compute; reflexivity. Qed.

(** C5. For every path string that parses to fewer than two points, the
    engine returns without modifying any state: the highlighted elements and
    the selected text are exactly what they were before the call. *)
Theorem short_path_leaves_state (s p : State) (pathString : string) :
  List.length (parseSvgPath pathString) < 2 ->
  findIntersectingBlocks s pathString p = p
  /\ intersectingElements (findIntersectingBlocks s pathString p) = intersectingElements p
  /\ selectedText (findIntersectingBlocks s pathString p) = selectedText p.
Proof.
  intros Hlen.
  assert (H : findIntersectingBlocks s pathString p = p).
  { unfold findIntersectingBlocks. destruct (ocrResult s); [|reflexivity].
    destruct (Nat.ltb_spec (List.length (parseSvgPath pathString)) 2); [reflexivity|lia]. }
  now rewrite H.
Qed.

Lemma short_path_leaves_state_witness :
  List.length (parseSvgPath "M 10 10") < 2
  /\ selectedText
       (findIntersectingBlocks example_state "M 10 10"
          (setSelectedText (Some "Hello"%string) example_state))
     = Some "Hello"%string.
Proof.
  assert (H : List.length (parseSvgPath "M 10 10") < 2) by (vm_compute; lia).
  split; [exact H|].
  exact (proj2 (proj2 (short_path_leaves_state example_state
                         (setSelectedText (Some "Hello"%string) example_state)
                         "M 10 10" H))).
Defined.

(** C6 (amended). For every run with a lasso of at least two points in
    which no word meets the threshold, the engine empties the highlighted
    set and leaves the selected text as it was: unset if it was unset, the
    text of the earlier selection otherwise (clearing is left to the
    callers); and no run of the engine ever sets the selected text to the
    empty string. *)
Theorem no_selection_leaves_text_unset
    (s p : State) (pathString : string) (ocr : TextRecognitionResult.t) :
  ocrResult s = Some ocr ->
  2 <= List.length (parseSvgPath pathString) ->
  forallb (fun pe => negb (selects (viewLayout s) (imageSize s)
                             (parseSvgPath pathString) (snd pe)))
          (positions ocr) = true ->
  let p' := findIntersectingBlocks s pathString p in
  intersectingElements p' = []
  /\ selectedText p' = selectedText p
  /\ (selectedText p = None -> selectedText p' = None)
  /\ (forall s0 p0 path0,
        selectedText (findIntersectingBlocks s0 path0 p0) = Some EmptyString ->
        selectedText p0 = Some EmptyString).
Proof.
  intros Hocr Hlen Hnone p'.
  assert (Hcol : collect_elements (viewLayout s) (imageSize s) (parseSvgPath pathString) ocr
                 = []).
  { rewrite collect_elements_positions.
    rewrite forallb_forall in Hnone.
    induction (positions ocr) as [|pe l IH]; [reflexivity|]. simpl.
    pose proof (Hnone pe (or_introl eq_refl)) as Hpe. apply negb_true_iff in Hpe.
    rewrite Hpe. apply IH. intros x Hx. apply Hnone. now right. }
  assert (Htext : selectedText p' = selectedText p).
  { unfold p'. rewrite (findIntersectingBlocks_text s p pathString ocr Hocr Hlen).
    cbv zeta. now rewrite Hcol. }
  split; [|split; [|split]].
  - unfold p'. now rewrite (findIntersectingBlocks_elements s p pathString ocr Hocr Hlen).
  - exact Htext.
  - intros H. now rewrite Htext.
  - clear. intros s0 p0 path0 H. unfold findIntersectingBlocks in H.
    destruct (ocrResult s0) as [ocr0|]; [|exact H].
    destruct (List.length (parseSvgPath path0) <? 2)%nat; [exact H|].
    cbv zeta in H.
    destruct (0 <? List.length (collect_elements _ _ _ _))%nat; [|exact H].
    destruct (filter _ _) as [|t ts] eqn:Ef; [exact H|].
    exfalso. cbn in H. inversion H as [Hj].
    assert (Ht : In t (t :: ts)) by now left.
    rewrite <- Ef in Ht. apply filter_In in Ht. destruct Ht as [_ Ht].
    apply length_pos_nonempty in Ht. exact (join_nonempty " " t ts Ht Hj).
Qed.

Lemma no_selection_leaves_text_unset_witness :
  (ocrResult example_state = Some example_ocr
   /\ 2 <= List.length (parseSvgPath "M 500 500 L 600 600")
   /\ forallb (fun pe => negb (selects (viewLayout example_state) (imageSize example_state)
                                 (parseSvgPath "M 500 500 L 600 600") (snd pe)))
              (positions example_ocr) = true)
  /\ selectedText (findIntersectingBlocks example_state "M 500 500 L 600 600" example_state)
     = None.
Proof.
  assert (H1 : ocrResult example_state = Some example_ocr) by reflexivity.
  assert (H2 : 2 <= List.length (parseSvgPath "M 500 500 L 600 600"))
    by (vm_compute; lia).
  assert (H3 : forallb (fun pe => negb (selects (viewLayout example_state)
                                          (imageSize example_state)
                                          (parseSvgPath "M 500 500 L 600 600") (snd pe)))
                       (positions example_ocr) = true)
    by (vm_compute; reflexivity).
  split; [auto|].
  exact (proj1 (proj2 (proj2
    (no_selection_leaves_text_unset example_state example_state "M 500 500 L 600 600"
       example_ocr H1 H2 H3))) eq_refl).
Defined.

(** C6, as stated, fails after an earlier selection: the worked session
    ends with "Hello" selected; a further lasso of two points around no
    word empties the highlighted set, and the selected text is still
    "Hello", not unset. The same holds of the engine run on its own. *)
Lemma zero_words_keep_earlier_text :
  let s := state example_world in
  let w := run integer_coordinate_toString "/a.pdf"
               [TouchStart 300 300; TouchMove 350 350; TouchEnd] example_world in
  selectedText s = Some "Hello"%string
  /\ 2 <= List.length (parseSvgPath "M 300 300 L 350 350")
  /\ forallb (fun pe => negb (selects (viewLayout s) (imageSize s)
                                (parseSvgPath "M 300 300 L 350 350") (snd pe)))
             (positions example_ocr) = true
  /\ intersectingElements (findIntersectingBlocks s "M 300 300 L 350 350" s) = []
  /\ selectedText (findIntersectingBlocks s "M 300 300 L 350 350" s) = Some "Hello"%string
  /\ selectedText (findIntersectingBlocks s "M 300 300 L 350 350" s) <> None
  /\ intersectingElements (state w) = []
  /\ selectedText (state w) = Some "Hello"%string.
Proof.
  cbv zeta. split; [vm_compute; reflexivity|]. split; [vm_compute; lia|].
  split; [vm_compute; reflexivity|]. split; [vm_compute; reflexivity|].
  split; [vm_compute; reflexivity|]. split; [vm_compute; discriminate|].
  split; vm_compute; reflexivity.
Qed.

(** C10. A word whose mapped frame has zero width or zero height is never
    selected, for any lasso: the engine computes 0 (disjoint boxes) or NaN
    (a zero or NaN area over a zero or NaN area) for it, and neither
    reaches the threshold. *)
Theorem zero_area_word_never_selected
    (s p : State) (pathString : string) (ocr : TextRecognitionResult.t)
    (pos : IntersectingElement.t) (element : TextElement.t) (frame : Frame.t) :
  ocrResult s = Some ocr ->
  element_at ocr pos = Some element ->
  TextElement.frame element = Some frame ->
  PrimFloat.is_zero (Rect.width (mapped_frame (viewLayout s) (imageSize s) frame)) = true
  \/ PrimFloat.is_zero (Rect.height (mapped_frame (viewLayout s) (imageSize s) frame)) = true ->
  (forall pathPoints,
     (overlapPercentage (viewLayout s) (imageSize s) pathPoints frame = 0%float
      \/ PrimFloat.is_nan (overlapPercentage (viewLayout s) (imageSize s) pathPoints frame)
         = true)
     /\ selects (viewLayout s) (imageSize s) pathPoints element = false)
  /\ (2 <= List.length (parseSvgPath pathString) ->
      ~ In pos (intersectingElements (findIntersectingBlocks s pathString p))).
Proof.
  intros Hocr Hel Hfr Hz.
  assert (Hsel : forall pathPoints,
            selects (viewLayout s) (imageSize s) pathPoints element = false).
  { intros pts. rewrite (selects_frame _ _ _ _ _ Hfr).
    rewrite <- overlapPercentage_overlap_percent.
    now apply degenerate_frame_below_threshold. }
  split.
  - intros pts. split; [now apply degenerate_frame_percentage|apply Hsel].
  - intros Hlen Hin.
    rewrite (findIntersectingBlocks_elements s p pathString ocr Hocr Hlen) in Hin.
    apply collect_elements_In in Hin. destruct Hin as [el [H1 H2]].
    rewrite Hel in H1. inversion H1; subst el. rewrite Hsel in H2. discriminate.
Qed.

Lemma zero_area_word_never_selected_witness :
  (ocrResult degenerate_state = Some degenerate_ocr
   /\ element_at degenerate_ocr (IntersectingElement.mk 0 0 2)
      = Some (TextElement.mk "|" (Some (frame_ltwh 150 0 0 20)))
   /\ PrimFloat.is_zero
        (Rect.width (mapped_frame (viewLayout degenerate_state) (imageSize degenerate_state)
                       (frame_ltwh 150 0 0 20))) = true
   /\ 2 <= List.length (parseSvgPath "M 0 0 L 300 20"))
  /\ ~ In (IntersectingElement.mk 0 0 2)
         (intersectingElements
            (findIntersectingBlocks degenerate_state "M 0 0 L 300 20" degenerate_state)).
Proof.
  assert (H1 : ocrResult degenerate_state = Some degenerate_ocr) by reflexivity.
  assert (H2 : element_at degenerate_ocr (IntersectingElement.mk 0 0 2)
               = Some (TextElement.mk "|" (Some (frame_ltwh 150 0 0 20)))) by reflexivity.
  assert (H3 : PrimFloat.is_zero
                 (Rect.width (mapped_frame (viewLayout degenerate_state)
                                (imageSize degenerate_state) (frame_ltwh 150 0 0 20))) = true)
    by (vm_compute; reflexivity).
  assert (H4 : 2 <= List.length (parseSvgPath "M 0 0 L 300 20")) by (vm_compute; lia).
  split; [auto|].
  exact (proj2 (zero_area_word_never_selected degenerate_state degenerate_state
                  "M 0 0 L 300 20" degenerate_ocr (IntersectingElement.mk 0 0 2)
                  (TextElement.mk "|" (Some (frame_ltwh 150 0 0 20)))
                  (frame_ltwh 150 0 0 20) H1 H2 eq_refl (or_introl H3)) H4).
Defined.

(** ** Coordinate mapper *)

(** C4. For every rectangle and every layout with a positive image size
    (all sizes being finite numbers), the mapper returns
    [{x*scaleX, y*scaleY, width*scaleX, height*scaleY}] with
    [scaleX = viewWidth/imageWidth] and [scaleY = viewHeight/imageHeight]; in
    particular, with [viewWidth = 2*imageWidth] and
    [viewHeight = imageHeight], [x] and [width] are multiplied by two while
    [y] and [height] come out unchanged. *)
Theorem mapCoordinates_scales_axes_independently
    (viewLayout : Layout.t) (imageSize : ImageSize.t) (x y width height : float) :
  (0 <? ImageSize.width imageSize)%float = true ->
  (0 <? ImageSize.height imageSize)%float = true ->
  finite (Layout.width viewLayout) ->
  finite (Layout.height viewLayout) ->
  let scaleX := (Layout.width viewLayout / ImageSize.width imageSize)%float in
  let scaleY := (Layout.height viewLayout / ImageSize.height imageSize)%float in
  mapCoordinates viewLayout imageSize x y width height
  = Rect.mk (x * scaleX)%float (y * scaleY)%float (width * scaleX)%float (height * scaleY)%float
  /\ (Layout.width viewLayout = (2 * ImageSize.width imageSize)%float ->
      Layout.height viewLayout = ImageSize.height imageSize ->
      mapCoordinates viewLayout imageSize x y width height
      = Rect.mk (x * 2)%float y (width * 2)%float height).
Proof.
  intros Hw Hh Hfw Hfh scaleX scaleY. split; [reflexivity|].
  intros Ew Eh. unfold mapCoordinates. unfold finite in *.
  rewrite Ew in Hfw |- *. rewrite Eh in Hfh |- *.
  rewrite (double_div _ Hw Hfw), (div_self _ Hh Hfh), !mul_one_r. reflexivity.
Qed.

Lemma mapCoordinates_scales_axes_independently_witness :
  ((0 <? 400)%float = true /\ (0 <? 800)%float = true
   /\ finite 800%float /\ 800%float = (2 * 400)%float)
  /\ mapCoordinates (Layout.mk 800 800 0 0) (ImageSize.mk 400 800) 10 20 30 40
     = Rect.mk (10 * 2)%float 20%float (30 * 2)%float 40%float.
Proof.
  split; [repeat split|].
  exact (proj2 (mapCoordinates_scales_axes_independently
                  (Layout.mk 800 800 0 0) (ImageSize.mk 400 800) 10 20 30 40
                  eq_refl eq_refl eq_refl eq_refl) eq_refl eq_refl).
Defined.

(** ** Frame normalization *)

Lemma sub_zero_r (a z : float) :
  PrimFloat.is_zero z = true -> PrimFloat.is_finite a = true -> JS.truthy a = true ->
  (a - z)%float = a.
Proof.
  intros Hz Ha Ht. apply Prim2SF_inj. rewrite sub_spec. unfold SF64sub.
  apply is_zero_spec in Hz. destruct Hz as [sz Ez]. rewrite Ez.
  apply is_finite_spec in Ha. destruct Ha as [[s E] | (s & m & e & E)].
  - assert (JS.truthy a = false) by (apply falsy_spec; eauto). congruence.
  - rewrite E. reflexivity.
Qed.

Lemma finite_falsy_zero (a : float) :
  PrimFloat.is_finite a = true -> JS.truthy a = false -> PrimFloat.is_zero a = true.
Proof.
  intros Ha Hf. apply is_zero_spec. apply falsy_spec in Hf.
  destruct Hf as [Hf | Hf]; [exact Hf|].
  apply is_finite_spec in Ha. rewrite Hf in Ha.
  destruct Ha as [[? ?] | (? & ? & ? & ?)]; discriminate.
Qed.

Lemma finite_not_nan (a : float) : PrimFloat.is_finite a = true -> PrimFloat.is_nan a = false.
Proof.
  unfold PrimFloat.is_finite. destruct (PrimFloat.is_nan a); [discriminate|reflexivity].
Qed.

Lemma sub_finite_not_nan (a b : float) :
  PrimFloat.is_finite a = true -> PrimFloat.is_finite b = true ->
  PrimFloat.is_nan (a - b)%float = false.
Proof.
  intros Ha Hb. apply is_nan_false_spec. rewrite sub_spec. unfold SF64sub.
  apply is_finite_spec in Ha, Hb.
  destruct Ha as [[sa Ea] | (sa & ma & ea & Ea)],
           Hb as [[sb Eb] | (sb & mb & eb & Eb)]; rewrite Ea, Eb; cbn [SFsub];
    try discriminate.
  - destruct sa, sb; discriminate.
  - destruct (valid_finite _ _ _ _ Ea) as [Hca _].
    destruct (valid_finite _ _ _ _ Eb) as [Hcb _].
    apply canonical_emin in Hca, Hcb.
    destruct (cond_Zopp sa (Zpos (fst (shl_align ma ea (Z.min ea eb))))
              - cond_Zopp sb (Zpos (fst (shl_align mb eb (Z.min ea eb)))))%Z as [|p|p];
      cbn [binary_normalize]; [discriminate| |].
    + destruct (binary_round_nonzero false p (Z.min ea eb) ltac:(lia))
        as [(m' & e' & E) | E]; rewrite E; discriminate.
    + destruct (binary_round_nonzero true p (Z.min ea eb) ltac:(lia))
        as [(m' & e' & E) | E]; rewrite E; discriminate.
Qed.

(** One axis of the normalization. [x] is what [frame.left || frame.x || 0]
    gives and [extent] what [frame.right ? frame.right - x : 0] gives; the
    width/height encoding of the same span, [right - left], normalizes to
    the same extent unless the end is at zero and the start is not. *)
Lemma normalized_axis (left right : float) :
  PrimFloat.is_finite left = true -> PrimFloat.is_finite right = true ->
  JS.truthy right = true \/ JS.truthy left = false ->
  let x := JS.num_or (Some left) (JS.num_or None 0%float) in
  let extent := if JS.truthy right then (right - x)%float else 0%float in
  (x =? left)%float = true
  /\ JS.num_or (Some (right - left)%float) 0%float = extent
  /\ (extent =? right - left)%float = true.
Proof.
  intros Hl Hr Hcase x extent.
  assert (Ex : x = if JS.truthy left then left else 0%float) by reflexivity.
  subst extent. rewrite Ex. clear Ex x.
  pose proof (sub_finite_not_nan right left Hr Hl) as Hnn.
  destruct (JS.truthy right) eqn:Er.
  - destruct (JS.truthy left) eqn:El.
    + split; [apply eqb_refl; now apply finite_not_nan|].
      split; [now apply num_or_sub|now apply eqb_refl].
    + pose proof (finite_falsy_zero _ Hl El) as Hz.
      rewrite (sub_zero_r right left Hz Hr Er) in *.
      rewrite (sub_zero_r right 0%float eq_refl Hr Er).
      split; [apply zeros_eqb; [reflexivity|exact Hz]|].
      split; [unfold JS.num_or; now rewrite Er|now apply eqb_refl].
  - destruct Hcase as [Hc | El]; [discriminate|]. rewrite El.
    pose proof (finite_falsy_zero _ Hl El) as Hzl.
    pose proof (finite_falsy_zero _ Hr Er) as Hzr.
    pose proof (sub_eqb_falsy right left (zeros_eqb _ _ Hzr Hzl)) as Hs.
    split; [apply zeros_eqb; [reflexivity|exact Hzl]|].
    split; [unfold JS.num_or; now rewrite Hs|].
    apply zeros_eqb; [reflexivity|].
    unfold JS.truthy in Hs. rewrite Hnn in Hs. now apply negb_false_iff in Hs.
Qed.

(** A span inside the image, [0 <= left <= right], is never the excluded
    one: if its end is at zero, so is its start. *)
Lemma nonnegative_span_regular (left right : float) :
  (0 <=? left)%float = true -> (left <=? right)%float = true ->
  JS.truthy right = true \/ JS.truthy left = false.
Proof.
  rewrite !leb_spec. change (Prim2SF 0) with (S754_zero false). intros H0 Hle.
  destruct (JS.truthy right) eqn:Er; [now left|right].
  apply falsy_spec in Er. apply falsy_spec.
  destruct Er as [[s Er] | Er]; rewrite Er in Hle.
  - left. unfold SFleb in *.
    destruct (Prim2SF left) as [sl|sl| |[|] m e]; cbn in *; try discriminate; eauto;
      destruct sl; discriminate.
  - unfold SFleb in Hle. destruct (Prim2SF left); discriminate.
Qed.

(** The two encodings agree on every rectangle with finite edges, unless
    its right edge is at zero while its left edge is not (or its bottom
    edge is at zero while its top edge is not): the left/top/right/bottom
    encoding and the left/top/width/height encoding (width = right - left,
    height = bottom - top) normalize to the same canonical rectangle, whose
    [x] equals left, [y] equals top, [width] equals right - left and
    [height] equals bottom - top; so both encodings give the same mapped
    box, overlap percentage and selection decision. *)
Lemma frame_encodings_agree (left top right bottom : float) :
  finite left -> finite top -> finite right -> finite bottom ->
  JS.truthy right = true \/ JS.truthy left = false ->
  JS.truthy bottom = true \/ JS.truthy top = false ->
  let ltrb := frame_ltrb left top right bottom in
  let ltwh := frame_ltwh left top (right - left)%float (bottom - top)%float in
  normalizeFrame ltwh = normalizeFrame ltrb
  /\ (Rect.x (normalizeFrame ltrb) =? left)%float = true
  /\ (Rect.y (normalizeFrame ltrb) =? top)%float = true
  /\ (Rect.width (normalizeFrame ltrb) =? right - left)%float = true
  /\ (Rect.height (normalizeFrame ltrb) =? bottom - top)%float = true
  /\ (forall viewLayout imageSize pathPoints text,
        mapped_frame viewLayout imageSize ltwh = mapped_frame viewLayout imageSize ltrb
        /\ overlapPercentage viewLayout imageSize pathPoints ltwh
           = overlapPercentage viewLayout imageSize pathPoints ltrb
        /\ selects viewLayout imageSize pathPoints (TextElement.mk text (Some ltwh))
           = selects viewLayout imageSize pathPoints (TextElement.mk text (Some ltrb))).
Proof.
  intros Hl Ht Hr Hb Hcr Hcb ltrb ltwh. unfold finite in *.
  destruct (normalized_axis left right Hl Hr Hcr) as (Hx & Hw & Hw').
  destruct (normalized_axis top bottom Ht Hb Hcb) as (Hy & Hh & Hh').
  cbv zeta in Hx, Hw, Hw', Hy, Hh, Hh'.
  assert (H1 : normalizeFrame ltrb
               = Rect.mk (JS.num_or (Some left) (JS.num_or None 0%float))
                         (JS.num_or (Some top) (JS.num_or None 0%float))
                         (if JS.truthy right
                          then (right - JS.num_or (Some left) (JS.num_or None 0%float))%float
                          else 0%float)
                         (if JS.truthy bottom
                          then (bottom - JS.num_or (Some top) (JS.num_or None 0%float))%float
                          else 0%float)) by reflexivity.
  assert (H2 : normalizeFrame ltwh = normalizeFrame ltrb).
  { rewrite H1. unfold ltwh, normalizeFrame, frame_ltwh.
    cbn [Frame.left Frame.top Frame.width Frame.height Frame.x Frame.y Frame.right
         Frame.bottom]. now rewrite Hw, Hh. }
  split; [exact H2|]. rewrite H1. cbn [Rect.x Rect.y Rect.width Rect.height].
  split; [exact Hx|]. split; [exact Hy|]. split; [exact Hw'|]. split; [exact Hh'|].
  intros vl sz pts text. unfold selects, overlapPercentage, mapped_frame.
  cbn [TextElement.frame]. rewrite H2. repeat split.
Qed.

Lemma frame_encodings_agree_witness :
  (finite 10%float /\ finite 5%float /\ finite 40%float /\ finite 25%float
   /\ JS.truthy 40%float = true /\ JS.truthy 25%float = true)
  /\ normalizeFrame (frame_ltwh 10 5 (40 - 10) (25 - 5))
     = normalizeFrame (frame_ltrb 10 5 40 25).
Proof.
  split; [repeat split|].
  exact (proj1 (frame_encodings_agree 10 5 40 25 eq_refl eq_refl eq_refl eq_refl
                  (or_introl eq_refl) (or_introl eq_refl))).
Defined.

(** Outside the image the encodings can differ:
    [frame.right ? frame.right - x : 0] takes a right edge of [0] for a
    missing one, so the rectangle from [-10] to [0], left of the image,
    gets width [10] in the width/height encoding and width [0] in the
    right/bottom encoding, and a lasso around it selects the word in the
    first encoding only. *)
Lemma frame_encodings_differ_at_zero_right :
  let ltrb := frame_ltrb (-10) 0 0 5 in
  let ltwh := frame_ltwh (-10) 0 (0 - -10) (5 - 0) in
  let viewLayout := Layout.mk 400 800 0 0 in
  let imageSize := ImageSize.mk 400 800 in
  let pathPoints := parseSvgPath "M -10 0 L 0 5" in
  Rect.width (normalizeFrame ltwh) = 10%float
  /\ Rect.width (normalizeFrame ltrb) = 0%float
  /\ normalizeFrame ltwh <> normalizeFrame ltrb
  /\ selects viewLayout imageSize pathPoints (TextElement.mk "w" (Some ltwh)) = true
  /\ selects viewLayout imageSize pathPoints (TextElement.mk "w" (Some ltrb)) = false.
Proof.
  cbv zeta. split; [vm_compute; reflexivity|]. split; [vm_compute; reflexivity|].
  split; [|split; vm_compute; reflexivity].
  intros H. apply (f_equal (fun r => PrimFloat.is_zero (Rect.width r))) in H.
  vm_compute in H. discriminate.
Qed.

(** C3. For every OCR frame - a rectangle of the image, in pixels: its
    edges are finite numbers with [0 <= left <= right] and
    [0 <= top <= bottom] - the left/top/width/height encoding and the
    left/top/right/bottom encoding (width = right - left, height = bottom -
    top) normalize to the same canonical rectangle, whose [x] equals left,
    [y] equals top, [width] equals right - left and [height] equals bottom -
    top; so a rectangle given in either encoding produces the same mapped
    box, the same overlap percentage and the same selection decision. *)
Theorem frame_encodings_resolve_alike (left top right bottom : float) :
  finite left -> finite top -> finite right -> finite bottom ->
  (0 <=? left)%float = true -> (left <=? right)%float = true ->
  (0 <=? top)%float = true -> (top <=? bottom)%float = true ->
  let ltrb := frame_ltrb left top right bottom in
  let ltwh := frame_ltwh left top (right - left)%float (bottom - top)%float in
  normalizeFrame ltwh = normalizeFrame ltrb
  /\ (Rect.x (normalizeFrame ltrb) =? left)%float = true
  /\ (Rect.y (normalizeFrame ltrb) =? top)%float = true
  /\ (Rect.width (normalizeFrame ltrb) =? right - left)%float = true
  /\ (Rect.height (normalizeFrame ltrb) =? bottom - top)%float = true
  /\ (forall viewLayout imageSize pathPoints text,
        mapped_frame viewLayout imageSize ltwh = mapped_frame viewLayout imageSize ltrb
        /\ overlapPercentage viewLayout imageSize pathPoints ltwh
           = overlapPercentage viewLayout imageSize pathPoints ltrb
        /\ selects viewLayout imageSize pathPoints (TextElement.mk text (Some ltwh))
           = selects viewLayout imageSize pathPoints (TextElement.mk text (Some ltrb))).
Proof.
  intros Hl Ht Hr Hb Hl0 Hlr Ht0 Htb.
  apply frame_encodings_agree; try assumption.
  - exact (nonnegative_span_regular left right Hl0 Hlr).
  - exact (nonnegative_span_regular top bottom Ht0 Htb).
Qed.

Lemma frame_encodings_resolve_alike_witness :
  (finite 0%float /\ finite 5%float /\ finite 40%float /\ finite 25%float
   /\ (0 <=? 0)%float = true /\ (0 <=? 40)%float = true
   /\ (0 <=? 5)%float = true /\ (5 <=? 25)%float = true)
  /\ normalizeFrame (frame_ltwh 0 5 (40 - 0) (25 - 5))
     = normalizeFrame (frame_ltrb 0 5 40 25)
  /\ normalizeFrame (frame_ltwh 0 0 (0 - 0) (0 - 0))
     = normalizeFrame (frame_ltrb 0 0 0 0).
Proof.
  split; [repeat split|]. split.
  - exact (proj1 (frame_encodings_resolve_alike 0 5 40 25 eq_refl eq_refl eq_refl eq_refl
                    eq_refl eq_refl eq_refl eq_refl)).
  - exact (proj1 (frame_encodings_resolve_alike 0 0 0 0 eq_refl eq_refl eq_refl eq_refl
                    eq_refl eq_refl eq_refl eq_refl)).
Defined.

(** ** Selection session state *)

(** *** What the handlers leave alone *)

Lemma findIntersectingBlocks_frame s pathString p :
  paths (findIntersectingBlocks s pathString p) = paths p
  /\ isProcessing (findIntersectingBlocks s pathString p) = isProcessing p.
Proof.
  unfold findIntersectingBlocks. destruct (ocrResult s); [|auto].
  destruct (List.length (parseSvgPath pathString) <? 2)%nat; [auto|]. cbv zeta.
  destruct (0 <? List.length (collect_elements _ _ _ _))%nat; [|auto].
  destruct (0 <? List.length (filter _ _))%nat; auto.
Qed.

Lemma performOCR_paths b s p : paths (fst (performOCR b s p)) = paths p.
Proof.
  unfold performOCR.
  destruct (includes _ _ && _); [reflexivity|].
  destruct (isProcessing s); [reflexivity|]. now destruct (negb b).
Qed.

Lemma resume_paths c o p : paths (fst (resume c o p)) = paths p.
Proof.
  unfold resume. destruct (cy_stage c), o as [| | | | |[result|]|]; try reflexivity.
  cbv zeta. destruct (last_item _); [|reflexivity]. cbn [fst].
  unfold performOCR_finally. cbn [paths setOcrComplete setIsProcessing].
  now rewrite (proj1 (findIntersectingBlocks_frame _ _ _)).
Qed.

(** *** At most one lasso path per page *)

Lemma paths_on_filter q (keep : DrawPath.t -> bool) l :
  paths_on q (filter keep l) = filter keep (paths_on q l).
Proof.
  unfold paths_on. induction l as [|d l IH]; simpl; [reflexivity|].
  destruct (keep d) eqn:Ek, (page_eq (DrawPath.page d) q) eqn:Eq; simpl;
    rewrite ?Ek, ?Eq, IH; reflexivity.
Qed.

Lemma filter_length_le {A : Type} (f : A -> bool) (l : list A) :
  List.length (filter f l) <= List.length l.
Proof.
  induction l as [|a l IH]; simpl; [lia|]. destruct (f a); simpl; lia.
Qed.

Lemma at_most_one_filter (keep : DrawPath.t -> bool) l :
  at_most_one_per_page l -> at_most_one_per_page (filter keep l).
Proof.
  intros H q. rewrite paths_on_filter.
  eapply Nat.le_trans; [apply filter_length_le|apply H].
Qed.

Lemma page_eq_trans_neq a b q :
  page_eq a q = true -> page_eq b q = true -> page_neq a b = false.
Proof.
  unfold page_neq, page_eq. destruct a, b, q; try discriminate.
  rewrite !Z.eqb_eq. intros -> ->. now rewrite Z.eqb_refl.
Qed.

Lemma page_eq_other a b q :
  page_eq b q = false -> page_eq a q = true -> page_neq a b = true.
Proof.
  unfold page_neq, page_eq. destruct a, b, q; try discriminate; try reflexivity.
  rewrite Z.eqb_eq, Z.eqb_neq. intros Hb ->. apply negb_true_iff, Z.eqb_neq. congruence.
Qed.

(** The paths of another page pass the [path.page !== currentPage] filter. *)
Lemma paths_on_other_page cur q l :
  page_eq cur q = false ->
  paths_on q (filter (fun path => page_neq (DrawPath.page path) cur) l) = paths_on q l.
Proof.
  intros Hq. unfold paths_on. induction l as [|d l IH]; simpl; [reflexivity|].
  destruct (page_eq (DrawPath.page d) q) eqn:Ed.
  - rewrite (page_eq_other _ _ _ Hq Ed). simpl. now rewrite Ed, IH.
  - destruct (page_neq (DrawPath.page d) cur); simpl; rewrite ?Ed; exact IH.
Qed.

(** None of the current page's paths passes it. *)
Lemma paths_on_current_page cur q l :
  page_eq cur q = true ->
  paths_on q (filter (fun path => page_neq (DrawPath.page path) cur) l) = [].
Proof.
  intros Hq. unfold paths_on. induction l as [|d l IH]; simpl; [reflexivity|].
  destruct (page_neq (DrawPath.page d) cur) eqn:En; [|exact IH]. simpl.
  destruct (page_eq (DrawPath.page d) q) eqn:Ed; [|exact IH].
  rewrite (page_eq_trans_neq _ _ _ Ed Hq) in En. discriminate.
Qed.

Lemma handleTouchEnd_paths s :
  paths (handleTouchEnd s) = paths s
  \/ paths (handleTouchEnd s)
     = filter (fun path => page_neq (DrawPath.page path) (currentPage s)) (paths s)
       ++ [DrawPath.mk (currentPath s) (currentPage s)].
Proof.
  unfold handleTouchEnd. destruct (negb (isDrawingEnabled s) || negb (isDrawing s)); [auto|].
  cbv zeta. destruct (0 <? String.length (currentPath s))%nat; [|auto]. right.
  cbn [paths setCurrentPath].
  destruct (ocrComplete s), (ocrResult s);
    rewrite ?(proj1 (findIntersectingBlocks_frame _ _ _)); reflexivity.
Qed.

Lemma handleTouchEnd_paths_drawn s :
  isDrawingEnabled s = true -> isDrawing s = true -> currentPath s <> EmptyString ->
  paths (handleTouchEnd s)
  = filter (fun path => page_neq (DrawPath.page path) (currentPage s)) (paths s)
    ++ [DrawPath.mk (currentPath s) (currentPage s)].
Proof.
  intros He Hd Hp. unfold handleTouchEnd. rewrite He, Hd. cbn [negb orb]. cbv zeta.
  apply length_pos_nonempty in Hp. rewrite Hp. cbn [paths setCurrentPath].
  destruct (ocrComplete s), (ocrResult s);
    rewrite ?(proj1 (findIntersectingBlocks_frame _ _ _)); reflexivity.
Qed.

Lemma paths_on_app q l1 l2 : paths_on q (l1 ++ l2) = paths_on q l1 ++ paths_on q l2.
Proof. unfold paths_on. apply filter_app. Qed.

Lemma at_most_one_replace cur path l :
  at_most_one_per_page l ->
  at_most_one_per_page
    (filter (fun d => page_neq (DrawPath.page d) cur) l ++ [DrawPath.mk path cur]).
Proof.
  intros H q. rewrite paths_on_app, length_app.
  destruct (page_eq cur q) eqn:Eq.
  - rewrite (paths_on_current_page cur q l Eq).
    unfold paths_on. cbn [filter DrawPath.page]. rewrite Eq. simpl. lia.
  - rewrite (paths_on_other_page cur q l Eq).
    unfold paths_on at 2. cbn [filter DrawPath.page]. rewrite Eq. simpl.
    specialize (H q). lia.
Qed.

Lemma handleTouchEnd_at_most_one s :
  at_most_one_per_page (paths s) -> at_most_one_per_page (paths (handleTouchEnd s)).
Proof.
  intros H. destruct (handleTouchEnd_paths s) as [-> | ->]; [exact H|].
  now apply at_most_one_replace.
Qed.

Lemma at_most_one_nil : at_most_one_per_page [].
Proof. intros q. simpl. lia. Qed.

Lemma performOCR_outcome b s p :
  isProcessing p = isProcessing s ->
  (snd (performOCR b s p) = None /\ isProcessing (fst (performOCR b s p)) = isProcessing s)
  \/ (exists c, snd (performOCR b s p) = Some c
                /\ isProcessing s = false
                /\ isProcessing (fst (performOCR b s p)) = true).
Proof.
  intros Hp. unfold performOCR.
  destruct (includes _ _ && _); [left; auto|].
  destruct (isProcessing s) eqn:Es; [left; auto|].
  destruct (negb b); [left; auto|]. right. eexists. repeat split.
Qed.

Lemma resume_outcome c o p :
  (exists c', snd (resume c o p) = Some c'
              /\ isProcessing (fst (resume c o p)) = isProcessing p)
  \/ (snd (resume c o p) = None /\ isProcessing (fst (resume c o p)) = false).
Proof.
  unfold resume.
  destruct (cy_stage c), o as [| | | | |[result|]|]; cbv zeta; cbn [fst snd];
    try (left; eexists; split; reflexivity); right; split; reflexivity.
Qed.

Section SessionProperties.

Variable numberToString : float -> string.
Variable pdfPath : string.

Local Abbreviation step := (handle numberToString pdfPath).
Local Abbreviation exec := (run numberToString pdfPath).
Local Abbreviation reached := (reachable numberToString pdfPath).

Lemma run_snoc es e w : exec (es ++ [e]) w = step e (exec es w).
Proof. unfold run. now rewrite fold_left_app. Qed.

(** Induction over the events that lead to a reachable world. *)
Lemma reachable_ind (P : World -> Prop) :
  (forall windowWidth windowHeight st, P (initialWorld windowWidth windowHeight st)) ->
  (forall e w, P w -> P (step e w)) ->
  forall w, reached w -> P w.
Proof.
  intros Hinit Hstep w (ww & wh & st & es & ->).
  induction es as [|e es IH] using rev_ind.
  - apply Hinit.
  - rewrite run_snoc. apply Hstep. exact IH.
Qed.

Lemma handle_paths_cases e w :
  paths (state (step e w)) = paths (state w)
  \/ paths (state (step e w)) = []
  \/ paths (state (step e w)) = paths (handleTouchEnd (state w))
  \/ paths (state (step e w))
     = filter (fun path => page_neq (DrawPath.page path) (currentPage (state w)))
              (paths (state w)).
Proof.
  destruct e; cbn [handle state with_state with_call]; auto.
  - left. unfold toggleDrawingMode. cbv zeta.
    destruct (negb (negb (isDrawingEnabled (state w)))); [reflexivity|].
    destruct (negb (isDrawingEnabled (state w)) && negb (isProcessing (state w)));
      [|reflexivity].
    now rewrite performOCR_paths.
  - left. unfold handleTouchStart. now destruct (negb (isDrawingEnabled (state w))).
  - left. unfold handleTouchMove.
    now destruct (negb (isDrawingEnabled (state w)) || negb (isDrawing (state w))).
  - left. unfold handlePageChange. cbv zeta.
    now destruct (negb (totalPages (state w) =? noOfPages)%Z).
  - left. unfold loadLastViewedPage. cbv zeta.
    destruct (getItem PDF_FILE_PATH_KEY (storage w)); [|reflexivity].
    destruct (getItem LAST_VIEWED_PAGE_KEY (storage w)); [|reflexivity].
    now destruct (_ && _).
  - left. unfold analysisEffect. destruct (_ && _); [|reflexivity].
    now rewrite performOCR_paths.
  - left. destruct (nth_error (cycles w) i); [|reflexivity].
    cbn [state]. apply resume_paths.
Qed.

Lemma handle_at_most_one e w :
  at_most_one_per_page (paths (state w)) ->
  at_most_one_per_page (paths (state (step e w))).
Proof.
  intros H. destruct (handle_paths_cases e w) as [-> | [-> | [-> | ->]]].
  - exact H.
  - apply at_most_one_nil.
  - now apply handleTouchEnd_at_most_one.
  - now apply at_most_one_filter.
Qed.

(** C7. At most one lasso path exists per page at any time, and every
    operation preserves this: finalizing a stroke on the current page
    replaces that page's path and leaves the paths of all other pages as
    they were; clearing the current page's selection removes that page's
    path only. *)
Theorem one_lasso_path_per_page (w : World) :
  reached w ->
  let s := state w in
  at_most_one_per_page (paths s)
  /\ (forall e, at_most_one_per_page (paths (state (step e w))))
  /\ (forall q, page_eq (currentPage s) q = false ->
        paths_on q (paths (handleTouchEnd s)) = paths_on q (paths s)
        /\ paths_on q (paths (clearCurrentDrawing s)) = paths_on q (paths s))
  /\ (forall n, currentPage s = Page n ->
        isDrawingEnabled s = true -> isDrawing s = true -> currentPath s <> EmptyString ->
        paths_on (Page n) (paths (handleTouchEnd s)) = [DrawPath.mk (currentPath s) (Page n)])
  /\ (forall q, page_eq (currentPage s) q = true ->
        paths_on q (paths (clearCurrentDrawing s)) = []).
Proof.
  intros Hreach s.
  assert (Hinv : at_most_one_per_page (paths s)).
  { subst s. revert w Hreach. apply reachable_ind.
    - intros; apply at_most_one_nil.
    - intros e w IH. now apply handle_at_most_one. }
  split; [exact Hinv|]. split; [|split; [|split]].
  - intros e. now apply handle_at_most_one.
  - intros q Hq. split.
    + destruct (handleTouchEnd_paths s) as [-> | ->]; [reflexivity|].
      rewrite paths_on_app, (paths_on_other_page _ _ _ Hq).
      unfold paths_on at 2. cbn [filter DrawPath.page]. rewrite Hq. apply app_nil_r.
    + cbn [clearCurrentDrawing paths setSelectedText setIntersectingElements setCurrentPath
           setPaths]. now apply paths_on_other_page.
  - intros n Hn He Hd Hp. rewrite (handleTouchEnd_paths_drawn s He Hd Hp), Hn.
    rewrite paths_on_app, paths_on_current_page by (cbn; apply Z.eqb_refl).
    unfold paths_on. cbn [filter DrawPath.page page_eq]. now rewrite Z.eqb_refl.
  - intros q Hq.
    cbn [clearCurrentDrawing paths setSelectedText setIntersectingElements setCurrentPath
         setPaths]. now apply paths_on_current_page.
Qed.

End SessionProperties.

Lemma one_lasso_path_per_page_witness :
  reachable integer_coordinate_toString "/a.pdf" example_world
  /\ paths (state example_world) = [DrawPath.mk "M 0 0 L 100 20" (Page 1)]
  /\ at_most_one_per_page (paths (state example_world)).
Proof.
  assert (H : reachable integer_coordinate_toString "/a.pdf" example_world).
  { exists 400%float, 800%float, (fun _ => None), example_events. reflexivity. }
  split; [exact H|]. split; [vm_compute; reflexivity|].
  exact (proj1 (one_lasso_path_per_page integer_coordinate_toString "/a.pdf"
                  example_world H)).
Defined.

(** *** At most one analysis cycle in flight *)

Section AnalysisCycles.

Variable numberToString : float -> string.
Variable pdfPath : string.

Local Abbreviation step := (handle numberToString pdfPath).
Local Abbreviation reached := (reachable numberToString pdfPath).

Lemma with_call_invariant w (r : State * option Cycle) :
  one_cycle_invariant w ->
  (snd r = None /\ isProcessing (fst r) = isProcessing (state w))
  \/ (exists c, snd r = Some c /\ isProcessing (state w) = false
                /\ isProcessing (fst r) = true) ->
  one_cycle_invariant (with_call w r).
Proof.
  unfold one_cycle_invariant, with_call. cbn [state cycles].
  intros Hinv [[-> ->] | (c & -> & Hs & ->)]; cbn [option_list].
  - now rewrite app_nil_r.
  - rewrite Hs in Hinv. rewrite length_app, Hinv. reflexivity.
Qed.

Lemma with_state_invariant w p :
  one_cycle_invariant w -> isProcessing p = isProcessing (state w) ->
  one_cycle_invariant (with_state w p).
Proof.
  unfold one_cycle_invariant, with_state. cbn [state cycles]. now intros H ->.
Qed.

Lemma toggleDrawingMode_outcome b s :
  let r := toggleDrawingMode b s in
  (snd r = None /\ isProcessing (fst r) = isProcessing s)
  \/ (exists c, snd r = Some c /\ isProcessing s = false /\ isProcessing (fst r) = true).
Proof.
  unfold toggleDrawingMode. cbv zeta.
  destruct (negb (negb (isDrawingEnabled s))); [left; auto|].
  destruct (negb (isDrawingEnabled s) && negb (isProcessing s)); [|left; auto].
  apply performOCR_outcome. reflexivity.
Qed.

Lemma analysisEffect_outcome b s :
  let r := analysisEffect b s in
  (snd r = None /\ isProcessing (fst r) = isProcessing s)
  \/ (exists c, snd r = Some c /\ isProcessing s = false /\ isProcessing (fst r) = true).
Proof.
  unfold analysisEffect. cbv zeta. destruct (_ && _); [|left; auto].
  apply performOCR_outcome. reflexivity.
Qed.

Lemma handle_one_cycle e w : one_cycle_invariant w -> one_cycle_invariant (step e w).
Proof.
  intros Hinv. destruct e; cbn [handle].
  - now apply with_state_invariant.
  - exact Hinv.
  - apply with_call_invariant; [exact Hinv|apply toggleDrawingMode_outcome].
  - apply with_state_invariant; [exact Hinv|]. unfold handleTouchStart.
    now destruct (negb (isDrawingEnabled (state w))).
  - apply with_state_invariant; [exact Hinv|]. unfold handleTouchMove.
    now destruct (negb (isDrawingEnabled (state w)) || negb (isDrawing (state w))).
  - apply with_state_invariant; [exact Hinv|]. unfold handleTouchEnd.
    destruct (negb (isDrawingEnabled (state w)) || negb (isDrawing (state w)));
      [reflexivity|]. cbv zeta.
    destruct (0 <? String.length (currentPath (state w)))%nat; [|reflexivity].
    cbn [isProcessing setCurrentPath].
    destruct (ocrComplete (state w)), (ocrResult (state w));
      rewrite ?(proj2 (findIntersectingBlocks_frame _ _ _)); reflexivity.
  - now apply with_state_invariant.
  - now apply with_state_invariant.
  - now apply with_state_invariant.
  - now apply with_state_invariant.
  - unfold one_cycle_invariant in *. cbn [state cycles]. rewrite Hinv.
    unfold handlePageChange. cbv zeta.
    now destruct (negb (totalPages (state w) =? noOfPages)%Z).
  - apply with_state_invariant; [exact Hinv|]. unfold loadLastViewedPage. cbv zeta.
    destruct (getItem PDF_FILE_PATH_KEY (storage w)); [|reflexivity].
    destruct (getItem LAST_VIEWED_PAGE_KEY (storage w)); [|reflexivity].
    now destruct (_ && _).
  - apply with_call_invariant; [exact Hinv|apply analysisEffect_outcome].
  - destruct (nth_error (cycles w) i) as [c|] eqn:Ec; [|exact Hinv].
    unfold one_cycle_invariant in *. cbn [state cycles].
    assert (Hc : cycles w = [c] /\ i = 0 /\ isProcessing (state w) = true).
    { destruct (isProcessing (state w)), (cycles w) as [|c0 [|c1 l]]; try discriminate.
      - destruct i as [|i]; [|destruct i; discriminate]. now inversion Ec.
      - destruct i; discriminate. }
    destruct Hc as (Hc & -> & Hp). rewrite Hc. cbn [firstn skipn app].
    rewrite app_nil_r.
    destruct (resume_outcome c o (state w)) as [(c' & -> & ->) | [-> ->]].
    + now rewrite Hp.
    + reflexivity.
Qed.

Lemma reachable_one_cycle w : reached w -> one_cycle_invariant w.
Proof.
  apply (reachable_ind numberToString pdfPath).
  - reflexivity.
  - intros e w' IH. now apply handle_one_cycle.
Qed.

(** C8. At most one analysis cycle is ever in flight: a request made while
    a cycle is running ([isProcessing] true) is a no-op, and so is a request
    for a page already analyzed when re-analysis is not forced; whatever
    happens next, two cycles never run at once. *)
Theorem one_analysis_cycle_at_a_time (w : World) :
  reached w ->
  List.length (cycles w) <= 1
  /\ (isProcessing (state w) = true <-> cycles w <> [])
  /\ (forall e, List.length (cycles (step e w)) <= 1)
  /\ (isProcessing (state w) = true ->
      (forall p, performOCR (pdfViewRef w) (state w) p = (p, None))
      /\ cycles (step ToggleDrawingMode w) = cycles w
      /\ cycles (step AnalysisEffect w) = cycles w)
  /\ (includes (analyzedPages (state w)) (currentPage (state w)) = true ->
      isDrawingEnabled (state w) = false ->
      forall p, performOCR (pdfViewRef w) (state w) p = (p, None)).
Proof.
  intros Hreach. pose proof (reachable_one_cycle w Hreach) as Hinv.
  assert (Hle : forall w', one_cycle_invariant w' -> List.length (cycles w') <= 1).
  { intros w' H. unfold one_cycle_invariant in H. rewrite H.
    destruct (isProcessing (state w')); lia. }
  assert (Hbusy : isProcessing (state w) = true ->
                  forall p, performOCR (pdfViewRef w) (state w) p = (p, None)).
  { intros Hp p. unfold performOCR. rewrite Hp. now destruct (_ && _). }
  split; [now apply Hle|]. split; [|split; [|split]].
  - unfold one_cycle_invariant in Hinv.
    destruct (isProcessing (state w)), (cycles w); try discriminate; split; congruence.
  - intros e. apply Hle. now apply handle_one_cycle.
  - intros Hp. split; [now apply Hbusy|]. cbn [handle with_call cycles]. split.
    + unfold toggleDrawingMode. cbv zeta. rewrite Hp.
      destruct (negb (negb (isDrawingEnabled (state w)))); cbn [snd option_list];
        [apply app_nil_r|].
      rewrite andb_false_r. apply app_nil_r.
    + unfold analysisEffect. rewrite Hp. cbn [negb]. rewrite andb_false_r. cbn [andb].
      apply app_nil_r.
  - intros Ha Hd p. unfold performOCR. now rewrite Ha, Hd.
Qed.

End AnalysisCycles.

Lemma one_analysis_cycle_at_a_time_witness :
  reachable integer_coordinate_toString "/a.pdf" busy_world
  /\ isProcessing (state busy_world) = true
  /\ cycles (handle integer_coordinate_toString "/a.pdf" ToggleDrawingMode busy_world)
     = cycles busy_world
  /\ List.length (cycles busy_world) <= 1.
Proof.
  assert (H : reachable integer_coordinate_toString "/a.pdf" busy_world).
  { exists 400%float, 800%float, (fun _ => None), (firstn 6 example_events). reflexivity. }
  assert (Hp : isProcessing (state busy_world) = true) by (vm_compute; reflexivity).
  split; [exact H|]. split; [exact Hp|]. split.
  - exact (proj1 (proj2 (proj1 (proj2 (proj2 (proj2
      (one_analysis_cycle_at_a_time integer_coordinate_toString "/a.pdf" busy_world H))))
      Hp))).
  - exact (proj1 (one_analysis_cycle_at_a_time integer_coordinate_toString "/a.pdf"
                    busy_world H)).
Defined.

(** ** Page persistence *)

(** Reading back the digits that [toString] wrote. *)
Lemma span_digits_acc (u : Decimal.uint) : forall acc : positive,
  snd (JS.span_digits (NilEmpty.string_of_uint u)) = EmptyString
  /\ fold_left (fun a d => 10 * a + d)%Z (fst (JS.span_digits (NilEmpty.string_of_uint u)))
       (Zpos acc)
     = Zpos (Pos.of_uint_acc u acc).
Proof.
  induction u as [|u IH|u IH|u IH|u IH|u IH|u IH|u IH|u IH|u IH|u IH]; intros acc;
    [split; reflexivity|..];
    cbn [NilEmpty.string_of_uint JS.span_digits];
    match goal with
    | |- context [JS.is_digit ?c] => change (JS.is_digit c) with true; cbv iota
    end;
    destruct (JS.span_digits (NilEmpty.string_of_uint u)) as [ds rest] eqn:E;
    cbn [fst snd fold_left Pos.of_uint_acc];
    match goal with
    | |- context [JS.digit_value ?c] =>
        let v := eval vm_compute in (JS.digit_value c) in
        change (JS.digit_value c) with v
    end;
    match goal with
    | |- _ /\ fold_left _ _ ?a = Zpos (Pos.of_uint_acc _ ?b) =>
        specialize (IH b); cbn [fst snd] in IH; destruct IH as [IH1 IH2];
        split; [exact IH1|]; replace a with (Zpos b) by lia; exact IH2
    end.
Qed.

Lemma span_digits_uint (u : Decimal.uint) :
  snd (JS.span_digits (NilEmpty.string_of_uint u)) = EmptyString
  /\ JS.digits_value (fst (JS.span_digits (NilEmpty.string_of_uint u)))
     = Z.of_N (Pos.of_uint u)
  /\ (u <> Decimal.Nil -> fst (JS.span_digits (NilEmpty.string_of_uint u)) <> []).
Proof.
  unfold JS.digits_value.
  induction u as [|u IH|u IH|u IH|u IH|u IH|u IH|u IH|u IH|u IH|u IH];
    [repeat split; congruence|..];
    cbn [NilEmpty.string_of_uint JS.span_digits];
    match goal with
    | |- context [JS.is_digit ?c] => change (JS.is_digit c) with true; cbv iota
    end;
    try (destruct IH as (IH1 & IH2 & _);
         destruct (JS.span_digits (NilEmpty.string_of_uint u)) as [ds rest];
         cbn [fst snd fold_left Pos.of_uint] in *;
         repeat split; [exact IH1|exact IH2|discriminate]);
    clear IH;
    match goal with
    | |- context [JS.digit_value ?c] =>
        let k := eval vm_compute in (Z.to_pos (JS.digit_value c)) in
        pose proof (span_digits_acc u k) as [H1 H2];
        destruct (JS.span_digits (NilEmpty.string_of_uint u)) as [ds rest];
        cbn [fst snd fold_left Pos.of_uint] in *;
        repeat split; [exact H1|exact H2|discriminate]
    end.
Qed.

Lemma string_of_uint_head (u : Decimal.uint) :
  u <> Decimal.Nil ->
  JS.trimStart (NilEmpty.string_of_uint u) = NilEmpty.string_of_uint u
  /\ JS.read_sign (NilEmpty.string_of_uint u) = (false, NilEmpty.string_of_uint u).
Proof.
  destruct u; [congruence|..]; intros _; split; reflexivity.
Qed.

(** [parseInt(n.toString(), 10)] is [n]. *)
Lemma parseInt10_int_toString (n : Z) : JS.parseInt10 (JS.int_toString n) = Some n.
Proof.
  unfold JS.int_toString, JS.parseInt10. destruct n as [|p|p]; [reflexivity| |];
    cbn [Z.to_int NilEmpty.string_of_int];
    pose proof (DecimalPos.Unsigned.to_uint_nonnil p) as Hnil;
    destruct (string_of_uint_head _ Hnil) as [Ht Hs];
    destruct (span_digits_uint (Pos.to_uint p)) as (H1 & H2 & H3);
    specialize (H3 Hnil); rewrite DecimalPos.Unsigned.of_to in H2.
  - rewrite Ht, Hs.
    destruct (JS.span_digits (NilEmpty.string_of_uint (Pos.to_uint p))) as [ds rest].
    cbn [fst snd] in *. destruct ds; [congruence|]. cbv beta iota zeta. now rewrite H2.
  - change (JS.trimStart (String "-" (NilEmpty.string_of_uint (Pos.to_uint p))))
      with (String "-" (NilEmpty.string_of_uint (Pos.to_uint p))).
    cbn [JS.read_sign].
    destruct (JS.span_digits (NilEmpty.string_of_uint (Pos.to_uint p))) as [ds rest].
    cbn [fst snd] in *. destruct ds; [congruence|]. cbv beta iota zeta. now rewrite H2.
Qed.

Lemma page_toString_safe (n : Z) :
  JS.isSafeInteger n = true -> page_toString (Page n) = JS.int_toString n.
Proof. intros H. unfold page_toString, JS.integer_Number_toString. now rewrite H. Qed.

Lemma page_parseInt_toString (n : Z) :
  JS.isSafeInteger n = true -> page_parseInt (page_toString (Page n)) = Page n.
Proof.
  intros H. rewrite (page_toString_safe n H). unfold page_parseInt.
  now rewrite parseInt10_int_toString, H.
Qed.

Lemma int_toString_nonempty (n : Z) : (0 <? String.length (JS.int_toString n))%nat = true.
Proof.
  unfold JS.int_toString. destruct n as [|p|p]; [reflexivity| |];
    cbn [Z.to_int NilEmpty.string_of_int];
    [|reflexivity].
  pose proof (DecimalPos.Unsigned.to_uint_nonnil p) as Hnil.
  destruct (Pos.to_uint p); [congruence|..]; reflexivity.
Qed.

(** What [loadLastViewedPage] finds after [saveCurrentPageState]: the page
    string under the page key, and under the path key the saved path, which
    alone decides whether the page is restored. *)
Lemma loadLastViewedPage_saved (st : Storage) (page : PageNumber)
    (saved opened : string) (q : State) :
  loadLastViewedPage opened (saveCurrentPageState page saved st) q
  = if String.eqb saved opened && Nat.ltb 0 (String.length (page_toString page))
    then setInitialPage (page_parseInt (page_toString page))
           (setCurrentPage (page_parseInt (page_toString page)) q)
    else q.
Proof.
  unfold loadLastViewedPage, saveCurrentPageState, getItem, setItem. cbv zeta.
  change (String.eqb PDF_FILE_PATH_KEY PDF_FILE_PATH_KEY) with true.
  change (String.eqb LAST_VIEWED_PAGE_KEY PDF_FILE_PATH_KEY) with false.
  change (String.eqb LAST_VIEWED_PAGE_KEY LAST_VIEWED_PAGE_KEY) with true.
  reflexivity.
Qed.

(** Beyond the safe integers the page does not survive the store: page
    [10^21] is written ["1e+21"], which [parseInt] reads as page 1. *)
Lemma page_beyond_safe_integers_not_restored :
  page_toString (Page (10 ^ 21)) = "1e+21"%string
  /\ page_parseInt "1e+21" = Page 1
  /\ JS.isSafeInteger (10 ^ 21) = false.
Proof. vm_compute. repeat split. Qed.

(** C9. Page restoration at start-up applies if and only if the persisted
    document path equals the path of the document being opened: after page
    [n] of [savedPath] was persisted, opening [savedPath] restores the
    current and the initial page to [n] (a page number being an integer
    that [toString] writes digit by digit, at most [2^53 - 1]), and opening
    another document restores nothing; with ["/a.pdf"] at page 5 persisted,
    opening ["/a.pdf"] restores page 5 and opening ["/b.pdf"] starts at
    page 1. *)
Theorem page_restored_iff_same_document
    (st : Storage) (n : Z) (savedPath pdfPath : string) (p : State) :
  let persisted := saveCurrentPageState (Page n) savedPath st in
  let p' := loadLastViewedPage pdfPath persisted p in
  (savedPath = pdfPath -> JS.isSafeInteger n = true ->
     p' = setInitialPage (Page n) (setCurrentPage (Page n) p)
     /\ currentPage p' = Page n /\ initialPage p' = Page n)
  /\ (savedPath <> pdfPath -> p' = p)
  /\ (forall windowWidth windowHeight,
        let first := initialState windowWidth windowHeight in
        let persisted5 := saveCurrentPageState (Page 5) "/a.pdf" st in
        currentPage (loadLastViewedPage "/a.pdf" persisted5 first) = Page 5
        /\ initialPage (loadLastViewedPage "/a.pdf" persisted5 first) = Page 5
        /\ loadLastViewedPage "/b.pdf" persisted5 first = first
        /\ currentPage first = Page 1).
Proof.
  intros persisted p'.
  assert (Hload : forall m saved opened q,
            JS.isSafeInteger m = true ->
            loadLastViewedPage opened (saveCurrentPageState (Page m) saved st) q
            = if String.eqb saved opened
              then setInitialPage (Page m) (setCurrentPage (Page m) q) else q).
  { intros m saved opened q Hm. rewrite loadLastViewedPage_saved.
    rewrite (page_parseInt_toString m Hm), (page_toString_safe m Hm).
    now rewrite int_toString_nonempty, andb_true_r. }
  split; [|split].
  - intros -> Hn. unfold p', persisted. rewrite (Hload _ _ _ _ Hn), String.eqb_refl.
    repeat split.
  - intros Hne. unfold p', persisted. rewrite loadLastViewedPage_saved.
    destruct (String.eqb_spec savedPath pdfPath); [contradiction|reflexivity].
  - intros ww wh first persisted5. unfold persisted5.
    rewrite !(Hload 5%Z _ _ _ eq_refl). repeat split.
Qed.

Lemma page_restored_iff_same_document_witness :
  let persisted := saveCurrentPageState (Page 5) "/a.pdf" (fun _ => None) in
  JS.isSafeInteger 5 = true
  /\ currentPage (loadLastViewedPage "/a.pdf" persisted (initialState 400 800)) = Page 5
  /\ loadLastViewedPage "/b.pdf" persisted (initialState 400 800) = initialState 400 800.
Proof.
  cbv zeta. split; [reflexivity|]. split.
  - exact (proj1 (proj2 (proj1
      (page_restored_iff_same_document (fun _ => None) 5 "/a.pdf" "/a.pdf"
         (initialState 400 800)) eq_refl eq_refl))).
  - refine (proj1 (proj2
      (page_restored_iff_same_document (fun _ => None) 5 "/a.pdf" "/b.pdf"
         (initialState 400 800))) _).
    discriminate.
Defined.
(** * Further properties of the screen *)

(** ** Path geometry parser *)

Lemma parse_parts_not_nan (n : nat) : forall parts, List.length parts <= n ->
  Forall (fun pt => PrimFloat.is_nan (Point.x pt) = false /\ PrimFloat.is_nan (Point.y pt) = false)
         (parse_parts parts).
Proof.
  induction n as [|n IH]; intros parts Hn.
  - destruct parts; [constructor|simpl in Hn; lia].
  - destruct parts as [|part rest]; [constructor|]. simpl in Hn.
    cbn [parse_parts]. destruct (is_command part).
    + destruct rest as [|sx [|sy rest']]; try (apply IH; simpl in *; lia).
      cbv zeta. unfold JS.isNaN.
      destruct (PrimFloat.is_nan (JS.parseFloat sx)) eqn:Ex;
        destruct (PrimFloat.is_nan (JS.parseFloat sy)) eqn:Ey; cbn [negb andb];
        try (apply IH; simpl in *; lia).
      constructor; [now split|apply IH; simpl in *; lia].
    + apply IH. lia.
Qed.

Lemma parse_parts_length (n : nat) : forall parts, List.length parts <= n ->
  3 * List.length (parse_parts parts) <= List.length parts
  /\ List.length (parse_parts parts) <= List.length (filter is_command parts).
Proof.
  induction n as [|n IH]; intros parts Hn.
  - destruct parts; [simpl; lia|simpl in Hn; lia].
  - destruct parts as [|part rest]; [simpl; lia|]. simpl in Hn.
    cbn [parse_parts filter]. destruct (is_command part).
    + destruct rest as [|sx [|sy rest']].
      * simpl; lia.
      * destruct (IH [sx]) as [H1 H2]; [simpl in *; lia|]. cbn [List.length] in *. lia.
      * cbv zeta.
        assert (Hf : List.length (filter is_command rest')
                     <= List.length (filter is_command (sx :: sy :: rest'))).
        { cbn [filter]. destruct (is_command sx), (is_command sy); cbn [List.length]; lia. }
        destruct (IH rest') as [H1 H2]; [simpl in *; lia|].
        destruct (negb _ && negb _); cbn [List.length] in *; lia.
    + destruct (IH rest) as [H1 H2]; [lia|]. cbn [List.length]. lia.
Qed.

(** X1. Every point the parser returns is a pair of numbers: a command
    whose coordinates do not both parse is dropped, so no parsed point has a
    NaN coordinate. *)
Theorem parseSvgPath_points_are_numbers (pathString : string) (pt : Point.t) :
  In pt (parseSvgPath pathString) ->
  PrimFloat.is_nan (Point.x pt) = false /\ PrimFloat.is_nan (Point.y pt) = false.
Proof.
  intros H. unfold parseSvgPath in H.
  pose proof (parse_parts_not_nan _ (JS.split_separators (JS.trim pathString)) (le_n _)) as HF.
  rewrite Forall_forall in HF. exact (HF pt H).
Qed.

Lemma parseSvgPath_points_are_numbers_witness :
  In (Point.mk 100 20) (parseSvgPath "M 0 0 L 100 20")
  /\ PrimFloat.is_nan (Point.x (Point.mk 100 20)) = false.
Proof.
  assert (H : In (Point.mk 100 20) (parseSvgPath "M 0 0 L 100 20")).
  { vm_compute. right. left. reflexivity. }
  split; [exact H|].
  exact (proj1 (parseSvgPath_points_are_numbers "M 0 0 L 100 20" (Point.mk 100 20) H)).
Defined.

(** X2. A point costs one command and two further pieces: the parser
    returns at most a third as many points as the path string has pieces,
    and at most as many as it has [M] and [L] pieces; a string without a
    command has no points. *)
Theorem parseSvgPath_point_count (pathString : string) :
  let parts := JS.split_separators (JS.trim pathString) in
  3 * List.length (parseSvgPath pathString) <= List.length parts
  /\ List.length (parseSvgPath pathString) <= List.length (filter is_command parts).
Proof. intros parts. exact (parse_parts_length _ parts (le_n _)). Qed.

(** *** A stroke and its points *)

Lemma separator_free_app (a b : string) :
  separator_free (a ++ b) = separator_free a && separator_free b.
Proof. induction a as [|c a IH]; simpl; [reflexivity|]. now rewrite IH, andb_assoc. Qed.

Lemma string_app_assoc (a b c : string) : ((a ++ b) ++ c)%string = (a ++ (b ++ c))%string.
Proof. induction a; simpl; congruence. Qed.

Lemma split_from_piece (t : string) : forall cur in_run rest,
  separator_free t = true ->
  JS.split_from cur in_run (t ++ rest)
  = match t with
    | EmptyString => JS.split_from cur in_run rest
    | _ => JS.split_from (cur ++ t) false rest
    end.
Proof.
  induction t as [|c t IH]; intros cur in_run rest Ht; [reflexivity|].
  simpl in Ht. apply andb_true_iff in Ht as [Hc Ht].
  apply negb_true_iff in Hc. cbn [append JS.split_from]. rewrite Hc.
  rewrite IH by exact Ht.
  destruct t as [|c' t'].
  - reflexivity.
  - now rewrite string_app_assoc.
Qed.

Lemma is_token_spec (t : string) :
  is_token t = true <-> t <> EmptyString /\ separator_free t = true.
Proof.
  unfold is_token. rewrite andb_true_iff, length_pos_nonempty. tauto.
Qed.

Lemma string_app_nil_r (s : string) : (s ++ "")%string = s.
Proof. induction s; simpl; congruence. Qed.

(** [split] undoes [join(" ")] on pieces without separators. *)
Lemma split_join (t : string) (ts : list string) : forall in_run,
  Forall (fun t => is_token t = true) (t :: ts) ->
  JS.split_from EmptyString in_run (JS.join " " (t :: ts)) = t :: ts.
Proof.
  revert t. induction ts as [|t' ts IH]; intros t in_run H.
  - apply Forall_inv in H. apply is_token_spec in H as [Hne Hs].
    unfold JS.join. cbn [concat]. rewrite <- (string_app_nil_r t) at 1.
    rewrite split_from_piece by exact Hs.
    destruct t; [congruence|]. reflexivity.
  - pose proof (Forall_inv H) as Ht. apply is_token_spec in Ht as [Hne Hs].
    apply Forall_inv_tail in H.
    unfold JS.join. cbn [concat]. fold (JS.join " " (t' :: ts)).
    rewrite split_from_piece by exact Hs.
    destruct t as [|c t]; [congruence|].
    cbn [append JS.split_from]. 
    change (JS.is_separator " ") with true. cbv iota.
    f_equal. apply IH. exact H.
Qed.

Lemma trimStart_token (t rest : string) :
  is_token t = true -> JS.trimStart (t ++ rest) = (t ++ rest)%string.
Proof.
  intros H. apply is_token_spec in H as [Hne Hs].
  destruct t as [|c t]; [congruence|]. simpl in Hs.
  apply andb_true_iff in Hs as [Hc _]. apply negb_true_iff in Hc.
  unfold JS.is_separator in Hc. apply orb_false_iff in Hc as [Hc _].
  cbn [append JS.trimStart]. now rewrite Hc.
Qed.

Lemma trimEnd_piece (t : string) :
  separator_free t = true -> JS.trimEnd t = t.
Proof.
  induction t as [|c t IH]; intros Hs; [reflexivity|].
  simpl in Hs. apply andb_true_iff in Hs as [Hc Hs]. apply negb_true_iff in Hc.
  unfold JS.is_separator in Hc. apply orb_false_iff in Hc as [Hc _].
  cbn [JS.trimEnd]. rewrite (IH Hs). destruct t; [now rewrite Hc|reflexivity].
Qed.

Lemma trimEnd_token (s t : string) :
  is_token t = true -> JS.trimEnd (s ++ t) = (s ++ t)%string.
Proof.
  intros H. apply is_token_spec in H as [Hne Hs].
  induction s as [|c s IH]; [now apply trimEnd_piece|].
  cbn [append JS.trimEnd]. rewrite IH.
  destruct (s ++ t)%string eqn:E; [|reflexivity].
  destruct s; simpl in E; [congruence|discriminate].
Qed.

Lemma join_last (ts : list string) : forall t,
  Forall (fun t => is_token t = true) (t :: ts) ->
  exists s u, JS.join " " (t :: ts) = (s ++ u)%string /\ is_token u = true.
Proof.
  induction ts as [|t' ts IH]; intros t H.
  - exists EmptyString, t. split; [reflexivity|]. now apply Forall_inv in H.
  - destruct (IH t' (Forall_inv_tail H)) as (s & u & E & Hu).
    exists (t ++ " " ++ s)%string, u. split; [|exact Hu].
    unfold JS.join in *. cbn [concat] in *. rewrite E.
    now rewrite !string_app_assoc.
Qed.

Lemma trim_join (t : string) (ts : list string) :
  Forall (fun t => is_token t = true) (t :: ts) ->
  JS.trim (JS.join " " (t :: ts)) = JS.join " " (t :: ts).
Proof.
  intros H. unfold JS.trim.
  assert (Hs : JS.trimStart (JS.join " " (t :: ts)) = JS.join " " (t :: ts)).
  { unfold JS.join. destruct ts as [|t' ts]; cbn [concat].
    - rewrite <- (string_app_nil_r t). apply trimStart_token. now apply Forall_inv in H.
    - apply trimStart_token. now apply Forall_inv in H. }
  rewrite Hs. destruct (join_last ts t H) as (s & u & E & Hu).
  rewrite E. now apply trimEnd_token.
Qed.

Lemma split_trim_join (t : string) (ts : list string) :
  Forall (fun t => is_token t = true) (t :: ts) ->
  JS.split_separators (JS.trim (JS.join " " (t :: ts))) = t :: ts.
Proof.
  intros H. rewrite trim_join by exact H. now apply split_join.
Qed.

(** ** Infinite and NaN coordinates *)

Section NonFinite.

Local Open Scope float_scope.

Lemma nonfinite_spec x :
  is_finite x = false <-> Prim2SF x = S754_nan \/ exists s, Prim2SF x = S754_infinity s.
Proof.
  destruct (is_finite x) eqn:E.
  - apply is_finite_spec in E. split; [discriminate|].
    intros [H | [s H]]; destruct E as [[? E] | (? & ? & ? & E)]; congruence.
  - split; [intros _|reflexivity].
    destruct (Prim2SF x) as [s|s| |s m e] eqn:Ex; eauto.
    + assert (is_finite x = true) by (apply is_finite_spec; eauto). congruence.
    + assert (is_finite x = true) by (apply is_finite_spec; eauto 6). congruence.
Qed.

Lemma mul_nonfinite_l a b : is_finite a = false -> is_finite (a * b) = false.
Proof.
  rewrite !nonfinite_spec, mul_spec. unfold SF64mul.
  intros [-> | [s ->]]; destruct (Prim2SF b); cbn; eauto.
Qed.

Lemma mul_nonfinite_r a b : is_finite b = false -> is_finite (a * b) = false.
Proof.
  rewrite !nonfinite_spec, mul_spec. unfold SF64mul.
  intros [-> | [s ->]]; destruct (Prim2SF a); cbn; eauto.
Qed.

Lemma add_nonfinite_l a b : is_finite a = false -> is_finite (a + b) = false.
Proof.
  rewrite !nonfinite_spec, add_spec. unfold SF64add.
  intros [-> | [s ->]]; destruct (Prim2SF b) as [s'|s'| |s' m e]; cbn; eauto.
  destruct s, s'; cbn; eauto.
Qed.

Lemma sub_nonfinite_l a b : is_finite a = false -> is_finite (a - b) = false.
Proof.
  rewrite !nonfinite_spec, sub_spec. unfold SF64sub.
  intros [-> | [s ->]]; destruct (Prim2SF b) as [s'|s'| |s' m e]; cbn; eauto.
  destruct s, s'; cbn; eauto.
Qed.

Lemma div_zero_nonfinite a d : is_zero d = true -> is_finite (a / d) = false.
Proof.
  rewrite nonfinite_spec, is_zero_spec, div_spec. unfold SF64div.
  intros [s ->]. destruct (Prim2SF a); cbn; eauto.
Qed.

Lemma div_nonfinite_falsy a d : is_finite d = false -> JS.truthy (a / d) = false.
Proof.
  rewrite nonfinite_spec, falsy_spec, div_spec. unfold SF64div.
  intros [-> | [s ->]]; destruct (Prim2SF a); cbn; eauto.
Qed.

Lemma falsy_below_threshold x : JS.truthy x = false -> JS.geb x OVERLAP_THRESHOLD = false.
Proof.
  rewrite falsy_spec. unfold JS.geb. rewrite leb_spec.
  intros [[s ->] | ->]; [destruct s|]; reflexivity.
Qed.

Lemma min_from_nonfinite l lo :
  is_finite lo = false -> Forall (fun n => is_finite n = false) l ->
  is_finite (JS.min_from lo l) = false.
Proof.
  intros Hlo Hl. destruct (min_from_sound l lo) as [-> | [H | H]]; [exact Hlo| |].
  - rewrite Forall_forall in Hl. now apply Hl.
  - now rewrite (min_from_nan l lo H).
Qed.

Lemma max_from_nonfinite l hi :
  is_finite hi = false -> Forall (fun n => is_finite n = false) l ->
  is_finite (JS.max_from hi l) = false.
Proof.
  intros Hhi Hl. destruct (max_from_sound l hi) as [-> | [H | H]]; [exact Hhi| |].
  - rewrite Forall_forall in Hl. now apply Hl.
  - now rewrite (max_from_nan l hi H).
Qed.

(** The extent of a word along an axis whose scale factor is infinite or
    NaN is itself infinite or NaN. *)
Lemma nonfinite_axis (a w scale : float) :
  is_finite scale = false ->
  let lo := a * scale in
  let hi := a * scale + w * scale in
  is_finite (JS.Math_max [lo; hi; lo; hi] - JS.Math_min [lo; hi; lo; hi]) = false
  /\ is_finite (JS.Math_max [lo; lo; hi; hi] - JS.Math_min [lo; lo; hi; hi]) = false.
Proof.
  intros Hs lo hi.
  assert (Hlo : is_finite lo = false) by now apply mul_nonfinite_r.
  assert (Hhi : is_finite hi = false) by now apply add_nonfinite_l.
  split; apply sub_nonfinite_l; apply max_from_nonfinite; try reflexivity;
    repeat (apply Forall_cons; [assumption|]); apply Forall_nil.
Qed.

Lemma unmeasured_percentage vl sz pts frame :
  is_zero (ImageSize.width sz) = true \/ is_zero (ImageSize.height sz) = true ->
  JS.geb (overlapPercentage vl sz pts frame) OVERLAP_THRESHOLD = false.
Proof.
  intros Hz. unfold overlapPercentage, mapCoordinates. cbv zeta.
  unfold calculateOverlapArea, wordPoints_of. cbn [map Point.x Point.y Rect.x Rect.y Rect.width Rect.height].
  match goal with |- JS.geb (if ?c then _ else _) _ = _ => destruct c end; [reflexivity|].
  apply falsy_below_threshold, mul_falsy_l, div_nonfinite_falsy.
  destruct Hz as [Hz | Hz].
  - apply mul_nonfinite_l.
    apply (nonfinite_axis (Rect.x (normalizeFrame frame)) (Rect.width (normalizeFrame frame))
             (Layout.width vl / ImageSize.width sz)).
    now apply div_zero_nonfinite.
  - apply mul_nonfinite_r.
    apply (nonfinite_axis (Rect.y (normalizeFrame frame)) (Rect.height (normalizeFrame frame))
             (Layout.height vl / ImageSize.height sz)).
    now apply div_zero_nonfinite.
Qed.

End NonFinite.

(** X3. While the page image has no width or no height (as before the first
    measurement), the scale is infinite or NaN and the engine selects no
    word, whatever the lasso. *)
Theorem unmeasured_image_selects_nothing
    (s p : State) (pathString : string) (ocr : TextRecognitionResult.t) :
  PrimFloat.is_zero (ImageSize.width (imageSize s)) = true
  \/ PrimFloat.is_zero (ImageSize.height (imageSize s)) = true ->
  (forall pathPoints element,
     selects (viewLayout s) (imageSize s) pathPoints element = false)
  /\ (ocrResult s = Some ocr ->
      2 <= List.length (parseSvgPath pathString) ->
      intersectingElements (findIntersectingBlocks s pathString p) = []
      /\ selectedText (findIntersectingBlocks s pathString p) = selectedText p).
Proof.
  intros Hz.
  assert (Hsel : forall pathPoints element,
            selects (viewLayout s) (imageSize s) pathPoints element = false).
  { intros pts element. unfold selects. destruct (TextElement.frame element) as [frame|];
      [|reflexivity].
    rewrite <- overlapPercentage_overlap_percent.
    now apply unmeasured_percentage. }
  split; [exact Hsel|]. intros Hocr Hlen.
  assert (Hcol : collect_elements (viewLayout s) (imageSize s) (parseSvgPath pathString) ocr
                 = []).
  { rewrite collect_elements_positions.
    induction (positions ocr) as [|pe l IH]; [reflexivity|]. cbn [filter].
    now rewrite Hsel. }
  split.
  - now rewrite (findIntersectingBlocks_elements s p pathString ocr Hocr Hlen).
  - rewrite (findIntersectingBlocks_text s p pathString ocr Hocr Hlen). now rewrite Hcol.
Qed.

Lemma unmeasured_image_selects_nothing_witness :
  selects (viewLayout (initialState 400 800)) (imageSize (initialState 400 800))
          [Point.mk 0 0; Point.mk 100 20]
          (TextElement.mk "Hello" (Some (frame_ltwh 0 0 100 20))) = false.
Proof.
  refine (proj1 (unmeasured_image_selects_nothing (initialState 400 800) (initialState 400 800)
                   "M 0 0 L 100 20" example_ocr _) _ _).
  left. reflexivity.
Defined.

(** ** The lasso's bounding box *)

Lemma Forall_not_nan_Exists (l : list float) :
  Forall (fun n => PrimFloat.is_nan n = false) l ->
  ~ Exists (fun n => PrimFloat.is_nan n = true) l.
Proof.
  intros H Hex. apply Exists_exists in Hex. destruct Hex as [n [Hin Hn]].
  rewrite Forall_forall in H. rewrite (H n Hin) in Hn. discriminate.
Qed.

Lemma Math_min_not_nan (l : list float) :
  Forall (fun n => PrimFloat.is_nan n = false) l -> PrimFloat.is_nan (JS.Math_min l) = false.
Proof.
  intros H. unfold JS.Math_min.
  destruct (min_from_sound l PrimFloat.infinity) as [-> | [Hin | Hex]].
  - reflexivity.
  - rewrite Forall_forall in H. now apply H.
  - now apply Forall_not_nan_Exists in H.
Qed.

Lemma Math_max_not_nan (l : list float) :
  Forall (fun n => PrimFloat.is_nan n = false) l -> PrimFloat.is_nan (JS.Math_max l) = false.
Proof.
  intros H. unfold JS.Math_max.
  destruct (max_from_sound l PrimFloat.neg_infinity) as [-> | [Hin | Hex]].
  - reflexivity.
  - rewrite Forall_forall in H. now apply H.
  - now apply Forall_not_nan_Exists in H.
Qed.

Lemma not_ltb_leb (a b : float) :
  PrimFloat.is_nan a = false -> PrimFloat.is_nan b = false ->
  (b <? a)%float = false -> (a <=? b)%float = true.
Proof.
  intros Ha Hb H. rewrite leb_spec. apply SFleb_SFltb.
  rewrite <- ltb_spec. split; [exact H|].
  split; now apply is_nan_false_spec.
Qed.

Lemma Math_min_le (l : list float) (n : float) :
  Forall (fun n => PrimFloat.is_nan n = false) l -> In n l ->
  (JS.Math_min l <=? n)%float = true.
Proof.
  intros H Hin. pose proof (Math_min_not_nan l H) as Hm.
  destruct (min_from_lower l PrimFloat.infinity eq_refl Hm) as [_ Hl].
  rewrite Forall_forall in H, Hl.
  apply not_ltb_leb; [exact Hm|now apply H|now apply Hl].
Qed.

Lemma Math_max_ge (l : list float) (n : float) :
  Forall (fun n => PrimFloat.is_nan n = false) l -> In n l ->
  (n <=? JS.Math_max l)%float = true.
Proof.
  intros H Hin. pose proof (Math_max_not_nan l H) as Hm.
  destruct (max_from_upper l PrimFloat.neg_infinity eq_refl Hm) as [_ Hl].
  rewrite Forall_forall in H, Hl.
  apply not_ltb_leb; [now apply H|exact Hm|now apply Hl].
Qed.

(** X4. The box the engine spans over a lasso contains every point of the
    lasso: for each point parsed from the path string, the box's minimum is
    at most the point's coordinate and its maximum at least, on both axes
    (so none of the four bounds is NaN). *)
Theorem lasso_box_contains_its_points (pathString : string) (pt : Point.t) :
  In pt (parseSvgPath pathString) ->
  let box := boundingBox (parseSvgPath pathString) in
  (Box.minX box <=? Point.x pt)%float = true
  /\ (Point.x pt <=? Box.maxX box)%float = true
  /\ (Box.minY box <=? Point.y pt)%float = true
  /\ (Point.y pt <=? Box.maxY box)%float = true.
Proof.
  intros Hin box. unfold box, boundingBox. cbn [Box.minX Box.maxX Box.minY Box.maxY].
  pose proof (parse_parts_not_nan _ (JS.split_separators (JS.trim pathString)) (le_n _)) as HF.
  fold (parseSvgPath pathString) in HF.
  assert (Hx : Forall (fun n => PrimFloat.is_nan n = false)
                      (map Point.x (parseSvgPath pathString))).
  { apply Forall_map. eapply Forall_impl; [|exact HF]. now intros a [H _]. }
  assert (Hy : Forall (fun n => PrimFloat.is_nan n = false)
                      (map Point.y (parseSvgPath pathString))).
  { apply Forall_map. eapply Forall_impl; [|exact HF]. now intros a [_ H]. }
  repeat split.
  - apply Math_min_le; [exact Hx|now apply in_map].
  - apply Math_max_ge; [exact Hx|now apply in_map].
  - apply Math_min_le; [exact Hy|now apply in_map].
  - apply Math_max_ge; [exact Hy|now apply in_map].
Qed.

Lemma lasso_box_contains_its_points_witness :
  In (Point.mk 100 20) (parseSvgPath "M 0 0 L 100 20")
  /\ (Box.minX (boundingBox (parseSvgPath "M 0 0 L 100 20")) <=? 100)%float = true.
Proof.
  assert (H : In (Point.mk 100 20) (parseSvgPath "M 0 0 L 100 20")).
  { vm_compute. right. left. reflexivity. }
  split; [exact H|].
  exact (proj1 (lasso_box_contains_its_points "M 0 0 L 100 20" (Point.mk 100 20) H)).
Defined.

(** ** Frame normalization: the origin *)

Lemma num_or_regular (a : option float) (d : float) :
  PrimFloat.is_nan d = false -> JS.is_neg_zero d = false ->
  PrimFloat.is_nan (JS.num_or a d) = false /\ JS.is_neg_zero (JS.num_or a d) = false.
Proof.
  intros Hd Hz. unfold JS.num_or. destruct a as [v|]; [|now split].
  destruct (JS.truthy v) eqn:Ht; [|now split].
  unfold JS.truthy in Ht. apply negb_true_iff, orb_false_iff in Ht. destruct Ht as [Hn Hzero].
  split; [exact Hn|].
  destruct (JS.is_neg_zero v) eqn:E; [|reflexivity].
  apply is_neg_zero_is_zero in E. congruence.
Qed.

(** X5. Whatever the recognizer reports, the origin the engine works with
    is a number: the normalized [x] and [y] of a frame are never NaN and
    never [-0], because a missing, zero or NaN [left]/[top] falls back to
    [x]/[y] and then to [0]. *)
Theorem normalized_origin_is_a_number (frame : Frame.t) :
  let r := normalizeFrame frame in
  PrimFloat.is_nan (Rect.x r) = false /\ JS.is_neg_zero (Rect.x r) = false
  /\ PrimFloat.is_nan (Rect.y r) = false /\ JS.is_neg_zero (Rect.y r) = false.
Proof.
  intros r. unfold r, normalizeFrame. cbn [Rect.x Rect.y].
  destruct (num_or_regular (Frame.x frame) 0 eq_refl eq_refl) as [Hx1 Hx2].
  destruct (num_or_regular (Frame.y frame) 0 eq_refl eq_refl) as [Hy1 Hy2].
  destruct (num_or_regular (Frame.left frame) _ Hx1 Hx2) as [H1 H2].
  destruct (num_or_regular (Frame.top frame) _ Hy1 Hy2) as [H3 H4].
  repeat split; assumption.
Qed.

(** ** Strokes *)

Lemma setCurrentPath_twice (a b : string) (p : State) :
  setCurrentPath a (setCurrentPath b p) = setCurrentPath a p.
Proof. reflexivity. Qed.

Lemma join_snoc3 (t : string) (ts : list string) (a b c : string) :
  JS.join " " ((t :: ts) ++ [a; b; c])
  = (JS.join " " (t :: ts) ++ " " ++ a ++ " " ++ b ++ " " ++ c)%string.
Proof.
  revert t. induction ts as [|t' ts IH]; intros t.
  - reflexivity.
  - change (JS.join " " ((t :: t' :: ts) ++ [a; b; c]))
      with (t ++ " " ++ JS.join " " ((t' :: ts) ++ [a; b; c]))%string.
    rewrite IH.
    change (JS.join " " (t :: t' :: ts)) with (t ++ " " ++ JS.join " " (t' :: ts))%string.
    now rewrite !string_app_assoc.
Qed.

(** The state after the touch events of a stroke: only [isDrawing] and
    [currentPath] have changed, and the path string is the stroke's pieces
    joined by single spaces. *)
Lemma draw_stroke_state (numberToString : float -> string)
    (start : float * float) (moves : list (float * float)) (s : State) :
  isDrawingEnabled s = true ->
  draw_stroke numberToString start moves s
  = setCurrentPath (JS.join " " (stroke_tokens numberToString start moves))
                   (setIsDrawing true s).
Proof.
  intros He. unfold draw_stroke.
  induction moves as [|m moves IH] using rev_ind.
  - cbn [fold_left]. unfold handleTouchStart. rewrite He. reflexivity.
  - rewrite fold_left_app. cbn [fold_left]. rewrite IH.
    unfold handleTouchMove. cbn [isDrawingEnabled isDrawing currentPath setCurrentPath setIsDrawing].
    rewrite He. cbn [negb orb].
    unfold stroke_tokens. rewrite flat_map_app. cbn [flat_map]. rewrite app_nil_r.
    set (T := flat_map _ moves).
    change (["M"%string; numberToString (fst start); numberToString (snd start)]
              ++ T ++ ["L"%string; numberToString (fst m); numberToString (snd m)])
      with (("M"%string :: numberToString (fst start) :: numberToString (snd start) :: T)
              ++ ["L"%string; numberToString (fst m); numberToString (snd m)]).
    rewrite join_snoc3.
    destruct s; reflexivity.
Qed.

Lemma is_command_parseFloat (t : string) :
  is_command t = true -> PrimFloat.is_nan (JS.parseFloat t) = true.
Proof.
  unfold is_command. intros H. apply orb_true_iff in H.
  destruct H as [H | H]; apply String.eqb_eq in H; subst; reflexivity.
Qed.

Lemma parse_stroke_moves (numberToString : float -> string) (moves : list (float * float)) :
  Forall (fun c => JS.parseFloat (numberToString c) = c /\ PrimFloat.is_nan c = false)
         (flat_map (fun m => [fst m; snd m]) moves) ->
  parse_parts (flat_map (fun m => ["L"%string; numberToString (fst m); numberToString (snd m)])
                        moves)
  = map (fun m => Point.mk (fst m) (snd m)) moves.
Proof.
  induction moves as [|m moves IH]; intros H; [reflexivity|].
  cbn [flat_map app] in H |- *.
  pose proof (Forall_inv H) as [Ex Hx].
  pose proof (Forall_inv (Forall_inv_tail H)) as [Ey Hy].
  apply Forall_inv_tail, Forall_inv_tail in H.
  cbn [parse_parts map]. change (is_command "L") with true. cbv iota zeta.
  unfold JS.isNaN. rewrite Ex, Ey, Hx, Hy. cbn [negb andb]. now rewrite IH.
Qed.

Lemma stroke_tokens_are_tokens (numberToString : float -> string)
    (start : float * float) (moves : list (float * float)) :
  Forall (fun c => is_token (numberToString c) = true)
         (flat_map (fun m => [fst m; snd m]) (start :: moves)) ->
  Forall (fun t => is_token t = true) (stroke_tokens numberToString start moves).
Proof.
  intros H. cbn [flat_map app] in H. unfold stroke_tokens. cbn [app].
  apply Forall_cons; [reflexivity|].
  apply Forall_cons; [exact (Forall_inv H)|]. apply Forall_inv_tail in H.
  apply Forall_cons; [exact (Forall_inv H)|]. apply Forall_inv_tail in H.
  induction moves as [|m moves IH]; [constructor|].
  cbn [flat_map app] in H |- *.
  apply Forall_cons; [reflexivity|].
  apply Forall_cons; [exact (Forall_inv H)|]. apply Forall_inv_tail in H.
  apply Forall_cons; [exact (Forall_inv H)|]. apply Forall_inv_tail in H.
  now apply IH.
Qed.

Lemma stroke_pieces (numberToString : float -> string)
    (start : float * float) (moves : list (float * float)) :
  Forall (fun c => is_token (numberToString c) = true)
         (flat_map (fun m => [fst m; snd m]) (start :: moves)) ->
  JS.split_separators (JS.trim (JS.join " " (stroke_tokens numberToString start moves)))
  = stroke_tokens numberToString start moves.
Proof.
  intros H. apply stroke_tokens_are_tokens in H.
  unfold stroke_tokens in *. cbn [app] in *. now apply split_trim_join.
Qed.

Lemma last_item_snoc {A : Type} (l : list A) (a : A) : last_item (l ++ [a]) = Some a.
Proof.
  unfold last_item. rewrite length_app. cbn [List.length].
  replace (List.length l + 1 - 1) with (List.length l) by lia.
  rewrite nth_error_app2 by lia. now rewrite Nat.sub_diag.
Qed.

(** What the engine can do to the pending state: nothing, replace the
    highlighted positions, or replace them and the selected text. *)
Lemma findIntersectingBlocks_shape s pathString p :
  findIntersectingBlocks s pathString p = p
  \/ (exists elements, findIntersectingBlocks s pathString p = setIntersectingElements elements p)
  \/ (exists elements text,
        findIntersectingBlocks s pathString p
        = setSelectedText (Some text) (setIntersectingElements elements p)).
Proof.
  unfold findIntersectingBlocks. destruct (ocrResult s); [|auto].
  destruct (List.length (parseSvgPath pathString) <? 2)%nat; [auto|]. cbv zeta.
  destruct (0 <? List.length (collect_elements _ _ _ _))%nat; [|eauto].
  destruct (0 <? List.length (filter _ _))%nat; eauto.
Qed.

Lemma handleTouchEnd_resets s :
  isDrawingEnabled s = true -> isDrawing s = true ->
  currentPath (handleTouchEnd s) = EmptyString /\ isDrawing (handleTouchEnd s) = false.
Proof.
  intros He Hd. unfold handleTouchEnd. rewrite He, Hd. cbn [negb orb]. cbv zeta.
  split; [reflexivity|]. cbn [isDrawing setCurrentPath].
  destruct (0 <? String.length (currentPath s))%nat; [|reflexivity].
  destruct (ocrComplete s), (ocrResult s); try reflexivity.
  destruct (findIntersectingBlocks_shape s (currentPath s)
              (setPaths (filter (fun path => page_neq (DrawPath.page path) (currentPage s))
                                (paths (setIsDrawing false s))
                         ++ [DrawPath.mk (currentPath s) (currentPage s)])
                        (setIsDrawing false s)))
    as [-> | [[els ->] | (els & text & ->)]]; reflexivity.
Qed.

(** X6. A stroke round-trips through the path string: when lasso mode is
    on and the formatter writes each coordinate of the stroke as one piece
    that [parseFloat] reads back as the same number (true of
    [Number::toString] for every number but NaN and [-0]), the path string built
    by the touch handlers is the stroke's pieces joined by single spaces,
    the parser returns exactly the touched points in order, and lifting the
    finger stores that string as the last path, for the current page, and
    resets the stroke. *)
Theorem stroke_parses_to_its_points (numberToString : float -> string)
    (start : float * float) (moves : list (float * float)) (s : State) :
  isDrawingEnabled s = true ->
  Forall (fun c => is_token (numberToString c) = true
                   /\ JS.parseFloat (numberToString c) = c
                   /\ PrimFloat.is_nan c = false)
         (flat_map (fun m => [fst m; snd m]) (start :: moves)) ->
  let drawn := draw_stroke numberToString start moves s in
  let stored := handleTouchEnd drawn in
  currentPath drawn = JS.join " " (stroke_tokens numberToString start moves)
  /\ parseSvgPath (currentPath drawn)
     = map (fun m => Point.mk (fst m) (snd m)) (start :: moves)
  /\ last_item (paths stored) = Some (DrawPath.mk (currentPath drawn) (currentPage s))
  /\ currentPath stored = EmptyString
  /\ isDrawing stored = false.
Proof.
  intros He H drawn stored.
  assert (Htok : Forall (fun c => is_token (numberToString c) = true)
                        (flat_map (fun m => [fst m; snd m]) (start :: moves))).
  { eapply Forall_impl; [|exact H]. now intros c [Hc _]. }
  assert (Hnum : Forall (fun c => JS.parseFloat (numberToString c) = c
                                  /\ PrimFloat.is_nan c = false)
                        (flat_map (fun m => [fst m; snd m]) (start :: moves))).
  { eapply Forall_impl; [|exact H]. now intros c [_ Hc]. }
  assert (Ed : drawn = setCurrentPath (JS.join " " (stroke_tokens numberToString start moves))
                                      (setIsDrawing true s))
    by now apply draw_stroke_state.
  assert (Ep : currentPath drawn = JS.join " " (stroke_tokens numberToString start moves))
    by now rewrite Ed.
  assert (Hne : currentPath drawn <> EmptyString).
  { rewrite Ep. unfold stroke_tokens. cbn [app]. apply join_nonempty. discriminate. }
  assert (Hen : isDrawingEnabled drawn = true) by now rewrite Ed.
  assert (Hdr : isDrawing drawn = true) by now rewrite Ed.
  split; [exact Ep|]. split; [|split].
  - rewrite Ep. unfold parseSvgPath. rewrite (stroke_pieces _ _ _ Htok).
    unfold stroke_tokens. cbn [app flat_map] in Hnum |- *.
    pose proof (Forall_inv Hnum) as [Ex Hx].
    pose proof (Forall_inv (Forall_inv_tail Hnum)) as [Ey Hy].
    apply Forall_inv_tail, Forall_inv_tail in Hnum.
    cbn [parse_parts map]. change (is_command "M") with true. cbv iota zeta.
    unfold JS.isNaN. rewrite Ex, Ey, Hx, Hy. cbn [negb andb].
    now rewrite (parse_stroke_moves _ _ Hnum).
  - unfold stored. rewrite (handleTouchEnd_paths_drawn drawn Hen Hdr Hne), last_item_snoc.
    now rewrite Ed.
  - exact (handleTouchEnd_resets drawn Hen Hdr).
Qed.

Lemma stroke_parses_to_its_points_witness :
  parseSvgPath
    (currentPath (draw_stroke integer_coordinate_toString (0, 0) [(100, 20)]
                    example_state_lasso))%float
  = [Point.mk 0 0; Point.mk 100 20].
Proof.
  assert (He : isDrawingEnabled example_state_lasso = true) by reflexivity.
  assert (H : Forall (fun c => is_token (integer_coordinate_toString c) = true
                               /\ JS.parseFloat (integer_coordinate_toString c) = c
                               /\ PrimFloat.is_nan c = false)
                     (flat_map (fun m => [fst m; snd m]) [(0, 0); (100, 20)]%float)).
  { repeat (apply Forall_cons; [vm_compute; repeat split; reflexivity|]). apply Forall_nil. }
  exact (proj1 (proj2 (stroke_parses_to_its_points integer_coordinate_toString
                         (0, 0)%float [(100, 20)%float] example_state_lasso He H))).
Defined.

(** X7. A tap is no lasso: when lasso mode is on and the two coordinates
    are written as one piece each, touching down and lifting the finger
    without a move stores a path of at most one point, which replaces the
    path of the current page but leaves the highlighted words and the
    selected text as they were. *)
Theorem tap_selects_nothing (numberToString : float -> string)
    (locationX locationY : float) (s : State) :
  isDrawingEnabled s = true ->
  is_token (numberToString locationX) = true ->
  is_token (numberToString locationY) = true ->
  let tapped := handleTouchEnd (handleTouchStart numberToString locationX locationY s) in
  List.length (parseSvgPath (currentPath (handleTouchStart numberToString locationX locationY s)))
  <= 1
  /\ last_item (paths tapped)
     = Some (DrawPath.mk
               ("M " ++ numberToString locationX ++ " " ++ numberToString locationY)
               (currentPage s))
  /\ intersectingElements tapped = intersectingElements s
  /\ selectedText tapped = selectedText s.
Proof.
  intros He Hx Hy tapped.
  assert (Htok : Forall (fun c => is_token (numberToString c) = true)
                        (flat_map (fun m => [fst m; snd m]) [(locationX, locationY)])).
  { cbn [flat_map app fst snd]. repeat (apply Forall_cons; [assumption|]). apply Forall_nil. }
  pose proof (draw_stroke_state numberToString (locationX, locationY) [] s He) as Ed.
  change (draw_stroke numberToString (locationX, locationY) [] s)
    with (handleTouchStart numberToString locationX locationY s) in Ed.
  set (drawn := handleTouchStart numberToString locationX locationY s) in *.
  assert (Hlen : List.length (parseSvgPath (currentPath drawn)) <= 1).
  { rewrite Ed. cbn [currentPath setCurrentPath]. unfold parseSvgPath.
    rewrite (stroke_pieces _ _ _ Htok).
    pose proof (parse_parts_length _ (stroke_tokens numberToString (locationX, locationY) [])
                  (le_n _)) as [Hl _].
    cbn [stroke_tokens app flat_map List.length] in Hl |- *. lia. }
  assert (Hen : isDrawingEnabled drawn = true) by now rewrite Ed.
  assert (Hdr : isDrawing drawn = true) by now rewrite Ed.
  assert (Hne : currentPath drawn <> EmptyString) by (rewrite Ed; discriminate).
  split; [exact Hlen|]. split.
  - unfold tapped. rewrite (handleTouchEnd_paths_drawn drawn Hen Hdr Hne), last_item_snoc.
    now rewrite Ed.
  - assert (Hfind : forall p, findIntersectingBlocks drawn (currentPath drawn) p = p).
    { intros p. unfold findIntersectingBlocks. destruct (ocrResult drawn); [|reflexivity].
      destruct (Nat.ltb_spec (List.length (parseSvgPath (currentPath drawn))) 2);
        [reflexivity|lia]. }
    unfold tapped, handleTouchEnd. rewrite Hen, Hdr. cbn [negb orb]. cbv zeta.
    apply length_pos_nonempty in Hne. rewrite Hne.
    cbn [intersectingElements selectedText setCurrentPath].
    destruct (ocrComplete drawn), (ocrResult drawn) eqn:Eo; rewrite ?Hfind;
      rewrite Ed; split; reflexivity.
Qed.

Lemma tap_selects_nothing_witness :
  selectedText (handleTouchEnd (handleTouchStart integer_coordinate_toString 10 10
                                  example_state_lasso))
  = selectedText example_state_lasso.
Proof.
  exact (proj2 (proj2 (proj2
    (tap_selects_nothing integer_coordinate_toString 10 10 example_state_lasso
       eq_refl eq_refl eq_refl)))).
Defined.

(** ** The engine on the pending state *)

(** X8. Evaluating the same lasso twice against the same render changes
    nothing the second time: the engine is idempotent on the pending
    state. *)
Theorem findIntersectingBlocks_idempotent (s p : State) (pathString : string) :
  findIntersectingBlocks s pathString (findIntersectingBlocks s pathString p)
  = findIntersectingBlocks s pathString p.
Proof.
  unfold findIntersectingBlocks. destruct (ocrResult s) as [ocr|]; [|reflexivity].
  destruct (List.length (parseSvgPath pathString) <? 2)%nat; [reflexivity|]. cbv zeta.
  destruct (0 <? List.length (collect_elements _ _ _ _))%nat.
  - destruct (0 <? List.length (filter _ _))%nat; destruct p; reflexivity.
  - destruct p; reflexivity.
Qed.

(** ** Highlights *)

Lemma Forall2_map_r {A B : Type} (R : A -> B -> Prop) (f : A -> B) (l : list A) :
  Forall (fun a => R a (f a)) l -> Forall2 R l (map f l).
Proof. induction 1; simpl; constructor; assumption. Qed.

(** X9. What is highlighted is what was measured: after a stroke of at
    least two points is finished on an analyzed page whose image has a
    positive width, the next render draws one rectangle per selected word
    and never skips one; each rectangle is the word's frame mapped to the
    view, the very rectangle the overlap rule was applied to. *)
Theorem highlights_are_the_selected_words (s : State) (ocr : TextRecognitionResult.t) :
  isDrawingEnabled s = true -> isDrawing s = true ->
  ocrComplete s = true -> ocrResult s = Some ocr ->
  2 <= List.length (parseSvgPath (currentPath s)) ->
  (0 <? ImageSize.width (imageSize s))%float = true ->
  let s' := handleTouchEnd s in
  Forall2 (fun position highlight =>
             exists element frame,
               element_at ocr position = Some element
               /\ TextElement.frame element = Some frame
               /\ selects (viewLayout s) (imageSize s) (parseSvgPath (currentPath s)) element
                  = true
               /\ highlight = Some (mapped_frame (viewLayout s) (imageSize s) frame))
          (intersectingElements s') (highlights s').
Proof.
  intros He Hd Hc Hocr Hlen Hw s'.
  assert (Hne : (0 <? String.length (currentPath s))%nat = true).
  { destruct (currentPath s); [vm_compute in Hlen; lia|reflexivity]. }
  set (p := setPaths (filter (fun path => page_neq (DrawPath.page path) (currentPage s))
                             (paths (setIsDrawing false s))
                      ++ [DrawPath.mk (currentPath s) (currentPage s)])
                     (setIsDrawing false s)).
  assert (Es : s' = setCurrentPath EmptyString (findIntersectingBlocks s (currentPath s) p)).
  { unfold s', handleTouchEnd. rewrite He, Hd, Hne, Hc, Hocr. reflexivity. }
  pose proof (findIntersectingBlocks_elements s p (currentPath s) ocr Hocr Hlen) as Hel.
  assert (Hfix : ocrResult s' = Some ocr /\ ocrComplete s' = true
                 /\ imageSize s' = imageSize s /\ viewLayout s' = viewLayout s).
  { rewrite Es.
    destruct (findIntersectingBlocks_shape s (currentPath s) p)
      as [-> | [[els ->] | (els & text & ->)]]; cbn; auto. }
  destruct Hfix as (Ho & Hc' & Hi & Hv).
  assert (Hie : intersectingElements s'
                = collect_elements (viewLayout s) (imageSize s)
                    (parseSvgPath (currentPath s)) ocr).
  { rewrite Es. exact Hel. }
  unfold highlights. rewrite Ho, Hc', Hi, Hv, Hw. cbn [andb].
  apply Forall2_map_r. rewrite Hie. apply Forall_forall. intros pos Hin.
  apply collect_elements_In in Hin. destruct Hin as [element [Hat Hsel]].
  assert (Hfr : exists frame, TextElement.frame element = Some frame).
  { unfold selects in Hsel. destruct (TextElement.frame element); [eauto|discriminate]. }
  destruct Hfr as [frame Hfr].
  exists element, frame. rewrite Hat, Hfr. auto.
Qed.

Lemma highlights_are_the_selected_words_witness :
  let s := setCurrentPath "M 0 0 L 100 20" (setIsDrawing true example_state_lasso) in
  List.length (highlights (handleTouchEnd s)) = 1
  /\ List.length (intersectingElements (handleTouchEnd s)) = 1.
Proof.
  cbv zeta.
  set (s := setCurrentPath "M 0 0 L 100 20" (setIsDrawing true example_state_lasso)).
  assert (Hlen : 2 <= List.length (parseSvgPath (currentPath s))) by (vm_compute; lia).
  assert (Hw : (0 <? ImageSize.width (imageSize s))%float = true) by reflexivity.
  pose proof (highlights_are_the_selected_words s example_ocr eq_refl eq_refl eq_refl eq_refl
                Hlen Hw) as H.
  cbv zeta in H.
  assert (Hi : List.length (intersectingElements (handleTouchEnd s)) = 1)
    by (vm_compute; reflexivity).
  split; [|exact Hi].
  rewrite <- (Forall2_length H). exact Hi.
Defined.

(** ** Page analysis controller *)

(** The fields the engine never touches. *)
Lemma findIntersectingBlocks_keeps s pathString p :
  let p' := findIntersectingBlocks s pathString p in
  isProcessing p' = isProcessing p /\ ocrComplete p' = ocrComplete p
  /\ ocrResult p' = ocrResult p /\ imageSize p' = imageSize p
  /\ pageImageUri p' = pageImageUri p /\ analyzedPages p' = analyzedPages p
  /\ paths p' = paths p /\ currentPage p' = currentPage p
  /\ isDrawingEnabled p' = isDrawingEnabled p /\ totalPages p' = totalPages p.
Proof.
  cbv zeta.
  destruct (findIntersectingBlocks_shape s pathString p)
    as [-> | [[els ->] | (els & text & ->)]]; repeat split; reflexivity.
Qed.

(** What the engine writes depends on the pending state only through the
    two cells it writes. *)
Lemma findIntersectingBlocks_selection s pathString p q :
  intersectingElements p = intersectingElements q -> selectedText p = selectedText q ->
  intersectingElements (findIntersectingBlocks s pathString p)
  = intersectingElements (findIntersectingBlocks s pathString q)
  /\ selectedText (findIntersectingBlocks s pathString p)
     = selectedText (findIntersectingBlocks s pathString q).
Proof.
  intros Hi Ht. unfold findIntersectingBlocks. destruct (ocrResult s); [|auto].
  destruct (List.length (parseSvgPath pathString) <? 2)%nat; [auto|]. cbv zeta.
  destruct (0 <? List.length (collect_elements _ _ _ _))%nat; [|auto].
  destruct (0 <? List.length (filter _ _))%nat; auto.
Qed.

(** X10. However an analysis cycle ends - the capture, the measurement or
    the recognition fails, the recognizer returns nothing, or the result
    arrives - the [finally] block has run: the screen is no longer busy and
    the analysis counts as complete. *)
Theorem cycle_end_runs_finally (c : Cycle) (o : Outcome) (p : State) :
  snd (resume c o p) = None ->
  isProcessing (fst (resume c o p)) = false
  /\ ocrComplete (fst (resume c o p)) = true
  /\ (fails (cy_stage c) o = true ->
      fst (resume c o p) = performOCR_finally p
      /\ ocrResult (fst (resume c o p)) = ocrResult p
      /\ analyzedPages (fst (resume c o p)) = analyzedPages p).
Proof.
  unfold resume. destruct (cy_stage c), o as [| | | | |[result|]|]; cbv zeta; cbn [fst snd];
    try discriminate; intros _; repeat split; try discriminate.
Qed.

Lemma cycle_end_runs_finally_witness :
  isProcessing (fst (resume (mkCycle example_state Capturing "") CaptureFailed
                       (setIsProcessing true example_state))) = false.
Proof.
  exact (proj1 (cycle_end_runs_finally (mkCycle example_state Capturing "") CaptureFailed
                  (setIsProcessing true example_state) eq_refl)).
Defined.

(** X11. When the recognition result arrives, the selection is evaluated
    by the callback of the render that started the cycle: the highlighted
    words and the selected text after completion do not depend on the
    result that has just arrived, and when that render had no recognition
    result they are left as they were. *)
Theorem completion_ignores_fresh_result
    (c : Cycle) (result result' : TextRecognitionResult.t) (p : State) :
  let q := fst (resume c (Recognized (Some result)) p) in
  let q' := fst (resume c (Recognized (Some result')) p) in
  intersectingElements q = intersectingElements q'
  /\ selectedText q = selectedText q'
  /\ (ocrResult (cy_closure c) = None ->
      intersectingElements q = intersectingElements p /\ selectedText q = selectedText p).
Proof.
  cbv zeta. unfold resume.
  destruct (cy_stage c); cbv zeta; cbn [fst]; try (repeat split; reflexivity).
  destruct (last_item _) as [path|].
  - unfold performOCR_finally.
    cbn [intersectingElements selectedText setOcrComplete setIsProcessing].
    split; [|split].
    + now apply findIntersectingBlocks_selection.
    + now apply findIntersectingBlocks_selection.
    + intros Hn. unfold findIntersectingBlocks. rewrite Hn. split; reflexivity.
  - repeat split; reflexivity.
Qed.

Section Analysis.

Variable numberToString : float -> string.
Variable pdfPath : string.

Local Abbreviation step := (handle numberToString pdfPath).
Local Abbreviation exec := (run numberToString pdfPath).

Lemma with_call_none w s :
  with_call w (s, None) = mkWorld s (storage w) (cycles w) (pdfViewRef w).
Proof. unfold with_call. cbn [fst snd option_list]. now rewrite app_nil_r. Qed.

(** X12. A cycle whose four steps succeed stores what it obtained: the
    recognition result, the size and the file of the captured image; it
    marks the page of the render that started it as analyzed, ends idle and
    complete, and leaves the paths alone. If the viewer is still on that
    page, the effect then has nothing to do: the page is analyzed once. *)
Theorem successful_analysis_stores_results
    (w : World) (c : Cycle) (uri : string) (width height : float)
    (result : TextRecognitionResult.t) :
  cycles w = [c] -> cy_stage c = Settling ->
  let w' := exec [Settle 0 TimerFired; Settle 0 (Captured uri);
                  Settle 0 (Measured width height);
                  Settle 0 (Recognized (Some result))] w in
  cycles w' = []
  /\ isProcessing (state w') = false /\ ocrComplete (state w') = true
  /\ ocrResult (state w') = Some result
  /\ imageSize (state w') = ImageSize.mk width height
  /\ pageImageUri (state w') = Some uri
  /\ analyzedPages (state w') = analyzedPages (state w) ++ [currentPage (cy_closure c)]
  /\ paths (state w') = paths (state w)
  /\ (currentPage (state w) = currentPage (cy_closure c) -> step AnalysisEffect w' = w').
Proof.
  intros Hc Hs w'. destruct w as [s st cs ref]. cbn [cycles state] in *. subst cs.
  destruct c as [cl stage u]. cbn [cy_stage cy_closure] in *. subst stage.
  unfold w', run. cbn [fold_left handle cycles state nth_error resume cy_stage cy_closure cy_uri
                     fst snd option_list firstn skipn app].
  set (p := setAnalyzedPages _ _).
  set (q := match last_item _ with Some path => _ | None => p end).
  assert (Hq : isProcessing q = isProcessing p /\ ocrComplete q = ocrComplete p
               /\ ocrResult q = ocrResult p /\ imageSize q = imageSize p
               /\ pageImageUri q = pageImageUri p /\ analyzedPages q = analyzedPages p
               /\ paths q = paths p /\ currentPage q = currentPage p
               /\ isDrawingEnabled q = isDrawingEnabled p /\ totalPages q = totalPages p).
  { unfold q. destruct (last_item _) as [path|]; [|repeat split; reflexivity].
    apply findIntersectingBlocks_keeps. }
  destruct Hq as (H1 & H2 & H3 & H4 & H5 & H6 & H7 & H8 & H9 & H10).
  unfold performOCR_finally. cbn [state cycles].
  repeat split; try reflexivity.
  - cbn. now rewrite H3.
  - cbn. now rewrite H4.
  - cbn. now rewrite H5.
  - cbn. now rewrite H6.
  - cbn. now rewrite H7.
  - intros Hpage. cbn [handle state pdfViewRef]. unfold analysisEffect.
    cbn [isDrawingEnabled analyzedPages currentPage isProcessing totalPages
         setOcrComplete setIsProcessing].
    rewrite H6, H8. cbn [analyzedPages currentPage p setAnalyzedPages setOcrResult
                         setImageSize setPageImageUri].
    rewrite Hpage.
    assert (Hin : forall l a, includes (l ++ [a]) a = true).
    { intros l a. unfold includes. rewrite existsb_app. cbn [existsb].
      destruct a; cbn; rewrite ?Z.eqb_refl, ?orb_true_r; reflexivity. }
    rewrite Hin. cbn [negb]. rewrite andb_false_r. cbn [andb].
    now rewrite with_call_none.
Qed.

Lemma includes_evict (l : list PageNumber) (cur q : PageNumber) :
  includes (filter (fun page => page_neq page cur) l) q = includes l q && page_neq q cur.
Proof.
  unfold includes, page_neq.
  induction l as [|a l IH]; [reflexivity|]. cbn [filter].
  destruct (page_eq a cur) eqn:Ea; cbn [negb existsb]; rewrite IH.
  - destruct a as [|x], cur as [|y], q as [|z]; cbn in Ea |- *; try discriminate;
      rewrite ?andb_true_r; try reflexivity.
    apply Z.eqb_eq in Ea. subst y.
    destruct (Z.eqb_spec x z) as [->|Hne]; cbn.
    + rewrite Z.eqb_refl. cbn. now rewrite andb_false_r.
    + reflexivity.
  - destruct a as [|x], cur as [|y], q as [|z]; cbn in Ea |- *;
      rewrite ?andb_true_r; try reflexivity.
    destruct (Z.eqb_spec x z) as [->|Hne]; cbn; [|reflexivity].
    now rewrite Ea.
Qed.

(** X13. Switching lasso mode on always leads to one fresh analysis of the
    current page: from an idle screen with the view attached and a loaded
    document, the button followed by the effect starts exactly one cycle
    for the page, whether or not the page had been analyzed before; the old
    result, text and highlights are gone and the page is no longer marked
    as analyzed. *)
Theorem lasso_on_forces_one_analysis (w : World) (n : Z) :
  isProcessing (state w) = false -> pdfViewRef w = true ->
  isDrawingEnabled (state w) = false ->
  currentPage (state w) = Page n -> (0 <? totalPages (state w))%Z = true ->
  let w' := exec [ToggleDrawingMode; AnalysisEffect] w in
  (exists c, cycles w' = cycles w ++ [c] /\ cy_stage c = Settling
             /\ currentPage (cy_closure c) = Page n)
  /\ isProcessing (state w') = true /\ isDrawingEnabled (state w') = true
  /\ ocrResult (state w') = None /\ selectedText (state w') = None
  /\ intersectingElements (state w') = []
  /\ includes (analyzedPages (state w')) (Page n) = false.
Proof.
  intros Hp Hr Hd Hc Ht w'. destruct w as [s st cs ref]. cbn [state pdfViewRef cycles] in *.
  subst ref.
  assert (Hev : includes (filter (fun page => page_neq page (Page n)) (analyzedPages s))
                         (Page n) = false).
  { rewrite includes_evict. unfold page_neq. cbn. rewrite Z.eqb_refl. apply andb_false_r. }
  set (p := setAnalyzedPages
              (filter (fun page => page_neq page (Page n)) (analyzedPages s))
              (setIntersectingElements []
                 (setOcrComplete false
                    (setSelectedText None (setOcrResult None (setIsDrawingEnabled true s)))))).
  assert (Et : toggleDrawingMode true s = performOCR true s p).
  { unfold toggleDrawingMode. rewrite Hd, Hp, Hc. reflexivity. }
  unfold w', run. cbn [fold_left]. 
  set (w1 := step ToggleDrawingMode (mkWorld s st cs true)).
  destruct (includes (analyzedPages s) (Page n)) eqn:Ei.
  - assert (E1 : w1 = mkWorld p st cs true).
    { unfold w1. cbn [handle state pdfViewRef]. rewrite Et. unfold performOCR.
      rewrite Hc, Ei, Hd. cbn [negb andb]. apply with_call_none. }
    rewrite E1. cbn [handle state pdfViewRef]. unfold analysisEffect, performOCR.
    assert (Hi : includes (analyzedPages p) (currentPage p) = false).
    { unfold p. cbn [analyzedPages currentPage setAnalyzedPages setIntersectingElements
                     setOcrComplete setSelectedText setOcrResult setIsDrawingEnabled].
      now rewrite Hc. }
    rewrite Hi.
    change (isDrawingEnabled p) with true. change (isProcessing p) with (isProcessing s).
    change (totalPages p) with (totalPages s). rewrite Hp, Ht. cbn [negb andb].
    unfold with_call. cbn [fst snd option_list state cycles].
    split; [|repeat split; assumption].
    eexists. split; [reflexivity|]. split; [reflexivity|]. exact Hc.
  - assert (E1 : w1 = mkWorld (setIntersectingElements []
                                 (setOcrComplete false
                                    (setSelectedText None
                                       (setOcrResult None (setIsProcessing true p)))))
                              st (cs ++ [mkCycle s Settling EmptyString]) true).
    { unfold w1. cbn [handle state pdfViewRef]. rewrite Et. unfold performOCR.
      rewrite Hc, Ei, Hd, Hp. reflexivity. }
    rewrite E1. cbn [handle state pdfViewRef]. unfold analysisEffect.
    cbn [isProcessing setIntersectingElements setOcrComplete setSelectedText setOcrResult
         setIsProcessing].
    cbn [negb]. rewrite andb_false_r. cbn [andb]. rewrite with_call_none.
    cbn [state cycles].
    split; [|repeat split; try reflexivity].
    + eexists. split; [reflexivity|]. split; [reflexivity|]. exact Hc.
    + unfold p. cbn [analyzedPages setAnalyzedPages setIntersectingElements setOcrComplete
                     setSelectedText setOcrResult setIsProcessing]. exact Hev.
Qed.

(** X14. A failed analysis is tried again: when the capture, the
    measurement or the recognition fails, or the recognizer returns
    nothing, the page is not marked as analyzed, so with lasso mode on, a
    loaded document and the view attached, the effect of the next render
    starts a new cycle for it. *)
Theorem failed_analysis_is_retried (w : World) (c : Cycle) (o : Outcome) :
  cycles w = [c] -> fails (cy_stage c) o = true ->
  isDrawingEnabled (state w) = true ->
  includes (analyzedPages (state w)) (currentPage (state w)) = false ->
  (0 <? totalPages (state w))%Z = true -> pdfViewRef w = true ->
  let failed := step (Settle 0 o) w in
  let w' := step AnalysisEffect failed in
  cycles failed = [] /\ isProcessing (state failed) = false
  /\ (exists c', cycles w' = [c'] /\ cy_stage c' = Settling /\ cy_closure c' = state failed)
  /\ isProcessing (state w') = true.
Proof.
  intros Hc Hf He Hi Ht Hr failed w'. destruct w as [s st cs ref].
  cbn [state pdfViewRef cycles] in *. subst cs ref.
  assert (Ef : failed = mkWorld (performOCR_finally s) st [] true).
  { unfold failed. cbn [handle cycles nth_error state storage pdfViewRef].
    unfold resume. destruct (cy_stage c), o as [| | | | |[result|]|]; try discriminate;
      reflexivity. }
  unfold w'. rewrite Ef. cbn [cycles state handle pdfViewRef].
  split; [reflexivity|]. split; [reflexivity|].
  unfold analysisEffect, performOCR, performOCR_finally.
  cbn [isDrawingEnabled analyzedPages currentPage isProcessing totalPages
       setOcrComplete setIsProcessing].
  rewrite He, Hi, Ht. cbn [negb andb]. unfold with_call. cbn.
  split; [|reflexivity]. eexists. repeat split.
Qed.

End Analysis.

Lemma successful_analysis_stores_results_witness :
  ocrResult
    (state (run integer_coordinate_toString "/a.pdf"
              [Settle 0 TimerFired; Settle 0 (Captured "page-1.jpg");
               Settle 0 (Measured 400 800); Settle 0 (Recognized (Some example_ocr))]
              started_world))
  = Some example_ocr.
Proof.
  assert (Hc : cycles started_world = [mkCycle (state attached_world) Settling ""])
    by (vm_compute; reflexivity).
  exact (proj1 (proj2 (proj2 (proj2
    (successful_analysis_stores_results integer_coordinate_toString "/a.pdf"
       started_world _ "page-1.jpg" 400 800 example_ocr Hc eq_refl))))).
Defined.

Lemma lasso_on_forces_one_analysis_witness :
  isProcessing
    (state (run integer_coordinate_toString "/a.pdf" [ToggleDrawingMode; AnalysisEffect]
              attached_world)) = true.
Proof.
  assert (Ht : (0 <? totalPages (state attached_world))%Z = true) by (vm_compute; reflexivity).
  exact (proj1 (proj2
    (lasso_on_forces_one_analysis integer_coordinate_toString "/a.pdf" attached_world 1
       eq_refl eq_refl eq_refl eq_refl Ht))).
Defined.

Lemma failed_analysis_is_retried_witness :
  let w := handle integer_coordinate_toString "/a.pdf" (Settle 0 TimerFired) started_world in
  isProcessing
    (state (handle integer_coordinate_toString "/a.pdf" AnalysisEffect
              (handle integer_coordinate_toString "/a.pdf" (Settle 0 CaptureFailed) w)))
  = true.
Proof.
  cbv zeta.
  set (w := handle integer_coordinate_toString "/a.pdf" (Settle 0 TimerFired) started_world).
  assert (Hc : cycles w = [mkCycle (state attached_world) Capturing ""])
    by (vm_compute; reflexivity).
  assert (Hi : includes (analyzedPages (state w)) (currentPage (state w)) = false)
    by (vm_compute; reflexivity).
  assert (Ht : (0 <? totalPages (state w))%Z = true) by (vm_compute; reflexivity).
  exact (proj2 (proj2 (proj2
    (failed_analysis_is_retried integer_coordinate_toString "/a.pdf" w _ CaptureFailed
       Hc eq_refl eq_refl Hi Ht eq_refl)))).
Defined.

(** ** Lasso mode and the stroke in progress *)

(** X15. Switching lasso mode off discards the stroke in progress and
    starts nothing: the following touch events change nothing, no path is
    stored for the abandoned stroke, and the stored paths, the selected
    text and the highlights stay on screen as they were. *)
Theorem lasso_off_discards_stroke (numberToString : float -> string)
    (ref : bool) (s : State) (locationX locationY : float) :
  isDrawingEnabled s = true ->
  let off := fst (toggleDrawingMode ref s) in
  snd (toggleDrawingMode ref s) = None
  /\ off = setCurrentPath EmptyString (setIsDrawing false (setIsDrawingEnabled false s))
  /\ handleTouchStart numberToString locationX locationY off = off
  /\ handleTouchMove numberToString locationX locationY off = off
  /\ handleTouchEnd off = off
  /\ paths off = paths s
  /\ selectedText off = selectedText s
  /\ highlights off = highlights s.
Proof.
  intros He off.
  assert (E : toggleDrawingMode ref s
              = (setCurrentPath EmptyString (setIsDrawing false (setIsDrawingEnabled false s)),
                 None)).
  { unfold toggleDrawingMode. rewrite He. reflexivity. }
  unfold off. rewrite E. cbn [fst snd]. repeat split.
Qed.

Lemma lasso_off_discards_stroke_witness :
  let s := (draw_stroke integer_coordinate_toString (0, 0) [(100, 20)]
              example_state_lasso)%float in
  handleTouchEnd (fst (toggleDrawingMode true s)) = fst (toggleDrawingMode true s)
  /\ paths (fst (toggleDrawingMode true s)) = paths s.
Proof.
  cbv zeta.
  set (s := (draw_stroke integer_coordinate_toString (0, 0) [(100, 20)]
               example_state_lasso)%float).
  assert (He : isDrawingEnabled s = true) by (vm_compute; reflexivity).
  pose proof (lasso_off_discards_stroke integer_coordinate_toString true s 0 0 He) as H.
  cbv zeta in H. split.
  - exact (proj1 (proj2 (proj2 (proj2 (proj2 H))))).
  - exact (proj1 (proj2 (proj2 (proj2 (proj2 (proj2 H)))))).
Defined.

(** ** What never leaves an analysis cell *)

Lemma performOCR_keeps b s p :
  let p' := fst (performOCR b s p) in
  isDrawingEnabled p' = isDrawingEnabled p /\ isDrawing p' = isDrawing p
  /\ currentPath p' = currentPath p /\ currentPage p' = currentPage p
  /\ paths p' = paths p.
Proof.
  cbv zeta. unfold performOCR.
  destruct (includes _ _ && _); [repeat split|].
  destruct (isProcessing s); [repeat split|]. destruct (negb b); repeat split.
Qed.

Lemma findIntersectingBlocks_stroke s pathString p :
  let p' := findIntersectingBlocks s pathString p in
  isDrawingEnabled p' = isDrawingEnabled p /\ isDrawing p' = isDrawing p
  /\ currentPath p' = currentPath p /\ currentPage p' = currentPage p
  /\ paths p' = paths p.
Proof.
  cbv zeta.
  destruct (findIntersectingBlocks_shape s pathString p)
    as [-> | [[els ->] | (els & text & ->)]]; repeat split; reflexivity.
Qed.

Lemma resume_keeps c o p :
  let p' := fst (resume c o p) in
  isDrawingEnabled p' = isDrawingEnabled p /\ isDrawing p' = isDrawing p
  /\ currentPath p' = currentPath p /\ currentPage p' = currentPage p
  /\ paths p' = paths p.
Proof.
  cbv zeta. unfold resume.
  destruct (cy_stage c), o as [| | | | |[result|]|]; try (repeat split; reflexivity).
  cbv zeta. cbn [fst]. destruct (last_item _); [|repeat split; reflexivity].
  unfold performOCR_finally.
  cbn [isDrawingEnabled isDrawing currentPath currentPage paths setOcrComplete setIsProcessing].
  match goal with
  | |- context [findIntersectingBlocks ?s ?path ?q] =>
      destruct (findIntersectingBlocks_stroke s path q) as (H1 & H2 & H3 & H4 & H5)
  end.
  rewrite H1, H2, H3, H4, H5. repeat split; reflexivity.
Qed.

Section Invariants.

Variable numberToString : float -> string.
Variable pdfPath : string.

Local Abbreviation step := (handle numberToString pdfPath).
Local Abbreviation exec := (run numberToString pdfPath).
Local Abbreviation reached := (reachable numberToString pdfPath).

Lemma stroke_cells_kept (s s' : State) :
  isDrawingEnabled s' = isDrawingEnabled s -> isDrawing s' = isDrawing s ->
  currentPath s' = currentPath s ->
  (isDrawing s = true -> isDrawingEnabled s = true)
  /\ (isDrawingEnabled s = false -> currentPath s = EmptyString) ->
  (isDrawing s' = true -> isDrawingEnabled s' = true)
  /\ (isDrawingEnabled s' = false -> currentPath s' = EmptyString).
Proof. intros -> -> ->. auto. Qed.

Lemma handle_stroke_cells e w :
  (isDrawing (state w) = true -> isDrawingEnabled (state w) = true)
  /\ (isDrawingEnabled (state w) = false -> currentPath (state w) = EmptyString) ->
  (isDrawing (state (step e w)) = true -> isDrawingEnabled (state (step e w)) = true)
  /\ (isDrawingEnabled (state (step e w)) = false
      -> currentPath (state (step e w)) = EmptyString).
Proof.
  intros Hinv. destruct e; cbn [handle state with_state with_call].
  - now apply (stroke_cells_kept (state w)).
  - exact Hinv.
  - unfold toggleDrawingMode. cbv zeta.
    destruct (isDrawingEnabled (state w)) eqn:He; cbn [negb].
    + cbn. split; [discriminate|reflexivity].
    + cbn [andb]. destruct (negb (isProcessing (state w))).
      * match goal with
        | |- context [performOCR ?b ?s ?q] =>
            destruct (performOCR_keeps b s q) as (H1 & H2 & H3 & H4 & H5)
        end.
        rewrite H1. cbn. split; [reflexivity|discriminate].
      * cbn. split; [reflexivity|discriminate].
  - unfold handleTouchStart. destruct (isDrawingEnabled (state w)) eqn:He; cbn [negb].
    + cbn. rewrite He. split; [reflexivity|discriminate].
    + rewrite <- He in *. exact Hinv.
  - unfold handleTouchMove. destruct (isDrawingEnabled (state w)) eqn:He; cbn [negb orb].
    + destruct (negb (isDrawing (state w))).
      * rewrite <- He in *. exact Hinv.
      * cbn. rewrite He. split; [reflexivity|discriminate].
    + rewrite <- He in *. exact Hinv.
  - unfold handleTouchEnd.
    destruct (negb (isDrawingEnabled (state w)) || negb (isDrawing (state w)));
      [exact Hinv|].
    cbv zeta. cbn [isDrawing isDrawingEnabled currentPath setCurrentPath].
    split; [|reflexivity].
    destruct (0 <? String.length (currentPath (state w)))%nat; [|discriminate].
    destruct (ocrComplete (state w)), (ocrResult (state w)); try discriminate.
    match goal with
    | |- context [findIntersectingBlocks ?s ?path ?q] =>
        destruct (findIntersectingBlocks_stroke s path q) as (H1 & H2 & H3 & H4 & H5)
    end.
    rewrite H2. discriminate.
  - now apply (stroke_cells_kept (state w)).
  - cbn. destruct Hinv as [H1 H2]. split; auto.
  - cbn. destruct Hinv as [H1 H2]. split; auto.
  - now apply (stroke_cells_kept (state w)).
  - unfold handlePageChange. cbv zeta.
    destruct (negb (totalPages (state w) =? noOfPages)%Z);
      now apply (stroke_cells_kept (state w)).
  - unfold loadLastViewedPage. cbv zeta.
    destruct (getItem PDF_FILE_PATH_KEY (storage w)); [|exact Hinv].
    destruct (getItem LAST_VIEWED_PAGE_KEY (storage w)); [|exact Hinv].
    destruct (_ && _); [|exact Hinv]. now apply (stroke_cells_kept (state w)).
  - unfold analysisEffect. destruct (_ && _); [|exact Hinv].
    destruct (performOCR_keeps (pdfViewRef w) (state w) (state w)) as (H1 & H2 & H3 & H4 & H5).
    now apply (stroke_cells_kept (state w)).
  - destruct (nth_error (cycles w) i) as [c|]; [|exact Hinv]. cbn [state].
    destruct (resume_keeps c o (state w)) as (H1 & H2 & H3 & H4 & H5).
    now apply (stroke_cells_kept (state w)).
Qed.

Lemma handleTouchEnd_nonempty_paths s :
  Forall (fun d => DrawPath.path d <> EmptyString) (paths s) ->
  Forall (fun d => DrawPath.path d <> EmptyString) (paths (handleTouchEnd s)).
Proof.
  intros H. unfold handleTouchEnd.
  destruct (negb (isDrawingEnabled s) || negb (isDrawing s)); [exact H|].
  cbv zeta. cbn [paths setCurrentPath].
  destruct (0 <? String.length (currentPath s))%nat eqn:Hp; [|exact H].
  assert (Hnew : Forall (fun d => DrawPath.path d <> EmptyString)
                   (filter (fun path => page_neq (DrawPath.page path) (currentPage s)) (paths s)
                    ++ [DrawPath.mk (currentPath s) (currentPage s)])).
  { apply Forall_app. split.
    - apply Forall_forall. intros d Hd. apply filter_In in Hd.
      rewrite Forall_forall in H. now apply H.
    - constructor; [|constructor]. now apply length_pos_nonempty. }
  destruct (ocrComplete s), (ocrResult s);
    rewrite ?(proj1 (findIntersectingBlocks_frame _ _ _)); exact Hnew.
Qed.

(** X16. In every state the screen can reach: a stroke is in progress only
    in lasso mode, outside lasso mode the stroke buffer is empty, and no
    stored path is the empty string. *)
Theorem stroke_state_invariants (w : World) :
  reached w ->
  (isDrawing (state w) = true -> isDrawingEnabled (state w) = true)
  /\ (isDrawingEnabled (state w) = false -> currentPath (state w) = EmptyString)
  /\ Forall (fun d => DrawPath.path d <> EmptyString) (paths (state w)).
Proof.
  intros Hr.
  apply (reachable_ind numberToString pdfPath
           (fun w => (isDrawing (state w) = true -> isDrawingEnabled (state w) = true)
                     /\ (isDrawingEnabled (state w) = false
                         -> currentPath (state w) = EmptyString)
                     /\ Forall (fun d => DrawPath.path d <> EmptyString) (paths (state w))));
    [| |exact Hr].
  - intros ww wh st. cbn. repeat split; [discriminate|constructor].
  - intros e w0 (H1 & H2 & H3).
    destruct (handle_stroke_cells e w0 (conj H1 H2)) as [H1' H2'].
    split; [exact H1'|]. split; [exact H2'|].
    destruct (handle_paths_cases numberToString pdfPath e w0) as [-> | [-> | [-> | ->]]].
    + exact H3.
    + constructor.
    + now apply handleTouchEnd_nonempty_paths.
    + apply Forall_forall. intros d Hd. apply filter_In in Hd.
      rewrite Forall_forall in H3. now apply H3.
Qed.

End Invariants.

Lemma stroke_state_invariants_witness :
  reachable integer_coordinate_toString "/a.pdf" example_world
  /\ Forall (fun d => DrawPath.path d <> EmptyString) (paths (state example_world)).
Proof.
  assert (H : reachable integer_coordinate_toString "/a.pdf" example_world).
  { exists 400%float, 800%float, (fun _ => None), example_events. reflexivity. }
  split; [exact H|].
  exact (proj2 (proj2 (stroke_state_invariants integer_coordinate_toString "/a.pdf"
                         example_world H))).
Defined.

(** ** Forgetting an analyzed page *)

Lemma performOCR_analyzedPages b s p :
  analyzedPages (fst (performOCR b s p)) = analyzedPages p.
Proof.
  unfold performOCR.
  destruct (includes _ _ && _); [reflexivity|].
  destruct (isProcessing s); [reflexivity|]. now destruct (negb b).
Qed.

(** X17. "Clear All" and switching lasso mode on forget the analysis of
    exactly the current page: afterwards a page counts as analyzed if and
    only if it did before and is not the current page. A current page that
    is NaN is never forgotten, since [page !== NaN] keeps every entry. *)
Theorem eviction_forgets_exactly_the_current_page (s : State) (q : PageNumber) (ref : bool) :
  includes (analyzedPages (clearAll s)) q
  = includes (analyzedPages s) q && page_neq q (currentPage s)
  /\ (isDrawingEnabled s = false -> isProcessing s = false ->
      includes (analyzedPages (fst (toggleDrawingMode ref s))) q
      = includes (analyzedPages s) q && page_neq q (currentPage s))
  /\ (currentPage s = PageNaN -> analyzedPages (clearAll s) = analyzedPages s).
Proof.
  split; [|split].
  - unfold clearAll. cbv zeta. cbn [analyzedPages setAnalyzedPages setIntersectingElements
      setCurrentPath setPaths setPageImageUri setOcrComplete setSelectedText setOcrResult].
    apply includes_evict.
  - intros Hd Hp. unfold toggleDrawingMode. rewrite Hd, Hp. cbn [negb andb]. cbv zeta.
    rewrite performOCR_analyzedPages.
    cbn [analyzedPages setAnalyzedPages setIntersectingElements setOcrComplete
         setSelectedText setOcrResult setIsDrawingEnabled].
    apply includes_evict.
  - intros Hc. unfold clearAll. cbv zeta. cbn [analyzedPages setAnalyzedPages
      setIntersectingElements setCurrentPath setPaths setPageImageUri setOcrComplete
      setSelectedText setOcrResult].
    rewrite Hc. apply filter_all. apply Forall_forall. intros a _. now destruct a.
Qed.

(** ** The point-in-polygon helper *)

Lemma ray_crossings_same_side (point : Point.t) (b : bool) (pts : list Point.t) :
  forall prev inside,
    (Point.y point <? Point.y prev)%float = b ->
    Forall (fun pt => (Point.y point <? Point.y pt)%float = b) pts ->
    ray_crossings point prev pts inside = inside.
Proof.
  induction pts as [|cur rest IH]; intros prev inside Hp H; [reflexivity|].
  cbn [ray_crossings]. cbv zeta.
  rewrite (Forall_inv H), Hp, xorb_nilpotent. cbn [andb].
  apply IH; [exact (Forall_inv H)|exact (Forall_inv_tail H)].
Qed.

(** X19. The point-in-polygon helper of the earlier revision never places
    a point inside a lasso that lies entirely on one side of the horizontal
    line through the point: when every vertex is above the point, or none
    is, no edge crosses the ray and the answer is false. A point whose [y]
    is NaN is therefore never inside. *)
Theorem isPointInPath_needs_vertices_on_both_sides
    (point : Point.t) (pathString : string) (above : bool) :
  (forall pt, In pt (parseSvgPath pathString) ->
              (Point.y point <? Point.y pt)%float = above) ->
  isPointInPath point pathString = false.
Proof.
  intros H. unfold isPointInPath. cbv zeta.
  destruct (List.length (parseSvgPath pathString) <? 3)%nat; [reflexivity|].
  destruct (last_item (parseSvgPath pathString)) as [prev|] eqn:El; [|reflexivity].
  apply ray_crossings_same_side with above.
  - apply H. unfold last_item in El. now apply nth_error_In in El.
  - now apply Forall_forall.
Qed.

Lemma isPointInPath_needs_vertices_on_both_sides_witness :
  isPointInPath (Point.mk 50 100) "M 0 0 L 100 0 L 50 50" = false.
Proof.
  apply (isPointInPath_needs_vertices_on_both_sides _ _ false).
  intros pt Hin. vm_compute in Hin.
  destruct Hin as [<- | [<- | [<- | []]]]; reflexivity.
Defined.

(** ** A word inside the lasso's box *)

Section Enclosed.

Local Open Scope float_scope.

Lemma leb_not_nan a b : (a <=? b) = true -> is_nan a = false /\ is_nan b = false.
Proof.
  rewrite leb_spec. intros H. apply SFleb_SFltb in H. destruct H as (_ & Ha & Hb).
  split; now apply is_nan_false_spec.
Qed.

Lemma leb_not_ltb a b : (a <=? b) = true -> (b <? a) = false.
Proof.
  rewrite leb_spec, ltb_spec. intros H. now apply SFleb_SFltb in H.
Qed.

(** Two numbers each at most the other compare equal. *)
Lemma leb_antisym a b : (a <=? b) = true -> (b <=? a) = true -> (a =? b) = true.
Proof.
  intros H1 H2. destruct (leb_not_nan _ _ H1) as [Ha Hb].
  apply leb_not_ltb in H1, H2.
  destruct (ltb_total a b Ha Hb) as [H | [H | H]]; congruence.
Qed.

Lemma leb_refl a : is_nan a = false -> (a <=? a) = true.
Proof. intros H. apply not_ltb_leb; [exact H|exact H|apply ltb_irrefl]. Qed.

Lemma neg_infinity_leb a : is_nan a = false -> (neg_infinity <=? a) = true.
Proof.
  intros H. apply not_ltb_leb; [reflexivity|exact H|apply ltb_neg_infinity_r].
Qed.

Lemma leb_infinity a : is_nan a = false -> (a <=? infinity) = true.
Proof.
  intros H. apply not_ltb_leb; [exact H|reflexivity|apply ltb_infinity_l].
Qed.

Lemma Math_max_pair a b : (a <=? b) = true -> (JS.Math_max [a; b] =? b) = true.
Proof.
  intros H. destruct (leb_not_nan _ _ H) as [Ha Hb].
  assert (Hl : Forall (fun n => is_nan n = false) [a; b])
    by (repeat (apply Forall_cons; [assumption|]); apply Forall_nil).
  pose proof (Math_max_not_nan _ Hl) as Hr.
  pose proof (Math_max_ge [a; b] b Hl (or_intror (or_introl eq_refl))) as Hge.
  apply leb_antisym; [|exact Hge].
  unfold JS.Math_max in *.
  destruct (max_from_sound [a; b] neg_infinity) as [-> | [[<- | [<- | []]] | Hex]].
  - now apply neg_infinity_leb.
  - exact H.
  - now apply leb_refl.
  - now apply Forall_not_nan_Exists in Hl.
Qed.

Lemma Math_min_pair a b : (b <=? a) = true -> (JS.Math_min [a; b] =? b) = true.
Proof.
  intros H. destruct (leb_not_nan _ _ H) as [Hb Ha].
  assert (Hl : Forall (fun n => is_nan n = false) [a; b])
    by (repeat (apply Forall_cons; [assumption|]); apply Forall_nil).
  pose proof (Math_min_not_nan _ Hl) as Hr.
  pose proof (Math_min_le [a; b] b Hl (or_intror (or_introl eq_refl))) as Hle.
  apply leb_antisym; [exact Hle|].
  unfold JS.Math_min in *.
  destruct (min_from_sound [a; b] infinity) as [-> | [[<- | [<- | []]] | Hex]].
  - now apply leb_infinity.
  - exact H.
  - now apply leb_refl.
  - now apply Forall_not_nan_Exists in Hl.
Qed.

(** Numbers that compare equal are the same number, or two zeros. *)
Lemma eqb_cases a b :
  (a =? b) = true -> a = b \/ (is_zero a = true /\ is_zero b = true).
Proof.
  intros H. pose proof H as H'. rewrite FloatAxioms.eqb_spec in H'.
  destruct (Prim2SF a) as [sa|sa| |sa ma ea] eqn:Ea,
           (Prim2SF b) as [sb|sb| |sb mb eb] eqn:Eb;
    try (unfold SFeqb in H'; cbn in H';
         repeat match goal with s : bool |- _ => destruct s end; cbn in H'; discriminate).
  - right. split; apply is_zero_spec; eauto.
  - left. apply Prim2SF_inj. rewrite Ea, Eb.
    destruct sa, sb; try reflexivity; unfold SFeqb in H'; cbn in H'; discriminate.
  - left. apply SFeqb_finite in H'. destruct H' as (-> & -> & ->).
    apply Prim2SF_inj. now rewrite Ea, Eb.
Qed.

(** Subtraction does not see the sign of a zero unless the result is a
    zero. *)
Lemma sub_zero_signs a a' b b' :
  (a =? a') = true -> (b =? b') = true -> JS.truthy (a' - b') = true -> a - b = a' - b'.
Proof.
  intros Ha Hb Ht.
  destruct (eqb_cases _ _ Ha) as [-> | [Za Za']];
    destruct (eqb_cases _ _ Hb) as [-> | [Zb Zb']]; try reflexivity.
  - apply Prim2SF_inj. rewrite !sub_spec. unfold SF64sub.
    apply is_zero_spec in Zb, Zb'. destruct Zb as [s Eb], Zb' as [s' Eb'].
    rewrite Eb, Eb'.
    assert (Hnz : forall z, Prim2SF a' <> S754_zero z).
    { intros z E. assert (JS.truthy (a' - b') = false); [|congruence].
      apply falsy_spec. rewrite sub_spec. unfold SF64sub. rewrite E, Eb'.
      left. destruct z, s'; cbn; eauto. }
    destruct (Prim2SF a') as [z|z| |z m e] eqn:E; try reflexivity.
    now elim (Hnz z).
  - apply Prim2SF_inj. rewrite !sub_spec. unfold SF64sub.
    apply is_zero_spec in Za, Za'. destruct Za as [s Ea], Za' as [s' Ea'].
    rewrite Ea, Ea'.
    assert (Hnz : forall z, Prim2SF b' <> S754_zero z).
    { intros z E. assert (JS.truthy (a' - b') = false); [|congruence].
      apply falsy_spec. rewrite sub_spec. unfold SF64sub. rewrite E, Ea'.
      left. destruct z, s'; cbn; eauto. }
    destruct (Prim2SF b') as [z|z| |z m e] eqn:E; try reflexivity.
    now elim (Hnz z).
  - assert (JS.truthy (a' - b') = false); [|congruence].
    apply sub_eqb_falsy. now apply zeros_eqb.
Qed.

Lemma mul_nan_r a b : is_nan b = true -> is_nan (a * b) = true.
Proof. rewrite !is_nan_spec, mul_spec. intros ->. now destruct (Prim2SF a). Qed.

Lemma positive_truthy x : (0 <? x) = true -> JS.truthy x = true.
Proof.
  intros H. destruct (JS.truthy x) eqn:E; [reflexivity|].
  apply falsy_spec in E. apply positive_spec in H.
  destruct H as [(m & e & H) | H]; rewrite H in E;
    destruct E as [[? ?] | ?]; discriminate.
Qed.

Lemma leb_trans a b c : (a <=? b) = true -> (b <=? c) = true -> (a <=? c) = true.
Proof.
  intros H1 H2. destruct (leb_not_nan _ _ H1) as [Ha Hb].
  destruct (leb_not_nan _ _ H2) as [_ Hc].
  apply leb_not_ltb in H1, H2. apply not_ltb_leb; try assumption.
  now apply not_ltb_trans with b.
Qed.

(** The extent of a non-empty list of numbers is ordered, provided its
    minimum and maximum are numbers. *)
Lemma Math_min_le_max (l : list float) (n : float) :
  In n l -> is_nan (JS.Math_min l) = false -> (JS.Math_min l <=? JS.Math_max l) = true.
Proof.
  intros Hin Hm.
  assert (Hl : Forall (fun n => is_nan n = false) l).
  { apply Forall_forall. intros v Hv. destruct (is_nan v) eqn:E; [|reflexivity].
    assert (Hex : Exists (fun n => is_nan n = true) l) by (apply Exists_exists; eauto).
    unfold JS.Math_min in Hm. rewrite (min_from_nan l infinity Hex) in Hm. discriminate. }
  apply leb_trans with n; [now apply Math_min_le|now apply Math_max_ge].
Qed.

(** The intersection with a box that contains the word's box is the word's
    box, and the overlap is the whole word. *)
Lemma overlap_percent_enclosed (lasso word : Box.t) :
  (Box.minX lasso <=? Box.minX word) = true -> (Box.maxX word <=? Box.maxX lasso) = true ->
  (Box.minY lasso <=? Box.minY word) = true -> (Box.maxY word <=? Box.maxY lasso) = true ->
  (Box.minX word <=? Box.maxX word) = true -> (Box.minY word <=? Box.maxY word) = true ->
  (0 <? box_area word) = true -> is_finite (box_area word) = true ->
  overlap_percent lasso word = 100.
Proof.
  intros HminX HmaxX HminY HmaxY HordX HordY Hpos Hfin.
  pose proof (Math_max_pair _ _ HminX) as EminX.
  pose proof (Math_min_pair _ _ HmaxX) as EmaxX.
  pose proof (Math_max_pair _ _ HminY) as EminY.
  pose proof (Math_min_pair _ _ HmaxY) as EmaxY.
  pose proof (positive_truthy _ Hpos) as Ht.
  assert (HtX : JS.truthy (Box.maxX word - Box.minX word) = true).
  { destruct (JS.truthy (Box.maxX word - Box.minX word)) eqn:E; [reflexivity|].
    unfold box_area in Ht. now rewrite (mul_falsy_l _ _ E) in Ht. }
  assert (HtY : JS.truthy (Box.maxY word - Box.minY word) = true).
  { destruct (JS.truthy (Box.maxY word - Box.minY word)) eqn:E; [reflexivity|].
    unfold box_area in Ht. now rewrite (mul_falsy_r _ _ E) in Ht. }
  unfold overlap_percent, box_disjoint. cbv zeta.
  unfold box_intersection at 1 2 3 4. cbn [Box.minX Box.maxX Box.minY Box.maxY].
  rewrite (eqb_ltb_l _ _ _ EmaxX), (eqb_ltb_r _ _ _ EminX).
  rewrite (eqb_ltb_l _ _ _ EmaxY), (eqb_ltb_r _ _ _ EminY).
  rewrite (leb_not_ltb _ _ HordX), (leb_not_ltb _ _ HordY). cbn [orb].
  assert (Ea : box_area (box_intersection lasso word) = box_area word).
  { unfold box_area, box_intersection. cbn [Box.minX Box.maxX Box.minY Box.maxY].
    now rewrite (sub_zero_signs _ _ _ _ EmaxX EminX HtX),
                (sub_zero_signs _ _ _ _ EmaxY EminY HtY). }
  rewrite Ea, (div_self _ Hpos Hfin). reflexivity.
Qed.

End Enclosed.

(** X20. A word whose mapped box lies inside the lasso's bounding box is
    always selected: when the lasso's box contains the word's box on both
    axes and the word's area is a positive finite number, the overlap is
    exactly 100 percent and the word is among the highlighted ones. *)
Theorem enclosed_word_is_selected
    (s p : State) (pathString : string) (ocr : TextRecognitionResult.t)
    (pos : IntersectingElement.t) (element : TextElement.t) (frame : Frame.t) :
  ocrResult s = Some ocr ->
  2 <= List.length (parseSvgPath pathString) ->
  element_at ocr pos = Some element ->
  TextElement.frame element = Some frame ->
  let lasso := boundingBox (parseSvgPath pathString) in
  let word := boundingBox (wordPoints_of (mapped_frame (viewLayout s) (imageSize s) frame)) in
  (Box.minX lasso <=? Box.minX word)%float = true ->
  (Box.maxX word <=? Box.maxX lasso)%float = true ->
  (Box.minY lasso <=? Box.minY word)%float = true ->
  (Box.maxY word <=? Box.maxY lasso)%float = true ->
  (0 <? box_area word)%float = true -> PrimFloat.is_finite (box_area word) = true ->
  overlap_percent lasso word = 100%float
  /\ In pos (intersectingElements (findIntersectingBlocks s pathString p)).
Proof.
  intros Hocr Hlen Hat Hfr lasso word HminX HmaxX HminY HmaxY Hpos Hfin.
  assert (Hnan : PrimFloat.is_nan (box_area word) = false)
    by exact (proj2 (ltb_not_nan _ _ Hpos)).
  assert (HwX : PrimFloat.is_nan (Box.maxX word - Box.minX word)%float = false).
  { destruct (PrimFloat.is_nan (Box.maxX word - Box.minX word)%float) eqn:E; [|reflexivity].
    unfold box_area in Hnan. now rewrite (mul_nan_l _ _ E) in Hnan. }
  assert (HwY : PrimFloat.is_nan (Box.maxY word - Box.minY word)%float = false).
  { destruct (PrimFloat.is_nan (Box.maxY word - Box.minY word)%float) eqn:E; [|reflexivity].
    unfold box_area in Hnan. now rewrite (mul_nan_r _ _ E) in Hnan. }
  assert (HmX : PrimFloat.is_nan (Box.minX word) = false).
  { destruct (PrimFloat.is_nan (Box.minX word)) eqn:E; [|reflexivity].
    now rewrite (sub_nan_r _ _ E) in HwX. }
  assert (HmY : PrimFloat.is_nan (Box.minY word) = false).
  { destruct (PrimFloat.is_nan (Box.minY word)) eqn:E; [|reflexivity].
    now rewrite (sub_nan_r _ _ E) in HwY. }
  assert (HordX : (Box.minX word <=? Box.maxX word)%float = true).
  { unfold word, boundingBox, wordPoints_of in HmX |- *.
    cbn [Box.minX Box.maxX map Point.x] in HmX |- *.
    eapply Math_min_le_max; [left; reflexivity|exact HmX]. }
  assert (HordY : (Box.minY word <=? Box.maxY word)%float = true).
  { unfold word, boundingBox, wordPoints_of in HmY |- *.
    cbn [Box.minY Box.maxY map Point.y] in HmY |- *.
    eapply Math_min_le_max; [left; reflexivity|exact HmY]. }
  pose proof (overlap_percent_enclosed lasso word HminX HmaxX HminY HmaxY HordX HordY Hpos Hfin)
    as Hp.
  split; [exact Hp|].
  rewrite (findIntersectingBlocks_elements s p pathString ocr Hocr Hlen).
  apply collect_elements_In. exists element. split; [exact Hat|].
  rewrite (selects_frame _ _ _ _ _ Hfr). fold lasso. fold word. rewrite Hp. reflexivity.
Qed.

Lemma enclosed_word_is_selected_witness :
  In (IntersectingElement.mk 0 0 0)
     (intersectingElements (findIntersectingBlocks example_state "M 0 0 L 100 20" example_state)).
Proof.
  assert (Hlen : 2 <= List.length (parseSvgPath "M 0 0 L 100 20")) by (vm_compute; lia).
  refine (proj2 (enclosed_word_is_selected example_state example_state "M 0 0 L 100 20"
                   example_ocr (IntersectingElement.mk 0 0 0)
                   (TextElement.mk "Hello" (Some (frame_ltwh 0 0 100 20)))
                   (frame_ltwh 0 0 100 20) eq_refl Hlen eq_refl eq_refl _ _ _ _ _ _));
    vm_compute; reflexivity.
Defined.

(** ** Clearing *)

Lemma stroke_path_nonempty (numberToString : float -> string)
    (start : float * float) (moves : list (float * float)) :
  JS.join " " (stroke_tokens numberToString start moves) <> EmptyString.
Proof. unfold stroke_tokens. cbn [app]. apply join_nonempty. discriminate. Qed.

(** X21. "Clear Selection" keeps the analysis: it empties the highlights
    and the selected text but leaves the recognition result and the set of
    analyzed pages alone, so that no new analysis is started for an analyzed
    page and the next stroke in lasso mode is evaluated at once against the
    same result. *)
Theorem clear_selection_keeps_analysis (numberToString : float -> string)
    (s : State) (ocr : TextRecognitionResult.t)
    (start : float * float) (moves : list (float * float)) :
  isDrawingEnabled s = true -> ocrComplete s = true -> ocrResult s = Some ocr ->
  let cleared := clearCurrentDrawing s in
  let path := JS.join " " (stroke_tokens numberToString start moves) in
  let redrawn := handleTouchEnd (draw_stroke numberToString start moves cleared) in
  highlights cleared = [] /\ selectedText cleared = None
  /\ ocrResult cleared = Some ocr /\ analyzedPages cleared = analyzedPages s
  /\ (forall ref, includes (analyzedPages s) (currentPage s) = true ->
                  analysisEffect ref cleared = (cleared, None))
  /\ (2 <= List.length (parseSvgPath path) ->
      intersectingElements redrawn
      = collect_elements (viewLayout s) (imageSize s) (parseSvgPath path) ocr).
Proof.
  intros He Hc Hocr cleared path redrawn.
  split; [|split; [|split; [|split; [|split]]]].
  - unfold highlights, cleared, clearCurrentDrawing. cbv zeta.
    cbn [ocrResult ocrComplete imageSize intersectingElements setSelectedText
         setIntersectingElements setCurrentPath setPaths].
    rewrite Hocr. now destruct (_ && _).
  - reflexivity.
  - exact Hocr.
  - reflexivity.
  - intros ref Hi. unfold analysisEffect.
    change (analyzedPages cleared) with (analyzedPages s).
    change (currentPage cleared) with (currentPage s).
    rewrite Hi. cbn [negb]. now rewrite andb_false_r.
  - intros Hlen.
    assert (Ed : draw_stroke numberToString start moves cleared
                 = setCurrentPath path (setIsDrawing true cleared))
      by (apply draw_stroke_state; exact He).
    unfold redrawn. rewrite Ed. set (drawn := setCurrentPath path (setIsDrawing true cleared)).
    assert (Hne : (0 <? String.length path)%nat = true)
      by (apply length_pos_nonempty, stroke_path_nonempty).
    unfold handleTouchEnd.
    change (isDrawingEnabled drawn) with (isDrawingEnabled s).
    change (isDrawing drawn) with true. change (currentPath drawn) with path.
    change (ocrComplete drawn) with (ocrComplete s).
    change (ocrResult drawn) with (ocrResult s).
    rewrite He, Hne, Hc, Hocr. cbn [negb orb]. cbv zeta.
    cbn [intersectingElements setCurrentPath].
    now rewrite (findIntersectingBlocks_elements drawn _ path ocr Hocr Hlen).
Qed.

Lemma clear_selection_keeps_analysis_witness :
  ocrResult (clearCurrentDrawing example_state_lasso) = Some example_ocr.
Proof.
  exact (proj1 (proj2 (proj2
    (clear_selection_keeps_analysis integer_coordinate_toString example_state_lasso
       example_ocr (0, 0)%float [] eq_refl eq_refl eq_refl)))).
Defined.

(** X22. "Clear All" throws the analysis away: the recognition result, the
    paths and the highlights are gone, a stroke drawn afterwards is stored
    but not evaluated, and - with the screen idle in lasso mode, the view
    attached and a document loaded - the effect of the next render starts a
    new analysis of the page. *)
Theorem clear_all_needs_new_analysis (numberToString : float -> string)
    (s : State) (n : Z) (start : float * float) (moves : list (float * float)) :
  isDrawingEnabled s = true ->
  let cleared := clearAll s in
  let path := JS.join " " (stroke_tokens numberToString start moves) in
  let redrawn := handleTouchEnd (draw_stroke numberToString start moves cleared) in
  ocrResult cleared = None /\ paths cleared = [] /\ highlights cleared = []
  /\ intersectingElements redrawn = [] /\ selectedText redrawn = None
  /\ paths redrawn = [DrawPath.mk path (currentPage s)]
  /\ (isProcessing s = false -> currentPage s = Page n -> (0 <? totalPages s)%Z = true ->
      exists p c, analysisEffect true cleared = (p, Some c)
                  /\ cy_stage c = Settling /\ cy_closure c = cleared
                  /\ isProcessing p = true).
Proof.
  intros He cleared path redrawn.
  assert (Ed : draw_stroke numberToString start moves cleared
               = setCurrentPath path (setIsDrawing true cleared))
    by (apply draw_stroke_state; exact He).
  assert (Hne : (0 <? String.length path)%nat = true)
    by (apply length_pos_nonempty, stroke_path_nonempty).
  assert (Er : redrawn
               = setCurrentPath EmptyString
                   (setPaths [DrawPath.mk path (currentPage s)]
                      (setIsDrawing false (setCurrentPath path (setIsDrawing true cleared))))).
  { unfold redrawn. rewrite Ed. unfold handleTouchEnd.
    cbn [isDrawingEnabled isDrawing currentPath ocrResult ocrComplete setCurrentPath
         setIsDrawing cleared clearAll setAnalyzedPages setIntersectingElements setPaths
         setPageImageUri setOcrComplete setSelectedText setOcrResult].
    rewrite He, Hne. reflexivity. }
  split; [reflexivity|]. split; [reflexivity|]. split; [reflexivity|].
  split; [now rewrite Er|]. split; [now rewrite Er|]. split; [now rewrite Er|].
  intros Hp Hc Ht. unfold analysisEffect, performOCR.
  assert (Hi : includes (analyzedPages cleared) (currentPage cleared) = false).
  { unfold cleared, clearAll. cbv zeta.
    cbn [analyzedPages currentPage setAnalyzedPages setIntersectingElements setCurrentPath
         setPaths setPageImageUri setOcrComplete setSelectedText setOcrResult].
    rewrite includes_evict, Hc. unfold page_neq. cbn. rewrite Z.eqb_refl.
    apply andb_false_r. }
  rewrite Hi.
  change (isDrawingEnabled cleared) with (isDrawingEnabled s).
  change (isProcessing cleared) with (isProcessing s).
  change (totalPages cleared) with (totalPages s).
  rewrite He, Hp, Ht. cbn [negb andb].
  eexists. eexists. repeat split.
Qed.

Lemma clear_all_needs_new_analysis_witness :
  intersectingElements
    (handleTouchEnd (draw_stroke integer_coordinate_toString (0, 0) [(100, 20)]
                       (clearAll example_state_lasso)))%float = [].
Proof.
  exact (proj1 (proj2 (proj2 (proj2
    (clear_all_needs_new_analysis integer_coordinate_toString example_state_lasso 1
       (0, 0)%float [(100, 20)%float] eq_refl))))).
Defined.

(** X23. Turning the page clears nothing: the recognition result, the
    highlights, the selected text and the paths of the previous page stay
    in the state, and outside lasso mode no analysis of the new page is
    started, so the highlights of the previous page stay on screen. *)
Theorem page_change_keeps_selection (s : State) (page : PageNumber) (noOfPages : Z) :
  let s' := handlePageChange page noOfPages s in
  currentPage s' = page
  /\ highlights s' = highlights s /\ selectedText s' = selectedText s
  /\ ocrResult s' = ocrResult s /\ paths s' = paths s
  /\ analyzedPages s' = analyzedPages s
  /\ (forall ref, isDrawingEnabled s = false -> analysisEffect ref s' = (s', None)).
Proof.
  cbv zeta. unfold handlePageChange. cbv zeta.
  destruct (negb (totalPages s =? noOfPages)%Z); repeat split;
    intros ref Hd; unfold analysisEffect;
    cbn [isDrawingEnabled setTotalPages setCurrentPage]; now rewrite Hd.
Qed.

(** ** PdfUploadScreen *)

(** X24. The upload screen opens the viewer only on the copy it has just
    made: a navigation is always preceded by a successful [copyFile] of the
    picked URI to the path it navigates to, which is the [pdfs] folder plus
    the document's name; every run ends either with that navigation or with
    the error alert, never both; and the folder is created exactly when
    [exists] answered no. *)
Theorem upload_navigates_only_after_copy
    (DocumentDirectoryPath : string) (document : DocumentPickerResponse.t) (r : Replies) :
  let trace := handleSelectedPdf DocumentDirectoryPath document r in
  let alert := Alert_alert "Error" "Failed to save PDF document" in
  (forall pdfPath, In (navigate_PdfViewer pdfPath) trace ->
     pdfPath = destPath DocumentDirectoryPath document
     /\ copyFile_reply r = true
     /\ exists uri, DocumentPickerResponse.uri document = Some uri
                    /\ uri <> EmptyString
                    /\ In (RNFS_copyFile uri pdfPath) trace)
  /\ (In (navigate_PdfViewer (destPath DocumentDirectoryPath document)) trace
      \/ In alert trace)
  /\ ~ (In (navigate_PdfViewer (destPath DocumentDirectoryPath document)) trace
        /\ In alert trace)
  /\ (In (RNFS_mkdir (DocumentDirectoryPath ++ "/pdfs")) trace
      <-> exists_reply r = Some false).
Proof.
  cbv zeta. unfold handleSelectedPdf, handleSelectedPdf_catch.
  destruct r as [[[|]|] mk cp], document as [[[|c u]|] name];
    cbn [exists_reply mkdir_reply copyFile_reply DocumentPickerResponse.uri negb andb app];
    try destruct mk; try destruct cp; cbn [negb andb app];
    (split; [|split; [|split]]);
    try (intros pdfPath H; cbn [In] in H;
         repeat match goal with
                | H : _ \/ _ |- _ => destruct H as [H | H]
                | H : False |- _ => destruct H
                end;
         first [ discriminate
               | inversion H; subst;
                 split; [reflexivity|]; split; [reflexivity|];
                 eexists; split; [reflexivity|]; split; [discriminate|cbn [In]; auto 10] ]);
    try (cbn [In]; auto 10; fail);
    try (intros [H1 H2]; cbn [In] in H1, H2;
         repeat match goal with
                | H : _ \/ _ |- _ => destruct H as [H | H]
                | H : False |- _ => destruct H
                end; discriminate);
    try (split; [intros H; cbn [In] in H;
                 repeat match goal with
                        | H : _ \/ _ |- _ => destruct H as [H | H]
                        | H : False |- _ => destruct H
                        end; first [discriminate | reflexivity]
                |intros H; first [discriminate | cbn [In]; auto 10]]).
Qed.

(** X25. The page is remembered per file name, not per document: the
    copy's path depends on the picked document's name only, so two picked
    documents with the same name are opened under the same path, and the
    page saved while viewing the first (an integer of at most [2^53 - 1])
    is restored when the second is opened. *)
Theorem same_name_shares_saved_page
    (DocumentDirectoryPath : string) (first second : DocumentPickerResponse.t)
    (st : Storage) (n : Z) (p : State) :
  DocumentPickerResponse.name first = DocumentPickerResponse.name second ->
  JS.isSafeInteger n = true ->
  destPath DocumentDirectoryPath first = destPath DocumentDirectoryPath second
  /\ loadLastViewedPage (destPath DocumentDirectoryPath second)
       (saveCurrentPageState (Page n) (destPath DocumentDirectoryPath first) st) p
     = setInitialPage (Page n) (setCurrentPage (Page n) p).
Proof.
  intros Hn Hsafe.
  assert (E : destPath DocumentDirectoryPath first = destPath DocumentDirectoryPath second)
    by (unfold destPath; now rewrite Hn).
  split; [exact E|]. rewrite E, loadLastViewedPage_saved.
  rewrite (page_parseInt_toString n Hsafe), (page_toString_safe n Hsafe).
  now rewrite String.eqb_refl, int_toString_nonempty.
Qed.

Lemma same_name_shares_saved_page_witness :
  JS.isSafeInteger 5 = true
  /\ currentPage
       (loadLastViewedPage
          (destPath "/docs" (DocumentPickerResponse.mk (Some "content://b"%string)
                                                       (Some "a.pdf"%string)))
          (saveCurrentPageState (Page 5)
             (destPath "/docs" (DocumentPickerResponse.mk (Some "content://a"%string)
                                                          (Some "a.pdf"%string)))
             (fun _ => None))
          (initialState 400 800))
     = Page 5.
Proof.
  split; [reflexivity|].
  exact (f_equal currentPage
           (proj2 (same_name_shares_saved_page "/docs"
                     (DocumentPickerResponse.mk (Some "content://a"%string)
                                                (Some "a.pdf"%string))
                     (DocumentPickerResponse.mk (Some "content://b"%string)
                                                (Some "a.pdf"%string))
                     (fun _ => None) 5 (initialState 400 800) eq_refl eq_refl))).
Defined.
